(** * smart-ai-product-crawler: the crawl orchestration and its URL utilities

A shallow embedding of [src/lib/urlUtils.ts], of the two versions of
[crawlWebsite] (the sequential one of [src/lib/crawler.ts] and the batched,
prioritised one) and of the HTTP handler that calls it, followed by the
properties of the specification that were checked against them.

JavaScript strings are modelled as [string]: the byte sequence of the
UTF-8 encoding of the JavaScript string.  On ASCII text, which is what
every serialized URL consists of, bytes and UTF-16 code units coincide. *)

From Stdlib Require Import List String Ascii Bool Arith ZArith Lia Permutation Sorted.
From Stdlib Require Import DecimalString DecimalN DecimalPos.

Import ListNotations.

Open Scope string_scope.
Open Scope list_scope.

(* ===================================================================== *)
(** ** Strings as JavaScript uses them *)
(* ===================================================================== *)

Module JsString.

Definition code (c : ascii) : nat := nat_of_ascii c.

Definition between (lo hi : nat) (c : ascii) : bool :=
  (lo <=? code c)%nat && (code c <=? hi)%nat.

Definition is_upper : ascii -> bool := between 65 90.
Definition is_lower : ascii -> bool := between 97 122.
Definition is_digit : ascii -> bool := between 48 57.
Definition is_alpha (c : ascii) : bool := is_upper c || is_lower c.
Definition is_alnum (c : ascii) : bool := is_alpha c || is_digit c.

Definition is_char (x c : ascii) : bool := Ascii.eqb c x.

(** [String.prototype.toLowerCase] on ASCII letters; every other byte is
    left alone (the strings the program lower-cases are ASCII). *)
Definition lower_char (c : ascii) : ascii :=
  if is_upper c then ascii_of_nat (code c + 32) else c.

Fixpoint toLowerCase (s : string) : string :=
  match s with
  | EmptyString => EmptyString
  | String c s' => String (lower_char c) (toLowerCase s')
  end.

Fixpoint sall (p : ascii -> bool) (s : string) : bool :=
  match s with
  | EmptyString => true
  | String c s' => p c && sall p s'
  end.

Definition sany (p : ascii -> bool) (s : string) : bool :=
  negb (sall (fun c => negb (p c)) s).

Fixpoint sfilter (p : ascii -> bool) (s : string) : string :=
  match s with
  | EmptyString => EmptyString
  | String c s' => if p c then String c (sfilter p s') else sfilter p s'
  end.

Fixpoint drop_while (p : ascii -> bool) (s : string) : string :=
  match s with
  | EmptyString => EmptyString
  | String c s' => if p c then drop_while p s' else s
  end.

(** [s.replace(/X+$/, "")] for a one-character class [X]. *)
Fixpoint strip_trailing (p : ascii -> bool) (s : string) : string :=
  match s with
  | EmptyString => EmptyString
  | String c s' =>
      match strip_trailing p s' with
      | EmptyString => if p c then EmptyString else String c EmptyString
      | r => String c r
      end
  end.

(** The longest prefix free of [p], and what follows it. *)
Fixpoint break (p : ascii -> bool) (s : string) : string * string :=
  match s with
  | EmptyString => (EmptyString, EmptyString)
  | String c s' =>
      if p c then (EmptyString, s)
      else let r := break p s' in (String c (fst r), snd r)
  end.

(** [s.split(sep)] for one-character separators: never the empty list. *)
Fixpoint split_by (p : ascii -> bool) (s : string) : list string :=
  match s with
  | EmptyString => [EmptyString]
  | String c s' =>
      let r := split_by p s' in
      if p c then EmptyString :: r
      else String c (hd EmptyString r) :: tl r
  end.

Fixpoint smap (f : ascii -> ascii) (s : string) : string :=
  match s with
  | EmptyString => EmptyString
  | String c s' => String (f c) (smap f s')
  end.

Definition nonempty (s : string) : bool :=
  match s with EmptyString => false | _ => true end.

(** [Array.prototype.join]. *)
Definition join (sep : string) (l : list string) : string := String.concat sep l.

Definition starts_with (p s : string) : bool := String.prefix p s.

Definition mem (s : string) (l : list string) : bool :=
  existsb (String.eqb s) l.

(** [Array.prototype.sort] is stable; with a comparison that is a total
    preorder the result is the stable sorted permutation, which insertion
    from the right computes.  [gt a b] says that the comparator is
    positive on [(a, b)]. *)
Fixpoint insert_by {A : Type} (gt : A -> A -> bool) (x : A) (l : list A) : list A :=
  match l with
  | [] => [x]
  | y :: l' => if gt x y then y :: insert_by gt x l' else x :: l
  end.

Definition sort_by {A : Type} (gt : A -> A -> bool) (l : list A) : list A :=
  fold_right (insert_by gt) [] l.

(** *** [String.prototype.localeCompare]

    The default collation (CLDR root, as ICU implements it, at its default
    strength) on ASCII text.  The control characters U+0000 to U+0008,
    U+000E to U+001F and U+007F are ignored.  The remaining characters are
    compared first by their primary weights, where white space precedes
    punctuation, punctuation precedes symbols, symbols precede digits,
    digits precede letters and the two cases of a letter weigh the same;
    ties are broken by case, lower case first.  Two strings that differ
    only in ignored characters compare as equal.

    The collation of text that is not ASCII is not modelled: a byte above
    127 is given a weight after the letters, in byte order, which is not
    what ICU does with the character it belongs to, and the properties
    that depend on the order of such keys are stated for ASCII keys
    ([is_ascii]) only. *)
Definition is_ascii (s : string) : bool := sall (fun c => (code c <? 128)%nat) s.

Definition ignorable (c : ascii) : bool :=
  (code c <=? 8)%nat || between 14 31 c || (code c =? 127)%nat.

(** The characters of a string that the collation sees. *)
Definition collation_key (s : string) : string :=
  sfilter (fun c => negb (ignorable c)) s.

Definition collation_order : string :=
  String (ascii_of_nat 9) (String (ascii_of_nat 10) (String (ascii_of_nat 11)
    (String (ascii_of_nat 12) (String (ascii_of_nat 13)
       (" _-,;:!?.'" ++ String (ascii_of_nat 34)
          "()[]{}@*/\&#%`^+<=>|~$0123456789abcdefghijklmnopqrstuvwxyz"))))).

Fixpoint index_of (c : ascii) (s : string) (i : nat) : option nat :=
  match s with
  | EmptyString => None
  | String d s' => if Ascii.eqb c d then Some i else index_of c s' (S i)
  end.

Definition collation_rank (c : ascii) : nat :=
  match index_of (lower_char c) collation_order 0 with
  | Some i => i
  | None => 1000 + code c
  end.

Definition case_rank (c : ascii) : nat := if is_upper c then 1 else 0.

Fixpoint cmp_by (r : ascii -> nat) (a b : string) : comparison :=
  match a, b with
  | EmptyString, EmptyString => Eq
  | EmptyString, String _ _ => Lt
  | String _ _, EmptyString => Gt
  | String x a', String y b' =>
      match Nat.compare (r x) (r y) with
      | Eq => cmp_by r a' b'
      | o => o
      end
  end.

Definition compare_weights (a b : string) : comparison :=
  match cmp_by collation_rank a b with
  | Eq => cmp_by case_rank a b
  | o => o
  end.

Definition localeCompare (a b : string) : comparison :=
  compare_weights (collation_key a) (collation_key b).

End JsString.

(* ===================================================================== *)
(** ** The [URL] and [URLSearchParams] classes of the runtime

    The program relies on the WHATWG URL parser behind [new URL(...)].
    The model covers absolute URLs of the schemes [http] and [https] whose
    host is a plain ASCII domain name and which carry no credentials, and
    references resolved against such a URL.  On those it follows the
    standard's state machine: leading and trailing C0 controls and spaces
    are stripped, tabs and newlines removed, the scheme and host are
    lower-cased, any run of slashes and backslashes after the scheme is
    skipped, a default port is dropped, dot segments are resolved, and path,
    query and fragment are percent-encoded with their respective sets.
    Everything outside that fragment (other schemes, credentials, IPv4 and
    IPv6 literals, internationalised or empty host labels, labels with
    characters other than letters, digits and hyphens) makes [new_URL]
    answer [None], which stands for the [TypeError] that [new URL] throws
    on input it cannot parse.  The runtime parses some of that input; what
    is proved of a string that [new_URL] rejects is proved of the
    [TypeError] path of the code, and the properties of parsed URLs are
    properties of the [http] and [https] URLs that [new_URL] parses.  A
    host of another scheme, for one, would keep its letter case.

    [URLSearchParams] decodes names and values as UTF-8 and replaces an
    invalid sequence by U+FFFD; the model keeps the bytes, which is the
    same on ASCII text and on valid UTF-8. *)
(* ===================================================================== *)

Module URL.

Import JsString.

Record t : Type := mk {
  scheme : string;            (* without the colon *)
  host : string;
  port : option N;            (* [None]: absent or the scheme's default *)
  path : list string;         (* the segments; never empty after parsing *)
  query : option string;
  fragment : option string
}.

Definition with_path (p : list string) (u : t) : t :=
  mk (scheme u) (host u) (port u) p (query u) (fragment u).
Definition with_query (q : option string) (u : t) : t :=
  mk (scheme u) (host u) (port u) (path u) q (fragment u).
Definition with_fragment (f : option string) (u : t) : t :=
  mk (scheme u) (host u) (port u) (path u) (query u) f.

(** *** Percent-encoding *)

Definition c0_control_set (c : ascii) : bool :=
  (code c <=? 31)%nat || (127 <=? code c)%nat.

Definition one_of (s : string) (c : ascii) : bool := sany (Ascii.eqb c) s.

Definition dquote : ascii := ascii_of_nat 34.

Definition fragment_set (c : ascii) : bool :=
  c0_control_set c || one_of (String dquote " <>`") c.
Definition query_set (c : ascii) : bool :=
  c0_control_set c || one_of (String dquote " #<>") c.
Definition special_query_set (c : ascii) : bool :=
  query_set c || one_of "'" c.
(** The path percent-encode set of the standard; runtimes that predate
    the addition of [^] to it leave that character alone in a path. *)
Definition path_set (c : ascii) : bool :=
  query_set c || one_of "?^`{}" c.

(** The [application/x-www-form-urlencoded] set leaves only ASCII
    alphanumerics and [*-._] alone. *)
Definition urlencoded_set (c : ascii) : bool :=
  negb (is_alnum c || one_of "*-._" c).

Definition hex_digit (n : nat) : ascii :=
  if (n <? 10)%nat then ascii_of_nat (48 + n) else ascii_of_nat (55 + n).

Definition pct (c : ascii) : string :=
  String "%" (String (hex_digit (code c / 16)) (String (hex_digit (code c mod 16)) "")).

Fixpoint percent_encode (set : ascii -> bool) (s : string) : string :=
  match s with
  | EmptyString => EmptyString
  | String c s' =>
      if set c then pct c ++ percent_encode set s'
      else String c (percent_encode set s')
  end.

Definition hex_value (c : ascii) : option nat :=
  if is_digit c then Some (code c - 48)
  else if between 65 70 c then Some (code c - 55)
  else if between 97 102 c then Some (code c - 87)
  else None.

Definition escape_at (s : string) : option (ascii * string) :=
  match s with
  | String "%" (String h1 (String h2 rest)) =>
      match hex_value h1, hex_value h2 with
      | Some a, Some b => Some (ascii_of_nat (16 * a + b), rest)
      | _, _ => None
      end
  | _ => None
  end.

Fixpoint percent_decode (s : string) : string :=
  match s with
  | EmptyString => EmptyString
  | String c s' =>
      match s' with
      | String h1 (String h2 rest) =>
          match (if Ascii.eqb c "%" then hex_value h1 else None), hex_value h2 with
          | Some a, Some b => String (ascii_of_nat (16 * a + b)) (percent_decode rest)
          | _, _ => String c (percent_decode s')
          end
      | _ => String c (percent_decode s')
      end
  end.

(** *** Input preprocessing *)

Definition is_c0_or_space (c : ascii) : bool := (code c <=? 32)%nat.
Definition is_tab_or_newline (c : ascii) : bool :=
  (code c =? 9)%nat || (code c =? 10)%nat || (code c =? 13)%nat.

Definition remove_tab_newline (s : string) : string :=
  sfilter (fun c => negb (is_tab_or_newline c)) s.

Definition preprocess (s : string) : string :=
  remove_tab_newline (strip_trailing is_c0_or_space (drop_while is_c0_or_space s)).

(** *** Scheme *)

Definition is_scheme_char (c : ascii) : bool := is_alnum c || one_of "+-." c.

Definition parse_scheme (s : string) : option (string * string) :=
  match break (fun c => negb (is_scheme_char c)) s with
  | (String c a, String ":" rest) =>
      if is_alpha c then Some (toLowerCase (String c a), rest) else None
  | _ => None
  end.

Definition modelled_scheme (s : string) : bool :=
  String.eqb s "http" || String.eqb s "https".

Definition default_port (s : string) : N :=
  if String.eqb s "http" then 80%N else 443%N.

(** *** Host and port *)

Definition is_host_char (c : ascii) : bool := is_alnum c || one_of "-" c.

Definition label_ok (l : string) : bool :=
  nonempty l && sall is_host_char l && negb (starts_with "xn--" l).

(** A last label that begins with a digit may be an IPv4 number. *)
Definition host_ok (h : string) : bool :=
  let labels := split_by (is_char ".") h in
  forallb label_ok labels
  && match last labels "" with
     | String c _ => negb (is_digit c)
     | EmptyString => false
     end.

Definition parse_port (sch digits : string) : option (option N) :=
  match digits with
  | EmptyString => Some None
  | _ =>
      match NilEmpty.uint_of_string digits with
      | Some d =>
          let n := N.of_uint d in
          if (n <=? 65535)%N
          then Some (if (n =? default_port sch)%N then None else Some n)
          else None
      | None => None
      end
  end.

Definition parse_host_port (sch auth : string) : option (string * option N) :=
  let h := toLowerCase (fst (break (is_char ":") auth)) in
  if host_ok h then
    match snd (break (is_char ":") auth) with
    | EmptyString => Some (h, None)
    | String _ digits =>
        match parse_port sch digits with
        | Some p => Some (h, p)
        | None => None
        end
    end
  else None.

(** *** Path *)

Definition is_slash (c : ascii) : bool := is_char "/" c || is_char "\" c.

Definition is_single_dot (s : string) : bool :=
  mem (toLowerCase s) ["."; "%2e"].
Definition is_double_dot (s : string) : bool :=
  mem (toLowerCase s) [".."; ".%2e"; "%2e."; "%2e%2e"].

(** The path state: every segment but the last is followed by a slash. *)
Fixpoint path_state (acc : list string) (segs : list string) : list string :=
  match segs with
  | [] => acc
  | [s] =>
      if is_double_dot s then removelast acc ++ [""]
      else if is_single_dot s then acc ++ [""]
      else acc ++ [s]
  | s :: rest =>
      if is_double_dot s then path_state (removelast acc) rest
      else if is_single_dot s then path_state acc rest
      else path_state (acc ++ [s]) rest
  end.

Definition drop_one_slash (s : string) : string :=
  match s with
  | String c s' => if is_slash c then s' else s
  | EmptyString => EmptyString
  end.

Definition path_segments (s : string) : list string :=
  map (percent_encode path_set) (split_by is_slash s).

Definition parse_path (s : string) : list string :=
  path_state [] (path_segments (drop_one_slash s)).

(** *** What follows the authority: path, query, fragment *)

Definition is_query_or_hash (c : ascii) : bool := is_char "?" c || is_char "#" c.

Definition tail_path (s : string) : string := fst (break is_query_or_hash s).

Definition tail_query (s : string) : option string :=
  match snd (break is_query_or_hash s) with
  | String "?" r => Some (percent_encode special_query_set (fst (break (is_char "#") r)))
  | _ => None
  end.

Definition tail_fragment (s : string) : option string :=
  match snd (break (is_char "#") s) with
  | String _ r => Some (percent_encode fragment_set r)
  | EmptyString => None
  end.

Definition parse_authority (sch s : string) : option t :=
  let auth := fst (break (fun c => is_slash c || is_query_or_hash c) s) in
  let rest := snd (break (fun c => is_slash c || is_query_or_hash c) s) in
  match parse_host_port sch auth with
  | Some (h, p) =>
      Some (mk sch h p (parse_path (tail_path rest)) (tail_query rest) (tail_fragment rest))
  | None => None
  end.

(** [new URL(input)] *)
Definition new_URL (input : string) : option t :=
  match parse_scheme (preprocess input) with
  | Some (sch, rest) =>
      if modelled_scheme sch then parse_authority sch (drop_while is_slash rest)
      else None
  | None => None
  end.

(** The relative state and the states it leads to. *)
Definition relative (b : t) (s : string) : option t :=
  match s with
  | EmptyString => Some (with_fragment None b)
  | String c s1 =>
      if is_slash c then
        match s1 with
        | String c2 _ =>
            if is_slash c2 then parse_authority (scheme b) (drop_while is_slash s1)
            else Some (mk (scheme b) (host b) (port b)
                          (parse_path (tail_path s)) (tail_query s) (tail_fragment s))
        | EmptyString =>
            Some (mk (scheme b) (host b) (port b)
                     (parse_path (tail_path s)) (tail_query s) (tail_fragment s))
        end
      else if is_char "?" c then
        Some (mk (scheme b) (host b) (port b) (path b) (tail_query s) (tail_fragment s))
      else if is_char "#" c then
        Some (with_fragment (tail_fragment s) b)
      else
        Some (mk (scheme b) (host b) (port b)
                 (path_state (removelast (path b)) (path_segments (tail_path s)))
                 (tail_query s) (tail_fragment s))
  end.

(** [new URL(input, base)] *)
Definition new_URL_base (input base : string) : option t :=
  match new_URL base with
  | None => None
  | Some b =>
      match parse_scheme (preprocess input) with
      | Some (sch, rest) =>
          if modelled_scheme sch then
            if String.eqb sch (scheme b) && negb (starts_with "//" rest)
            then relative b rest
            else parse_authority sch (drop_while is_slash rest)
          else None
      | None => relative b (preprocess input)
      end
  end.

(** *** Getters, setters, serializer *)

Definition pathname (u : t) : string :=
  String.concat "" (map (fun s => "/" ++ s) (path u))%string.

Definition hostname (u : t) : string := host u.

Definition search (u : t) : string :=
  match query u with
  | None | Some EmptyString => ""
  | Some q => "?" ++ q
  end%string.

Definition string_of_N (n : N) : string := NilEmpty.string_of_uint (N.to_uint n).

(** [url.href], which [url.toString()] returns. *)
Definition href (u : t) : string :=
  (scheme u ++ "://" ++ host u
     ++ match port u with Some n => ":" ++ string_of_N n | None => "" end
     ++ pathname u
     ++ match query u with Some q => "?" ++ q | None => "" end
     ++ match fragment u with Some f => "#" ++ f | None => "" end)%string.

(** [url.hash = v] *)
Definition set_hash (v : string) (u : t) : t :=
  match v with
  | EmptyString => with_fragment None u
  | String c r =>
      with_fragment
        (Some (percent_encode fragment_set
                 (remove_tab_newline (if is_char "#" c then r else v)))) u
  end.

(** [url.pathname = v]: the path is emptied and [v] parsed from the path
    start state, where [?] and [#] are ordinary characters. *)
Definition set_pathname (v : string) (u : t) : t :=
  with_path (parse_path (remove_tab_newline v)) u.

(** [url.search = v] *)
Definition set_search (v : string) (u : t) : t :=
  match v with
  | EmptyString => with_query None u
  | String c r =>
      with_query
        (Some (percent_encode special_query_set
                 (remove_tab_newline (if is_char "?" c then r else v)))) u
  end.

(** *** [URLSearchParams] *)

Definition plus_to_space (s : string) : string :=
  smap (fun c => if is_char "+" c then " "%char else c) s.

Definition form_decode (s : string) : string := percent_decode (plus_to_space s).

Definition parse_pair (piece : string) : string * string :=
  (form_decode (fst (break (is_char "=") piece)),
   form_decode (match snd (break (is_char "=") piece) with
                | String _ v => v
                | EmptyString => EmptyString
                end)).

(** The [application/x-www-form-urlencoded] parser. *)
Definition urlencoded_parse (q : string) : list (string * string) :=
  map parse_pair (filter nonempty (split_by (is_char "&") q)).

Fixpoint form_encode (s : string) : string :=
  match s with
  | EmptyString => EmptyString
  | String c s' =>
      if is_char " " c then String "+" (form_encode s')
      else if urlencoded_set c then pct c ++ form_encode s'
      else String c (form_encode s')
  end.

Definition serialize_pair (e : string * string) : string :=
  (form_encode (fst e) ++ "=" ++ form_encode (snd e))%string.

(** [new URLSearchParams(entries).toString()] *)
Definition urlencoded_serialize (l : list (string * string)) : string :=
  join "&" (map serialize_pair l).

(** [Array.from(url.searchParams.entries())] *)
Definition searchParams (u : t) : list (string * string) :=
  urlencoded_parse (match query u with Some q => q | None => "" end).

(** [url.searchParams.has(name)] *)
Definition searchParams_has (u : t) (name : string) : bool :=
  existsb (fun e => String.eqb (fst e) name) (searchParams u).

End URL.

(* ===================================================================== *)
(** ** Regular expressions

    The patterns of the program use literals, character classes,
    alternation, [?], [*], [+], [{n,}], the anchors [^] and [$] and the word
    boundary [\b], and are only ever used through [RegExp.prototype.test]:
    whether some substring matches.  Matching is by continuation; the
    continuation of a star is entered again only after input was consumed. *)
(* ===================================================================== *)

Module Regex.

Import JsString.

Inductive re : Type :=
| Eps
| Chr (p : ascii -> bool)
| Cat (a b : re)
| Alt (a b : re)
| Star (a : re)
| Bol                        (* ^ *)
| Eol                        (* $ *)
| WordB.                     (* \b *)

Definition is_word_char (c : ascii) : bool := is_alnum c || is_char "_" c.

Definition word_at (o : option ascii) : bool :=
  match o with Some c => is_word_char c | None => false end.

Definition first_char (s : string) : option ascii :=
  match s with String c _ => Some c | EmptyString => None end.

Fixpoint rmatch (r : re) (prev : option ascii) (s : string)
         (k : option ascii -> string -> bool) {struct r} : bool :=
  match r with
  | Eps => k prev s
  | Chr p =>
      match s with
      | String c s' => p c && k (Some c) s'
      | EmptyString => false
      end
  | Cat a b => rmatch a prev s (fun prev' s' => rmatch b prev' s' k)
  | Alt a b => rmatch a prev s k || rmatch b prev s k
  | Star a =>
      (fix loop (fuel : nat) (prev : option ascii) (s : string) {struct fuel} : bool :=
         k prev s
         || match fuel with
            | O => false
            | S fuel' =>
                rmatch a prev s
                  (fun prev' s' =>
                     (String.length s' <? String.length s)%nat && loop fuel' prev' s')
            end) (String.length s) prev s
  | Bol => match prev with None => k prev s | Some _ => false end
  | Eol => match s with EmptyString => k prev s | String _ _ => false end
  | WordB => xorb (word_at prev) (word_at (first_char s)) && k prev s
  end.

Fixpoint search (r : re) (prev : option ascii) (s : string) : bool :=
  rmatch r prev s (fun _ _ => true)
  || match s with
     | String c s' => search r (Some c) s'
     | EmptyString => false
     end.

(** [pattern.test(s)] *)
Definition test (r : re) (s : string) : bool := search r None s.

(** Pattern constructors; literals are case-insensitive, as every pattern
    that contains a letter carries the [i] flag. *)
Definition chr_i (x : ascii) : re :=
  Chr (fun c => Ascii.eqb (lower_char c) (lower_char x)).

Fixpoint lit (s : string) : re :=
  match s with
  | EmptyString => Eps
  | String c s' => Cat (chr_i c) (lit s')
  end.

Fixpoint alts (l : list re) : re :=
  match l with
  | [] => Chr (fun _ => false)
  | [r] => r
  | r :: l' => Alt r (alts l')
  end.

Definition lits (l : list string) : re := alts (map lit l).
Definition opt (r : re) : re := Alt r Eps.
Definition plus (r : re) : re := Cat r (Star r).

Fixpoint at_least (n : nat) (r : re) : re :=
  match n with
  | O => Star r
  | S n' => Cat r (at_least n' r)
  end.

Fixpoint seq (l : list re) : re :=
  match l with
  | [] => Eps
  | r :: l' => Cat r (seq l')
  end.

Definition digit : re := Chr is_digit.                                   (* \d *)
Definition letter : re := Chr is_alpha.                                  (* [a-z] under i *)
Definition word_or_dash : re :=
  Chr (fun c => is_word_char c || is_char "-" c).                        (* [\w-] *)
(** [.]: any character but a line terminator.  Of the four line
    terminators of JavaScript, U+2028 and U+2029 are not ASCII and do not
    occur in a serialized URL. *)
Definition dot : re :=
  Chr (fun c => negb ((code c =? 10)%nat || (code c =? 13)%nat)).
Definition slash_or_end : re := Alt (lit "/") Eol.                      (* (\/|$) *)

End Regex.

(* ===================================================================== *)
(** ** [src/lib/urlUtils.ts] *)
(* ===================================================================== *)

Module UrlUtils.

Import JsString Regex.

Definition LANGUAGE_CODES : list string :=
  ["en"; "ar"; "fr"; "es"; "de"; "it"; "ru"; "zh"; "ja"; "ko"; "nl"; "pl";
   "pt"; "tr"; "vi"; "th"; "id"; "ms"; "hi"].

Definition removeLanguagePrefix (pathname : string) : string :=
  let parts := filter nonempty (split_by (is_char "/") pathname) in
  match parts with
  | p0 :: rest =>
      if mem (toLowerCase p0) LANGUAGE_CODES
      then ("/" ++ join "/" rest)%string
      else pathname
  | [] => pathname
  end.

(** The comparator [([a], [b]) => a.localeCompare(b)] is positive. *)
Definition key_gt (a b : string * string) : bool :=
  match localeCompare (fst a) (fst b) with Gt => true | _ => false end.

(** [normalizeUrl]; [None] stands for the [Error("Invalid URL: ...")] it
    throws when [new URL] does. *)
Definition normalizeUrl (urlString : string) : option string :=
  match URL.new_URL urlString with
  | None => None
  | Some url =>
      let url := URL.set_hash "" url in
      let url := URL.set_pathname (removeLanguagePrefix (URL.pathname url)) url in
      let url := URL.set_pathname (strip_trailing (is_char "/") (URL.pathname url)) url in
      let searchParams := sort_by key_gt (URL.searchParams url) in
      let url := URL.set_search (URL.urlencoded_serialize searchParams) url in
      Some (toLowerCase (URL.href url))
  end.

Definition isSameDomain (url1 url2 : string) : bool :=
  match URL.new_URL url1, URL.new_URL url2 with
  | Some u1, Some u2 => String.eqb (URL.hostname u1) (URL.hostname u2)
  | _, _ => false
  end.

Definition isValidUrl (url : string) : bool :=
  match URL.new_URL url with Some _ => true | None => false end.

Definition resourcePatterns : list re :=
  [ seq [lit ".";
         lits ["js"; "css"; "png"; "jpg"; "jpeg"; "gif"; "ico"; "svg"; "woff";
               "woff2"; "ttf"; "eot"; "map"; "webp"];
         opt (Cat (lit "?") (Star dot)); Eol];
    seq [lit "/"; lits ["static"; "assets"; "images"; "img"; "fonts"; "css"; "js"]; lit "/"];
    seq [lit "/_next/"; lits ["static"; "image"; "data"; "chunks"]];
    seq [lit "."; lits ["br"; "gz"; "zip"; "rar"; "7z"; "tar"; "bz2"]; Eol];
    seq [lit "/"; lits ["cdn-cgi"; "__webpack"; "webpack"]; lit "/"];
    seq [lit "?"; lits ["q="; "w="; "h="; "quality="; "size="; "width="; "height="]] ].

Definition isResourceUrl (url : string) : bool :=
  existsb (fun pattern => test pattern url) resourcePatterns.

Inductive UrlKind : Type := KProduct | KListing | KOther.

Record UrlType : Type := { isLikely : bool; type : UrlKind }.

(** The accented terms, as the bytes of their UTF-8 encoding.  They are
    matched against percent-encoded, hence ASCII, text. *)
Definition e_acute : string := String (ascii_of_nat 195) (String (ascii_of_nat 169) "").

Definition PRODUCT_TERMS : list string :=
  ["product"; "item"; "sku"; "prod"; "buy"; "detail"; "purchase"; "shop";
   "produit"; "article"; "achat"; "d" ++ e_acute ++ "tail"; "acheter"; "boutique";
   "muntaj"; "sila"; "mahsul"; "shira"; "taswiq"]%string.

Definition LISTING_TERMS : list string :=
  ["category"; "categories"; "collection"; "shop"; "catalog"; "department";
   "brand"; "search"; "browse"; "all"; "sale"; "new";
   "cat" ++ e_acute ++ "gorie"; "cat" ++ e_acute ++ "gories"; "collection";
   "magasin"; "catalogue"; "d" ++ e_acute ++ "partement"; "marque"; "recherche";
   "nouveaut" ++ e_acute ++ "s"; "promotion";
   "qism"; "majmua"; "mutjar"; "tasnif"; "almarqa"; "bahth"]%string.

Definition UTILITY_TERMS : list string :=
  ["login"; "signup"; "account"; "cart"; "checkout"; "wishlist"; "track";
   "connexion"; "compte"; "panier"; "paiement"; "suivi";
   "dakhil"; "hisab"; "sabat"; "tawid"].

Definition PRODUCT_PATTERNS : list re :=
  [ lits ["/p/"; "/pro/"; "/prod/"; "/item/"; "/sku/"];
    seq [lit "/"; plus word_or_dash; lit "-"; plus digit; opt letter; slash_or_end];
    seq [Chr (fun c => is_char "&" c || is_char "?" c);
         lits ["pid"; "product_id"; "itemcode"]; lit "="];
    lits ["_p_"; "_prod_"; "_item_"];
    seq [lit "/"; lits PRODUCT_TERMS; WordB];
    seq [lit "-"; lits PRODUCT_TERMS; lit "-"];
    seq [lit "/"; at_least 6 digit] ].

Definition LISTING_PATTERNS : list re :=
  [ lits ["/c/"; "/cat/"; "/col/"; "/browse/"];
    seq [Chr (fun c => is_char "&" c || is_char "?" c);
         lits ["page"; "offset"; "sort"; "filter"]; lit "="];
    seq [lit "/"; plus word_or_dash; lit "/"; plus word_or_dash; slash_or_end];
    seq [lit "/"; lits LISTING_TERMS; WordB];
    seq [lit "-"; lits LISTING_TERMS; lit "-"];
    seq [lit "/"; plus digit; lit "-"; plus digit; slash_or_end] ].

Definition productIndicators : list re :=
  [ at_least 6 digit;
    seq [at_least 2 letter; at_least 4 digit; opt letter];
    lits ["_prod_"; "_item_"];
    seq [lit "-p-"; plus digit] ].

Definition listingIndicators : list re :=
  [ seq [Bol; lit "pg-"; plus digit];
    seq [lit "-c-"; plus digit];
    lit "-cat-";
    seq [lit "/all"; slash_or_end] ].

Definition some_test (patterns : list re) (s : string) : bool :=
  existsb (fun pattern => test pattern s) patterns.

(** [isLikelyProductOrListingUrl]: the function is [async] but awaits
    nothing, so its promise resolves to a value computed from [url] alone. *)
Definition isLikelyProductOrListingUrl (url : string) : UrlType :=
  match URL.new_URL url with
  | None => {| isLikely := false; type := KOther |}
  | Some parsedUrl =>
      let pathAndQuery := (URL.pathname parsedUrl ++ URL.search parsedUrl)%string in
      let cleanUrl := toLowerCase pathAndQuery in
      if isResourceUrl url then {| isLikely := false; type := KOther |}
      else if some_test PRODUCT_PATTERNS cleanUrl then {| isLikely := true; type := KProduct |}
      else if some_test LISTING_PATTERNS cleanUrl then {| isLikely := true; type := KListing |}
      else
        let hasProductParams :=
          existsb (URL.searchParams_has parsedUrl) ["sku"; "product_id"; "itemid"] in
        let hasListingParams :=
          existsb (URL.searchParams_has parsedUrl) ["category_id"; "collection_id"; "page"] in
        if hasProductParams then {| isLikely := true; type := KProduct |}
        else if hasListingParams then {| isLikely := true; type := KListing |}
        else
          let segments := filter nonempty (split_by (is_char "/") (URL.pathname parsedUrl)) in
          let lastSegment := last segments "" in
          if some_test productIndicators lastSegment then {| isLikely := true; type := KProduct |}
          else if some_test listingIndicators lastSegment then {| isLikely := true; type := KListing |}
          else
            let langCodes := ["en"; "fr"; "ar"; "es"; "de"] in
            let isLocalizedPath :=
              match segments with
              | s0 :: _ => mem s0 langCodes
              | [] => false
              end in
            let contentSegments := if isLocalizedPath then tl segments else segments in
            let pathString := join "/" contentSegments in
            if (2 <=? List.length contentSegments)%nat && test (lits PRODUCT_TERMS) pathString
            then {| isLikely := true; type := KProduct |}
            else if (2 <=? List.length contentSegments)%nat && test (lits LISTING_TERMS) pathString
            then {| isLikely := true; type := KListing |}
            else if test (lits UTILITY_TERMS) cleanUrl
            then {| isLikely := false; type := KOther |}
            else {| isLikely := false; type := KOther |}
  end.

End UrlUtils.

(* ===================================================================== *)
(** ** What the two crawlers share: data, the renderer and the classifier *)
(* ===================================================================== *)

Module Crawl.

Import JsString UrlUtils.

Record ProductData : Type := {
  name : string;
  price : string;
  description : string;
  url : string;
  imageUrl : option string
}.

Record CrawlResult : Type := {
  products : list ProductData;
  visitedUrls : list string;
  error : option string
}.

(** [PageAnalysis] as the interface declares it: an absent link field is
    [None]; [pageType] is the string the classifier answered. *)
Record PageAnalysis : Type := {
  pageType : string;
  product : option ProductData;
  productLinks : option (list string);
  paginationLinks : option (list string);
  categoryLinks : option (list string);
  otherRelevantLinks : option (list string)
}.

(** A thrown value: an [Error] with its message, or anything else. *)
Inductive Thrown : Type :=
| ErrorObject (message : string)
| OtherValue.

Inductive Completion (A : Type) : Type :=
| Return (a : A)
| Throw (e : Thrown).
Arguments Return {A} a.
Arguments Throw {A} e.

(** Calls that leave the process. *)
Inductive Event : Type :=
| Fetch (url : string)       (* [fetchPage(url)]: a navigation of the renderer *)
| Analyze (url : string).    (* [analyzePageWithGemini(html, url, links)] *)

(** What a navigation of the headless browser ends in: an exception (time
    out, network error, missing body), a 404 response, or a document with
    the URL of the response ([""] when there is none), its markup and the
    [href] of each of its anchors. *)
Inductive Navigation : Type :=
| NavThrows (e : Thrown)
| Nav404
| NavOk (responseUrl html : string) (hrefs : list string).

(** The environment of a run.  The answers of the renderer and of the
    classifier may depend on everything that was called before.
    [analyzePageWithGemini] catches every exception of its own and always
    resolves to a [PageAnalysis], which [classify] gives.  [resume] chooses
    which of [n] suspended tasks of a batch continues next.  [launch]
    is how starting the browser in [initBrowser()] ends; when it fails,
    [browser] stays [null].  [shutdown] is what closing the pooled pages
    and the browser ends in, after the calls made so far: the [finally]
    block awaits [page.close()] for every page of the pool and then
    [browser.close()], and any of them may reject. *)
Record World : Type := {
  launch : option Thrown;     (* [Some e]: [initBrowser()] rejects with [e] *)
  navigate : list Event -> string -> Navigation;
  classify : list Event -> string -> string -> list string -> PageAnalysis;
  resume : list Event -> nat -> nat;
  shutdown : list Event -> option Thrown   (* [Some e]: a [close()] rejects with [e] *)
}.

(** A JavaScript [Set] of strings iterates in insertion order. *)
Definition Set_has (s : list string) (x : string) : bool := mem x s.
Definition Set_add (x : string) (s : list string) : list string :=
  if Set_has s x then s else s ++ [x].

Definition getBaseDomain (url : string) : string :=
  match URL.new_URL url with
  | Some parsedUrl => URL.hostname parsedUrl
  | None => ""
  end.

Record PageResult : Type := {
  html : string;
  links : list string;
  baseUrl : string
}.

(** [fetchPage]: [null] on a 404, otherwise the markup, the anchors that
    are not empty and not [javascript:] links, and the normalized URL of
    the response. *)
Definition fetchPage (w : World) (history : list Event) (url : string)
  : Completion (option PageResult) :=
  match navigate w history url with
  | NavThrows e => Throw e
  | Nav404 => Return None
  | NavOk responseUrl html hrefs =>
      match normalizeUrl (if nonempty responseUrl then responseUrl else url) with
      | None =>
          Throw (ErrorObject ("Invalid URL: "
                                ++ (if nonempty responseUrl then responseUrl else url)))
      | Some finalUrl =>
          Return (Some {| html := html;
                          links := filter (fun href => nonempty href
                                             && negb (starts_with "javascript:" href)) hrefs;
                          baseUrl := finalUrl |})
      end
  end.

(** [normalizeUrl(new URL(link, baseUrl).href)], [None] when it throws. *)
Definition resolve (baseUrl link : string) : option string :=
  match URL.new_URL_base link baseUrl with
  | Some u => normalizeUrl (URL.href u)
  | None => None
  end.

(** [.filter(x => x !== null)] *)
Definition non_null {A : Type} (l : list (option A)) : list A :=
  flat_map (fun o => match o with Some x => [x] | None => [] end) l.

Definition or_empty (o : option (list string)) : list string :=
  match o with Some l => l | None => [] end.

Definition with_url (u : string) (p : ProductData) : ProductData :=
  {| name := name p; price := price p; description := description p;
     url := u; imageUrl := imageUrl p |}.

(** [deduplicateProducts]: a [Map] keyed by URL that is only written for
    keys it does not hold yet, read back in insertion order. *)
Definition deduplicateProducts (products : list ProductData) : list ProductData :=
  fold_left
    (fun uniqueProducts product =>
       if existsb (fun q => String.eqb (url q) (url product)) uniqueProducts
       then uniqueProducts
       else uniqueProducts ++ [product])
    products [].

(** A [while (guard) body] loop, run for at most [fuel] iterations. *)
Fixpoint iterate {S : Type} (guard : S -> bool) (body : S -> S) (fuel : nat) (st : S) : S :=
  match fuel with
  | O => st
  | S fuel' => if guard st then iterate guard body fuel' (body st) else st
  end.

(** The loop as a relation: the states in which it can end. *)
Inductive while_run {S : Type} (guard : S -> bool) (body : S -> S) : S -> S -> Prop :=
| while_exit st : guard st = false -> while_run guard body st st
| while_iter st st' :
    guard st = true -> while_run guard body (body st) st' -> while_run guard body st st'.

(** The states at the head of the loop that a run from [st0] passes. *)
Inductive reachable {S : Type} (guard : S -> bool) (body : S -> S) (st0 : S) : S -> Prop :=
| reach_start : reachable guard body st0 st0
| reach_iter st :
    reachable guard body st0 st -> guard st = true -> reachable guard body st0 (body st).

(** Enough iterations for the loops below: twice the room left in the
    page budget plus the length of the queue. *)
Definition enough (maxPages : Z) (visited pending : nat) : nat :=
  if (Z.of_nat visited <? maxPages)%Z
  then 2 * Z.to_nat (maxPages - Z.of_nat visited) + pending
  else 0.

End Crawl.

(* ===================================================================== *)
(** ** The page pool of [crawler.ts]

    The module keeps one browser and an array of idle pages for all the
    calls of [crawlWebsite] that a process serves.  The model records what
    the code asks of the browser library, whose calls are taken to succeed:
    which pages were created, which are in the pool, and on which
    [close()] was called. *)
(* ===================================================================== *)

Module PagePool.

(** A page, by the order in which [newPage] created it. *)
Definition Page : Type := nat.

Record Process : Type := {
  browser : option nat;       (* [browser]: [null], or the n-th browser launched *)
  pagePool : list Page;       (* the array, first element first *)
  launches : nat;             (* browsers launched so far *)
  pages : nat;                (* pages created so far *)
  closed : list Page          (* the pages on which [close()] was called *)
}.

Definition MAX_CONCURRENT_PAGES : nat := 3.

(** The state in which the module is loaded. *)
Definition fresh : Process :=
  {| browser := None; pagePool := []; launches := 0; pages := 0; closed := [] |}.

(** [await browser.newPage()] *)
Definition newPage (st : Process) : Page * Process :=
  (pages st,
   {| browser := browser st; pagePool := pagePool st; launches := launches st;
      pages := S (pages st); closed := closed st |}).

(** [pagePool.push(page)] *)
Definition push (page : Page) (st : Process) : Process :=
  {| browser := browser st; pagePool := pagePool st ++ [page]; launches := launches st;
     pages := pages st; closed := closed st |}.

(** [await page.close()] *)
Definition close (page : Page) (st : Process) : Process :=
  {| browser := browser st; pagePool := pagePool st; launches := launches st;
     pages := pages st; closed := closed st ++ [page] |}.

(** [for (let i = 0; i < n; i++) pagePool.push(await browser.newPage())] *)
Fixpoint fill (n : nat) (st : Process) : Process :=
  match n with
  | O => st
  | S n' => fill n' (push (fst (newPage st)) (snd (newPage st)))
  end.

Definition initBrowser (st : Process) : Process :=
  match browser st with
  | Some _ => st
  | None =>
      fill MAX_CONCURRENT_PAGES
           {| browser := Some (launches st); pagePool := pagePool st;
              launches := S (launches st); pages := pages st; closed := closed st |}
  end.

Definition getPage (st : Process) : Page * Process :=
  match pagePool st with
  | [] => newPage st
  | _ :: _ =>
      (last (pagePool st) 0,
       {| browser := browser st; pagePool := removelast (pagePool st);
          launches := launches st; pages := pages st; closed := closed st |})
  end.

Definition releasePage (page : Page) (st : Process) : Process :=
  if (List.length (pagePool st) <? MAX_CONCURRENT_PAGES)%nat
  then push page st
  else close page st.

(** The [finally] block of [crawlWebsite], which the batched version
    names [cleanup]: the pages of the pool are closed, the browser is
    closed, [browser] is reset; [pagePool] is left as it is. *)
Definition cleanup (st : Process) : Process :=
  match browser st with
  | Some _ =>
      let st := fold_left (fun st page => close page st) (pagePool st) st in
      {| browser := None; pagePool := pagePool st; launches := launches st;
         pages := pages st; closed := closed st |}
  | None => st
  end.

(** What a call of [fetchPage] does to the pool when no other call is
    under way: [getPage()], then [releasePage(page)] in its [finally]. *)
Definition fetch_cycle (st : Process) : Process :=
  releasePage (fst (getPage st)) (snd (getPage st)).

End PagePool.

(* ===================================================================== *)
(** ** [src/lib/crawler.ts]: the sequential crawler *)
(* ===================================================================== *)

Module Crawler.

Import JsString UrlUtils Crawl.

Record State : Type := {
  visited : list string;              (* [visitedUrls], a [Set] *)
  pendingUrls : list string;
  found : list ProductData;           (* [products] *)
  seenProductUrls : list string;      (* a [Set] *)
  history : list Event
}.

Definition set_pending (p : list string) (st : State) : State :=
  {| visited := visited st; pendingUrls := p; found := found st;
     seenProductUrls := seenProductUrls st; history := history st |}.

Definition record (e : Event) (st : State) : State :=
  {| visited := visited st; pendingUrls := pendingUrls st; found := found st;
     seenProductUrls := seenProductUrls st; history := history st ++ [e] |}.

(** The callback of [links.map] before the analysis. *)
Definition likely_link (baseUrl baseDomain link : string) : option string :=
  match resolve baseUrl link with
  | None => None
  | Some normalizedLink =>
      if isResourceUrl normalizedLink then None
      else if negb (String.eqb (getBaseDomain normalizedLink) baseDomain) then None
      else if isLikely (isLikelyProductOrListingUrl normalizedLink)
           then Some normalizedLink else None
  end.

(** The callback of the [map] over the classified links. *)
Definition same_domain_link (baseUrl baseDomain link : string) : option string :=
  match resolve baseUrl link with
  | None => None
  | Some normalizedLink =>
      if String.eqb (getBaseDomain normalizedLink) baseDomain
      then Some normalizedLink else None
  end.

Definition allRelevantLinks (baseUrl baseDomain : string) (visitedUrls : list string)
           (pageAnalysis : PageAnalysis) : list string :=
  filter (fun link => negb (Set_has visitedUrls link))
    (non_null
       (map (same_domain_link baseUrl baseDomain)
          (or_empty (productLinks pageAnalysis)
             ++ or_empty (paginationLinks pageAnalysis)
             ++ or_empty (categoryLinks pageAnalysis)
             ++ or_empty (otherRelevantLinks pageAnalysis)))).

(** One turn of [for (const link of allRelevantLinks)]. *)
Definition enqueue (st : State) (link : string) : State :=
  if Set_has (visited st) link then st
  else {| visited := visited st ++ [link]; pendingUrls := pendingUrls st ++ [link];
          found := found st; seenProductUrls := seenProductUrls st;
          history := history st |}.

(** The product branch; [None] when [normalizeUrl(currentUrl)] throws,
    which happens before anything is written. *)
Definition keep_product (currentUrl : string) (pageAnalysis : PageAnalysis) (st : State)
  : option State :=
  match product pageAnalysis with
  | Some p =>
      if String.eqb (pageType pageAnalysis) "product" then
        match normalizeUrl currentUrl with
        | None => None
        | Some normalizedProductUrl =>
            if Set_has (seenProductUrls st) normalizedProductUrl then Some st
            else Some {| visited := visited st; pendingUrls := pendingUrls st;
                         found := found st ++ [with_url normalizedProductUrl p];
                         seenProductUrls := seenProductUrls st ++ [normalizedProductUrl];
                         history := history st |}
        end
      else Some st
  | None => Some st
  end.

(** The inner [try { ... } catch (error) { console.error(...) }]. *)
Definition process (w : World) (baseDomain currentUrl : string) (st : State) : State :=
  match fetchPage w (history st) currentUrl with
  | Throw _ => record (Fetch currentUrl) st
  | Return None => record (Fetch currentUrl) st
  | Return (Some pageResult) =>
      let st1 := record (Fetch currentUrl) st in
      let normalizedLinks :=
        map (likely_link (baseUrl pageResult) baseDomain) (links pageResult) in
      let filteredLinks :=
        filter (fun link => negb (Set_has (visited st1) link)
                            && negb (String.eqb link currentUrl))
               (non_null normalizedLinks) in
      let pageAnalysis :=
        classify w (history st1) (html pageResult) currentUrl filteredLinks in
      let st2 := record (Analyze currentUrl) st1 in
      match keep_product currentUrl pageAnalysis st2 with
      | None => st2
      | Some st3 =>
          fold_left enqueue
            (allRelevantLinks (baseUrl pageResult) baseDomain (visited st3) pageAnalysis)
            st3
      end
  end.

(** The body of the [while] loop. *)
Definition iteration (w : World) (baseDomain normalizedStartUrl : string) (st : State)
  : State :=
  match pendingUrls st with
  | [] => st
  | currentUrl :: rest =>
      let st := set_pending rest st in
      if negb (nonempty currentUrl) then st
      else if isResourceUrl currentUrl then st
      else if negb (isLikely (isLikelyProductOrListingUrl currentUrl))
              && negb (String.eqb normalizedStartUrl currentUrl) then st
      else process w baseDomain currentUrl st
  end.

(** [pendingUrls.length > 0 && visitedUrls.size < maxPages] *)
Definition continue (maxPages : Z) (st : State) : bool :=
  (0 <? List.length (pendingUrls st))%nat
  && (Z.of_nat (List.length (visited st)) <? maxPages)%Z.

Definition initial (normalizedStartUrl : string) : State :=
  {| visited := [normalizedStartUrl]; pendingUrls := [normalizedStartUrl];
     found := []; seenProductUrls := []; history := [] |}.

Definition crawl_loop (w : World) (baseDomain normalizedStartUrl : string)
           (maxPages : Z) (st : State) : State :=
  iterate (continue maxPages) (iteration w baseDomain normalizedStartUrl)
          (enough maxPages (List.length (visited st)) (List.length (pendingUrls st))) st.

(** The [finally] block once the browser was launched: it closes the
    pages of the pool and the browser; an exception thrown there replaces
    the completion of the [try] block. *)
Definition finally (w : World) (h : list Event) (completion : Completion CrawlResult)
  : Completion CrawlResult :=
  match shutdown w h with
  | Some e => Throw e
  | None => completion
  end.

(** [crawlWebsite]: what the promise settles to, and the calls made.
    When the browser cannot be started, [browser] is still [null] and the
    [finally] block does nothing. *)
Definition crawlWebsite (w : World) (startUrl : string) (maxPages : Z)
  : Completion CrawlResult * list Event :=
  if negb (isValidUrl startUrl) then
    (Return {| products := []; visitedUrls := []; error := Some "Invalid start URL" |}, [])
  else
    let baseDomain := getBaseDomain startUrl in
    match normalizeUrl startUrl with
    | None => (Throw (ErrorObject ("Invalid URL: " ++ startUrl)), [])
    | Some normalizedStartUrl =>
        match launch w with
        | Some e => (Throw e, [])
        | None =>
            let st := crawl_loop w baseDomain normalizedStartUrl maxPages
                                 (initial normalizedStartUrl) in
            (finally w (history st)
                     (Return {| products := deduplicateProducts (found st);
                                visitedUrls := visited st;
                                error := None |}),
             history st)
        end
    end.

End Crawler.

(* ===================================================================== *)
(** ** The batched crawler with a prioritised queue

    The second version of [crawler.ts] in the repository.  All tasks of a
    batch are started at once: [chunk(...).map(async ...)] creates the
    promises of every chunk before any is awaited.  A task runs up to its
    first [await] when it is created, which issues its navigation; what
    follows the awaits runs to completion when the task is resumed, in an
    order the environment chooses. *)
(* ===================================================================== *)

Module PendingUrl.

Record t : Type := { url : string; priority : Z }.

End PendingUrl.

Module BatchCrawler.

Import JsString UrlUtils Crawl.

Definition CONCURRENT_CRAWLS : nat := 3.
Definition BATCH_SIZE : nat := 5.

Record State : Type := {
  visited : list string;                       (* [visitedUrls], a [Set] *)
  pendingUrls : list PendingUrl.t;
  found : list ProductData;                    (* [products] *)
  seenProductUrls : list string;               (* a [Set] *)
  urlCache : list (string * PageAnalysis);     (* a [Map], latest binding first *)
  history : list Event
}.

Definition set_pending (p : list PendingUrl.t) (st : State) : State :=
  {| visited := visited st; pendingUrls := p; found := found st;
     seenProductUrls := seenProductUrls st; urlCache := urlCache st;
     history := history st |}.

Definition record (e : Event) (st : State) : State :=
  {| visited := visited st; pendingUrls := pendingUrls st; found := found st;
     seenProductUrls := seenProductUrls st; urlCache := urlCache st;
     history := history st ++ [e] |}.

Definition cache_get (cache : list (string * PageAnalysis)) (u : string)
  : option PageAnalysis :=
  match find (fun b => String.eqb (fst b) u) cache with
  | Some b => Some (snd b)
  | None => None
  end.

Definition cache_set (u : string) (a : PageAnalysis) (st : State) : State :=
  {| visited := visited st; pendingUrls := pendingUrls st; found := found st;
     seenProductUrls := seenProductUrls st; urlCache := (u, a) :: urlCache st;
     history := history st |}.

(** [chunk]: [Math.ceil(array.length / size)] slices of [size] elements. *)
Definition chunk {T : Type} (array : list T) (size : nat) : list (list T) :=
  map (fun i => firstn size (skipn (i * size) array))
      (List.seq 0 ((List.length array + size - 1) / size)).

(** [processUrl] inside [processNewUrls], with [newUrls] made explicit. *)
Definition processUrl (baseUrl baseDomain : string) (visitedUrls : list string)
           (priority : Z) (newUrls : list PendingUrl.t) (url : string)
  : list PendingUrl.t :=
  match resolve baseUrl url with
  | Some normalizedLink =>
      if String.eqb (getBaseDomain normalizedLink) baseDomain
         && negb (Set_has visitedUrls normalizedLink)
      then newUrls ++ [{| PendingUrl.url := normalizedLink; PendingUrl.priority := priority |}]
      else newUrls
  | None => newUrls
  end.

(** [field?.forEach(f)] *)
Definition forEach {A : Type} (field : option (list string)) (f : A -> string -> A) (acc : A) : A :=
  match field with
  | Some l => fold_left f l acc
  | None => acc
  end.

Definition processNewUrls (links : list string) (baseUrl baseDomain : string)
           (visitedUrls : list string) (pageAnalysis : PageAnalysis)
  : list PendingUrl.t :=
  let newUrls := [] in
  let newUrls := forEach (productLinks pageAnalysis)
                   (processUrl baseUrl baseDomain visitedUrls 3) newUrls in
  let newUrls := forEach (paginationLinks pageAnalysis)
                   (processUrl baseUrl baseDomain visitedUrls 2) newUrls in
  let newUrls := forEach (categoryLinks pageAnalysis)
                   (processUrl baseUrl baseDomain visitedUrls 2) newUrls in
  let newUrls := forEach (otherRelevantLinks pageAnalysis)
                   (processUrl baseUrl baseDomain visitedUrls 1) newUrls in
  newUrls.

(** One turn of [newUrls.forEach]. *)
Definition enqueue (st : State) (newUrl : PendingUrl.t) : State :=
  if Set_has (visited st) (PendingUrl.url newUrl) then st
  else {| visited := visited st ++ [PendingUrl.url newUrl];
          pendingUrls := pendingUrls st ++ [newUrl];
          found := found st; seenProductUrls := seenProductUrls st;
          urlCache := urlCache st; history := history st |}.

Definition keep_product (url : string) (pageAnalysis : PageAnalysis) (st : State)
  : option State :=
  match product pageAnalysis with
  | Some p =>
      if String.eqb (pageType pageAnalysis) "product" then
        match normalizeUrl url with
        | None => None
        | Some normalizedProductUrl =>
            if Set_has (seenProductUrls st) normalizedProductUrl then Some st
            else Some {| visited := visited st; pendingUrls := pendingUrls st;
                         found := found st ++ [with_url normalizedProductUrl p];
                         seenProductUrls := seenProductUrls st ++ [normalizedProductUrl];
                         urlCache := urlCache st; history := history st |}
        end
      else Some st
  | None => Some st
  end.

(** A task that was started: its URL and how its navigation ends. *)
Definition Task : Type := (string * Completion (option PageResult))%type.

(** The part of a task up to its first [await]. *)
Definition start (w : World) (acc : State * list Task) (p : PendingUrl.t)
  : State * list Task :=
  let url := PendingUrl.url p in
  if isResourceUrl url then acc
  else (record (Fetch url) (fst acc),
        snd acc ++ [(url, fetchPage w (history (fst acc)) url)]).

(** The part of a task after [await fetchPage(url)], inside its [try]. *)
Definition finish (w : World) (baseDomain : string) (task : Task) (st : State) : State :=
  match snd task with
  | Throw _ => st
  | Return None => st
  | Return (Some pageResult) =>
      let url := fst task in
      let analysed :=
        match cache_get (urlCache st) url with
        | Some pageAnalysis => (pageAnalysis, st)
        | None =>
            let pageAnalysis :=
              classify w (history st) (html pageResult) url (links pageResult) in
            (pageAnalysis, cache_set url pageAnalysis (record (Analyze url) st))
        end in
      let pageAnalysis := fst analysed in
      match keep_product url pageAnalysis (snd analysed) with
      | None => snd analysed
      | Some st2 =>
          fold_left enqueue
            (processNewUrls (links pageResult) (baseUrl pageResult) baseDomain
                            (visited st2) pageAnalysis)
            st2
      end
  end.

(** The tasks of a batch finish one after the other, each time the one
    the environment names among those still suspended. *)
Fixpoint settle (w : World) (baseDomain : string) (n : nat) (tasks : list Task)
         (st : State) : State :=
  match n with
  | O => st
  | S n' =>
      let i := (resume w (history st) (List.length tasks)) mod (List.length tasks) in
      match nth_error tasks i with
      | Some task =>
          settle w baseDomain n' (firstn i tasks ++ skipn (S i) tasks)
                 (finish w baseDomain task st)
      | None => st
      end
  end.

(** The comparator [(a, b) => b.priority - a.priority] is positive. *)
Definition priority_gt (a b : PendingUrl.t) : bool :=
  (PendingUrl.priority a <? PendingUrl.priority b)%Z.

(** The body of the [while] loop. *)
Definition iteration (w : World) (baseDomain : string) (st : State) : State :=
  let sorted := sort_by priority_gt (pendingUrls st) in
  let currentBatch := firstn BATCH_SIZE sorted in
  let st := set_pending (skipn BATCH_SIZE sorted) st in
  let started :=
    fold_left (start w) (List.concat (chunk currentBatch CONCURRENT_CRAWLS)) (st, []) in
  settle w baseDomain (List.length (snd started)) (snd started) (fst started).

Definition continue (maxPages : Z) (st : State) : bool :=
  (0 <? List.length (pendingUrls st))%nat
  && (Z.of_nat (List.length (visited st)) <? maxPages)%Z.

Definition initial (normalizedStartUrl : string) : State :=
  {| visited := [normalizedStartUrl];
     pendingUrls := [{| PendingUrl.url := normalizedStartUrl; PendingUrl.priority := 1 |}];
     found := []; seenProductUrls := []; urlCache := []; history := [] |}.

Definition crawl_loop (w : World) (baseDomain : string) (maxPages : Z) (st : State)
  : State :=
  iterate (continue maxPages) (iteration w baseDomain)
          (enough maxPages (List.length (visited st)) (List.length (pendingUrls st))) st.

(** [cleanup()], awaited in the [finally] block, once the browser was
    launched: it closes the pages of the pool and the browser; an
    exception thrown there replaces the completion of the [try] block. *)
Definition cleanup (w : World) (h : list Event) (completion : Completion CrawlResult)
  : Completion CrawlResult :=
  match shutdown w h with
  | Some e => Throw e
  | None => completion
  end.

(** [crawlWebsite].  When the browser cannot be started, [browser] is
    still [null] and [cleanup()] does nothing. *)
Definition crawlWebsite (w : World) (startUrl : string) (maxPages : Z)
  : Completion CrawlResult * list Event :=
  if negb (isValidUrl startUrl) then
    (Return {| products := []; visitedUrls := []; error := Some "Invalid start URL" |}, [])
  else
    let baseDomain := getBaseDomain startUrl in
    match normalizeUrl startUrl with
    | None => (Throw (ErrorObject ("Invalid URL: " ++ startUrl)), [])
    | Some normalizedStartUrl =>
        match launch w with
        | Some e => (Throw e, [])
        | None =>
            let st := crawl_loop w baseDomain maxPages (initial normalizedStartUrl) in
            (cleanup w (history st)
                     (Return {| products := deduplicateProducts (found st);
                                visitedUrls := visited st;
                                error := None |}),
             history st)
        end
    end.

End BatchCrawler.

(* ===================================================================== *)
(** ** The HTTP entry point: [POST /api/crawl] *)
(* ===================================================================== *)

Module Server.

Import JsString Crawl.

(** The fields read from the JSON body; [None] when missing. *)
Record Request : Type := { url : option string; maxPages : option Z }.

Inductive Body : Type :=
| ErrorBody (error : string)
| ResultBody (result : CrawlResult).

Record Response : Type := { status : nat; body : Body }.

Definition handler (w : World) (req : Request) : Response :=
  match url req with
  | None | Some EmptyString => {| status := 400; body := ErrorBody "URL is required" |}
  | Some u =>
      let budget :=
        match maxPages req with
        | Some 0%Z | None => 1000%Z
        | Some n => n
        end in
      match fst (Crawler.crawlWebsite w u budget) with
      | Return result => {| status := 200; body := ResultBody result |}
      | Throw (ErrorObject message) => {| status := 500; body := ErrorBody message |}
      | Throw OtherValue => {| status := 500; body := ErrorBody "Failed to crawl website" |}
      end
  end.

End Server.

(* ===================================================================== *)
(** * Vocabulary of the properties *)
(* ===================================================================== *)

Import JsString UrlUtils Crawl.

(** ** A small shop, to run the crawlers on *)

Module Scenario.

Definition widget : ProductData :=
  {| name := "Widget"; price := "9.99"; description := "A widget";
     url := ""; imageUrl := None |}.

(** The start page lists three products, a link to another host and a
    link to an ordinary page of the shop. *)
Definition listing : PageAnalysis :=
  {| pageType := "listing"; product := None;
     productLinks := Some ["/p/1"; "/p/2"; "/p/3"];
     paginationLinks := Some [];
     categoryLinks := Some [];
     otherRelevantLinks := Some ["https://other.example.com/deal"; "/about"] |}.

Definition product_page : PageAnalysis :=
  {| pageType := "product"; product := Some widget;
     productLinks := Some []; paginationLinks := Some [];
     categoryLinks := Some []; otherRelevantLinks := Some [] |}.

Definition start_url : string := "https://shop.example.com".

Definition shop : World :=
  {| launch := None;
     navigate := fun _ u => NavOk u "<html></html>" [];
     classify := fun _ _ u _ =>
                   if String.eqb u "https://shop.example.com/" then listing
                   else product_page;
     resume := fun _ _ => 0;
     shutdown := fun _ => None |}.

(** A site whose start page only links to an ordinary page of its own. *)
Definition brochure : World :=
  {| launch := None;
     navigate := fun _ u => NavOk u "<html></html>" [];
     classify := fun _ _ _ _ =>
                   {| pageType := "other"; product := None; productLinks := None;
                      paginationLinks := None; categoryLinks := None;
                      otherRelevantLinks := Some ["/about"] |};
     resume := fun _ _ => 0;
     shutdown := fun _ => None |}.

(** The same shop when the browser cannot be started. *)
Definition no_browser : World :=
  {| launch := Some (ErrorObject "Failed to launch the browser process");
     navigate := navigate shop; classify := classify shop; resume := resume shop;
     shutdown := shutdown shop |}.

End Scenario.

(** ** Products, histories, sorted lists *)

Module Spec.

Definition dedup_step (uniqueProducts : list ProductData) (product : ProductData) :=
  if existsb (fun q => String.eqb (url q) (url product)) uniqueProducts
  then uniqueProducts else uniqueProducts ++ [product].

Definition by_url (u : string) (p : ProductData) : bool := String.eqb (url p) u.

Definition is_fetch (e : Event) : bool :=
  match e with Fetch _ => true | Analyze _ => false end.

(** The number of navigations a history holds. *)
Definition fetches (h : list Event) : nat := List.length (filter is_fetch h).

(** Neighbours in order: the comparator is not positive on them. *)
Fixpoint ordered {A : Type} (gt : A -> A -> bool) (l : list A) : Prop :=
  match l with
  | [] => True
  | x :: l' => match l' with [] => True | y :: _ => gt x y = false end /\ ordered gt l'
  end.

(** A classified link of [field] that [processNewUrls] keeps as [e]. *)
Definition kept_from (field : option (list string)) (baseUrl baseDomain : string)
           (visitedUrls : list string) (e : PendingUrl.t) : Prop :=
  getBaseDomain (PendingUrl.url e) = baseDomain
  /\ ~ In (PendingUrl.url e) visitedUrls
  /\ exists link, In link (or_empty field) /\ resolve baseUrl link = Some (PendingUrl.url e).

End Spec.

Import Spec.

(** ** States of the sequential crawler *)

Module SeqSpec.

Import Crawler.

(** The links of the page of [currentUrl] that are handed to the
    classifier with it, when [currentUrl] is taken from the head of the
    queue of [st]. *)
Definition filteredLinks (baseDomain currentUrl : string) (pageResult : PageResult)
           (st : State) : list string :=
  filter (fun link => negb (Set_has (visited st) link)
                      && negb (String.eqb link currentUrl))
         (non_null (map (likely_link (baseUrl pageResult) baseDomain) (links pageResult))).

(** What the classifier answers to that call, made after the navigation
    to [currentUrl]. *)
Definition pageAnalysis (w : World) (baseDomain currentUrl : string)
           (pageResult : PageResult) (st : State) : PageAnalysis :=
  classify w (history st ++ [Fetch currentUrl]) (html pageResult) currentUrl
           (filteredLinks baseDomain currentUrl pageResult st).

(** The links that an answer of the classifier reports, of all four
    kinds. *)
Definition reported_links (pa : PageAnalysis) : list string :=
  or_empty (productLinks pa) ++ or_empty (paginationLinks pa)
  ++ or_empty (categoryLinks pa) ++ or_empty (otherRelevantLinks pa).

(** What one iteration that dequeues [cur] may change. *)
Definition step_spec (baseDomain : string) (cur : string) (rest : list string)
           (st st' : State) : Prop :=
  exists added prods evs,
    visited st' = visited st ++ added
    /\ pendingUrls st' = rest ++ added
    /\ NoDup added
    /\ (forall x, In x added -> ~ In x (visited st) /\ getBaseDomain x = baseDomain)
    /\ found st' = found st ++ prods
    /\ seenProductUrls st' = seenProductUrls st ++ map url prods
    /\ NoDup (map url prods)
    /\ (forall p, In p prods -> ~ In (url p) (seenProductUrls st))
    /\ history st' = history st ++ evs
    /\ (evs = [] \/ evs = [Fetch cur] \/ evs = [Fetch cur; Analyze cur]).

Record Inv (baseDomain start : string) (st : State) : Prop := {
  visited_nodup : NoDup (visited st);
  pending_nodup : NoDup (pendingUrls st);
  pending_visited : incl (pendingUrls st) (visited st);
  start_visited : In start (visited st);
  visited_domain :
    forall x, In x (visited st) -> x = start \/ getBaseDomain x = baseDomain;
  found_seen : map url (found st) = seenProductUrls st;
  seen_nodup : NoDup (seenProductUrls st);
  called_visited :
    forall u, In (Fetch u) (history st) \/ In (Analyze u) (history st) ->
              In u (visited st) /\ ~ In u (pendingUrls st);
  fetch_count : fetches (history st) + List.length (pendingUrls st)
                <= List.length (visited st)
}.

End SeqSpec.

(** ** States of the batched crawler *)

Module BatchSpec.

Import BatchCrawler.

(** How a state may differ from an earlier one of the same run: URLs were
    appended to the visited set and to the queue, products to the
    accumulator, classifier calls for [urls] to the history. *)
Definition grows (baseDomain : string) (urls : list string) (st st' : State) : Prop :=
  exists added prods evs,
    visited st' = visited st ++ map PendingUrl.url added
    /\ pendingUrls st' = pendingUrls st ++ added
    /\ NoDup (map PendingUrl.url added)
    /\ (forall e, In e added ->
          ~ In (PendingUrl.url e) (visited st)
          /\ getBaseDomain (PendingUrl.url e) = baseDomain)
    /\ found st' = found st ++ prods
    /\ seenProductUrls st' = seenProductUrls st ++ map url prods
    /\ NoDup (map url prods)
    /\ (forall p, In p prods -> ~ In (url p) (seenProductUrls st))
    /\ history st' = history st ++ evs
    /\ (forall e, In e evs -> exists u, In u urls /\ e = Analyze u).

(** What one iteration may change. *)
Definition step_spec (baseDomain : string) (st st' : State) : Prop :=
  exists batch rest added prods evs,
    Permutation (batch ++ rest) (pendingUrls st)
    /\ List.length batch = Nat.min BATCH_SIZE (List.length (pendingUrls st))
    /\ visited st' = visited st ++ map PendingUrl.url added
    /\ pendingUrls st' = rest ++ added
    /\ NoDup (map PendingUrl.url added)
    /\ (forall e, In e added ->
          ~ In (PendingUrl.url e) (visited st)
          /\ getBaseDomain (PendingUrl.url e) = baseDomain)
    /\ found st' = found st ++ prods
    /\ seenProductUrls st' = seenProductUrls st ++ map url prods
    /\ NoDup (map url prods)
    /\ (forall p, In p prods -> ~ In (url p) (seenProductUrls st))
    /\ history st' = history st ++ evs
    /\ (forall e, In e evs ->
          exists u, In u (map PendingUrl.url batch) /\ (e = Fetch u \/ e = Analyze u))
    /\ fetches evs <= List.length batch.

Record Inv (baseDomain start : string) (st : State) : Prop := {
  visited_nodup : NoDup (visited st);
  pending_nodup : NoDup (map PendingUrl.url (pendingUrls st));
  pending_visited : incl (map PendingUrl.url (pendingUrls st)) (visited st);
  start_visited : In start (visited st);
  visited_domain :
    forall x, In x (visited st) -> x = start \/ getBaseDomain x = baseDomain;
  found_seen : map url (found st) = seenProductUrls st;
  seen_nodup : NoDup (seenProductUrls st);
  called_visited :
    forall u, In (Fetch u) (history st) \/ In (Analyze u) (history st) ->
              In u (visited st) /\ ~ In u (map PendingUrl.url (pendingUrls st));
  fetch_count : fetches (history st) + List.length (pendingUrls st)
                <= List.length (visited st)
}.

End BatchSpec.

(** ** URL records and their normalization *)

Module UrlSpec.

Definition all_ascii : list ascii := map ascii_of_nat (List.seq 0 256).

Definition seg_char (c : ascii) : bool := negb (URL.path_set c) && negb (URL.is_slash c).

Definition not_dots (s : string) : bool :=
  negb (URL.is_single_dot s) && negb (URL.is_double_dot s).

(** A path segment as the parser leaves it. *)
Definition seg_ok (s : string) : bool := sall seg_char s && not_dots s.

Definition path_ok (p : list string) : Prop :=
  p <> [] /\ Forall (fun s => seg_ok s = true) p.

Definition query_char (c : ascii) : bool := negb (URL.special_query_set c).
Definition fragment_char (c : ascii) : bool := negb (URL.fragment_set c).

Definition port_ok (sch : string) (p : option N) : bool :=
  match p with
  | Some n => (n <=? 65535)%N && negb (n =? URL.default_port sch)%N
  | None => true
  end.

Definition opt_all (p : ascii -> bool) (o : option string) : bool :=
  match o with Some s => sall p s | None => true end.

(** What every record that [new URL] builds satisfies. *)
Record WF (u : URL.t) : Prop := {
  wf_scheme : URL.modelled_scheme (URL.scheme u) = true;
  wf_host : URL.host_ok (URL.host u) = true;
  wf_host_lower : toLowerCase (URL.host u) = URL.host u;
  wf_port : port_ok (URL.scheme u) (URL.port u) = true;
  wf_path : path_ok (URL.path u);
  wf_query : opt_all query_char (URL.query u) = true;
  wf_fragment : opt_all fragment_char (URL.fragment u) = true
}.

Definition pathname_of (p : list string) : string :=
  String.concat "" (map (fun s => "/" ++ s)%string p).

Definition port_string (p : option N) : string :=
  match p with Some n => (":" ++ URL.string_of_N n)%string | None => "" end.

Definition query_string (q : option string) : string :=
  match q with Some q => ("?" ++ q)%string | None => "" end.

(** The record that the lower-cased serialization denotes. *)
Definition lower_record (u : URL.t) : URL.t :=
  URL.mk (URL.scheme u) (URL.host u) (URL.port u)
         (map toLowerCase (URL.path u))
         (option_map toLowerCase (URL.query u))
         None.

Definition plain (c : ascii) : bool := negb (URL.is_c0_or_space c).
Definition auth_char (c : ascii) : bool :=
  URL.is_host_char c || is_char "." c || is_digit c || is_char ":" c.
Definition path_char (c : ascii) : bool := seg_char c || is_char "/" c.

(** The path without its trailing empty segments. *)
Definition drop_trailing_empty (p : list string) : list string :=
  fold_right (fun s acc => match acc with
                           | [] => if nonempty s then [s] else []
                           | _ => s :: acc
                           end) [] p.

Definition strip_segs (p : list string) : list string :=
  match drop_trailing_empty p with [] => [""] | p' => p' end.

Definition is_language (s : string) : bool := mem (toLowerCase s) LANGUAGE_CODES.

(** [removeLanguagePrefix] on segments. *)
Definition rlp_segs (p : list string) : list string :=
  match filter nonempty p with
  | p0 :: rest =>
      if is_language p0 then match rest with [] => [""] | _ => rest end else p
  | [] => p
  end.

Definition norm_path (p : list string) : list string := strip_segs (rlp_segs p).

Definition query_text (q : option string) : string :=
  match q with Some q => q | None => "" end.

Definition sorted_params (q : option string) : list (string * string) :=
  sort_by key_gt (URL.urlencoded_parse (query_text q)).

Definition if_nonempty (s : string) : option string :=
  match s with EmptyString => None | _ => Some s end.

Definition norm_query (q : option string) : option string :=
  if_nonempty (URL.urlencoded_serialize (sorted_params q)).

(** The record whose lower-cased serialization [normalizeUrl] returns. *)
Definition norm_record (u : URL.t) : URL.t :=
  URL.mk (URL.scheme u) (URL.host u) (URL.port u)
         (norm_path (URL.path u)) (norm_query (URL.query u)) None.

Definition form_char (c : ascii) : bool := is_alnum c || URL.one_of "*-._+%=&" c.

Definition lower_pair (e : string * string) : string * string :=
  (toLowerCase (fst e), toLowerCase (snd e)).

Definition form_encode_char (c : ascii) : string :=
  if is_char " " c then "+"
  else if URL.urlencoded_set c then URL.pct c
  else String c "".

(** Characters of an encoded name or value: no [&], no [=]. *)
Definition token_char (c : ascii) : bool := is_alnum c || URL.one_of "*-._+%" c.

Definition decodes_back (c : ascii) : bool :=
  String.eqb (URL.form_decode (toLowerCase (form_encode_char c))) (String (lower_char c) "").

(** One encoded character in front of anything decodes on its own. *)
Definition decodes_alone (c : ascii) : bool :=
  match URL.plus_to_space (toLowerCase (form_encode_char c)) with
  | String x EmptyString => negb (Ascii.eqb x "%") && Ascii.eqb x (lower_char c)
  | String x (String h1 (String h2 EmptyString)) =>
      Ascii.eqb x "%"
      && match URL.hex_value h1, URL.hex_value h2 with
         | Some a, Some b => Ascii.eqb (ascii_of_nat (16 * a + b)) (lower_char c)
         | _, _ => false
         end
  | _ => false
  end.

(** Lower-casing before encoding is lost in the lower-cased encoding. *)
Definition lower_absorbed (c : ascii) : bool :=
  String.eqb (toLowerCase (form_encode_char (lower_char c)))
             (toLowerCase (form_encode_char c)).

(** The test of [removeLanguagePrefix], on the URL [v]: its first
    non-empty path segment is one of [LANGUAGE_CODES]. *)
Definition leading_language (v : string) : bool :=
  match URL.new_URL v with
  | Some url =>
      match filter nonempty (split_by (is_char "/") (URL.pathname url)) with
      | p0 :: _ => mem (toLowerCase p0) LANGUAGE_CODES
      | [] => false
      end
  | None => false
  end.

Definition language_first (p : list string) : bool :=
  match filter nonempty p with
  | p0 :: _ => is_language p0
  | [] => false
  end.

(** *** Differences that normalization is meant to erase *)

(** [Array.from(url.searchParams.entries())] for a query component. *)
Definition params (q : option string) : list (string * string) :=
  URL.urlencoded_parse (query_text q).

(** The key of a parameter as [localeCompare] sees it: two keys compare
    as equal exactly when these are the same. *)
Definition sort_key (e : string * string) : string := collation_key (fst e).

(** The same up to letter case. *)
Definition folded_key (e : string * string) : string := toLowerCase (sort_key e).

(** Names and values that are ASCII text. *)
Definition ascii_params (l : list (string * string)) : bool :=
  forallb (fun e => is_ascii (fst e) && is_ascii (snd e)) l.

(** The URL [u] has only ASCII query parameters, once they are decoded. *)
Definition ascii_query (u : string) : bool :=
  match URL.new_URL u with
  | Some url => ascii_params (URL.searchParams url)
  | None => true
  end.

(** No empty segment in front of a non-empty one. *)
Definition compact (p : list string) : Prop :=
  filter nonempty p = drop_trailing_empty p.

(** Two URL records that differ only in the fragment, in trailing slashes,
    in a leading language segment, in the order of the query parameters
    or in letter case.  A language segment counts as a prefix when what
    follows it neither begins with a language code nor has an empty
    segment in front of a non-empty one; the order of the parameters is
    free when they are ASCII and no two of their keys compare as equal,
    and the letter case of the query when they are ASCII and no two of
    their keys compare as equal up to case. *)
Inductive same_page : URL.t -> URL.t -> Prop :=
| same_fragment u f : same_page u (URL.with_fragment f u)
| same_trailing_slash u : same_page u (URL.with_path (URL.path u ++ [""]) u)
| same_locale u l :
    is_language l = true ->
    language_first (URL.path u) = false ->
    compact (URL.path u) ->
    same_page u (URL.with_path (l :: URL.path u) u)
| same_query_order u q :
    Permutation (params (URL.query u)) (params q) ->
    ascii_params (params (URL.query u)) = true ->
    NoDup (map sort_key (params (URL.query u))) ->
    same_page u (URL.with_query q u)
| same_path_case u p :
    map toLowerCase p = map toLowerCase (URL.path u) ->
    same_page u (URL.with_path p u)
| same_query_case u q :
    option_map toLowerCase q = option_map toLowerCase (URL.query u) ->
    ascii_params (params (URL.query u)) = true ->
    NoDup (map folded_key (params (URL.query u))) ->
    same_page u (URL.with_query q u)
| same_refl u : same_page u u
| same_sym u v : same_page u v -> same_page v u
| same_trans u v w : same_page u v -> same_page v w -> same_page u w.

(** What the normalized key is made of. *)
Definition key_parts (u : URL.t)
  : string * string * option N * list string * string :=
  (URL.scheme u, URL.host u, URL.port u,
   map toLowerCase (norm_path (URL.path u)),
   toLowerCase (query_string (norm_query (URL.query u)))).

(** The letter that a primary weight stands for. *)
Definition letter_of_rank (r : nat) : ascii :=
  if (r <? 1000)%nat
  then match String.get r collation_order with Some c => c | None => " "%char end
  else ascii_of_nat (r - 1000).

Definition rank_inverts (c : ascii) : bool :=
  Ascii.eqb (letter_of_rank (collation_rank c)) (lower_char c).

(** A lower-case character in the case that [case_rank] recorded. *)
Definition with_case (k : nat) (l : ascii) : ascii :=
  if (k =? 1)%nat then ascii_of_nat (code l - 32) else l.

Definition case_inverts (c : ascii) : bool :=
  Ascii.eqb (with_case (case_rank c) (lower_char c)) c.

(** A hexadecimal digit has the same value in both cases. *)
Definition hex_value_folds (c : ascii) : bool :=
  match URL.hex_value (lower_char c), URL.hex_value c with
  | Some a, Some b => Nat.eqb a b
  | None, None => true
  | _, _ => false
  end.

End UrlSpec.

Import UrlSpec.

(** ** Histories, keys, the pool: what the further properties speak of *)

Module TraceSpec.

(** The URLs navigated to, in order. *)
Definition fetched (h : list Event) : list string :=
  flat_map (fun e => match e with Fetch u => [u] | Analyze _ => [] end) h.

(** The URLs given to the classifier, in order. *)
Definition analysed (h : list Event) : list string :=
  flat_map (fun e => match e with Analyze u => [u] | Fetch _ => [] end) h.

(** The histories of the sequential crawler: every navigation is
    followed at once by the analysis of the same URL when, and only when,
    [fetchPage] returned a page. *)
Inductive seq_trace (w : World) : list Event -> Prop :=
| trace_nil : seq_trace w []
| trace_no_page h u :
    seq_trace w h ->
    (forall pr, fetchPage w h u <> Return (Some pr)) ->
    seq_trace w (h ++ [Fetch u])
| trace_page h u pr :
    seq_trace w h ->
    fetchPage w h u = Return (Some pr) ->
    seq_trace w (h ++ [Fetch u; Analyze u]).

(** The product [p] is what the classifier answered, with page type
    ["product"], to the call that the run made for a page it fetched: [st]
    is a state at the head of the loop of that run, [u] the URL it
    dequeues there, [pr] the page that [fetchPage] returns for it, and the
    call is the one of [SeqSpec.pageAnalysis], with the links that the
    crawler computed in [st].  The product carries the normalized [u]. *)
Definition extracted (w : World) (baseDomain start : string) (maxPages : Z)
           (tr : list Event) (p : ProductData) : Prop :=
  exists st u rest h2 pr p0 key,
    reachable (Crawler.continue maxPages) (Crawler.iteration w baseDomain start)
              (Crawler.initial start) st
    /\ Crawler.continue maxPages st = true
    /\ Crawler.pendingUrls st = u :: rest
    /\ tr = Crawler.history st ++ Fetch u :: Analyze u :: h2
    /\ fetchPage w (Crawler.history st) u = Return (Some pr)
    /\ pageType (SeqSpec.pageAnalysis w baseDomain u pr st) = "product"
    /\ product (SeqSpec.pageAnalysis w baseDomain u pr st) = Some p0
    /\ normalizeUrl u = Some key
    /\ p = with_url key p0.

(** Elements of [l] in the order of [l]. *)
Inductive subseq {A : Type} : list A -> list A -> Prop :=
| subseq_nil : subseq [] []
| subseq_skip x l1 l2 : subseq l1 l2 -> subseq l1 (x :: l2)
| subseq_keep x l1 l2 : subseq l1 l2 -> subseq (x :: l1) (x :: l2).

End TraceSpec.

Module BatchTraceSpec.

Import TraceSpec BatchCrawler.

(** The tasks that starting the URLs [us] creates when the history is [h]:
    each navigation is issued after those of the tasks before it. *)
Fixpoint tasks_of (w : World) (h : list Event) (us : list string) : list Task :=
  match us with
  | [] => []
  | u :: us' => (u, fetchPage w h u) :: tasks_of w (h ++ [Fetch u]) us'
  end.

(** The state after the navigations to [us] were issued. *)
Definition issued (us : list string) (st : State) : State :=
  {| visited := visited st; pendingUrls := pendingUrls st; found := found st;
     seenProductUrls := seenProductUrls st; urlCache := urlCache st;
     history := history st ++ map Fetch us |}.


(** The URLs of a batch that are navigated to. *)
Definition navigated (batch : list PendingUrl.t) : list string :=
  filter (fun u => negb (isResourceUrl u)) (map PendingUrl.url batch).

End BatchTraceSpec.

Module KeySpec.

(** [u] is a key that [normalizeUrl] returns. *)
Definition normalized (u : string) : Prop := exists x, normalizeUrl x = Some u.

(** The keys of the parameters do not descend. *)
Definition keys_ascend (l : list (string * string)) : Prop :=
  StronglySorted (fun a b => localeCompare (fst a) (fst b) <> Gt) l.

(** The extensions that the first and the fourth pattern of
    [isResourceUrl] end with. *)
Definition asset_extensions : list string :=
  ["js"; "css"; "png"; "jpg"; "jpeg"; "gif"; "ico"; "svg"; "woff"; "woff2"; "ttf";
   "eot"; "map"; "webp"; "br"; "gz"; "zip"; "rar"; "7z"; "tar"; "bz2"].

(** The character before the position that follows [e]. *)
Fixpoint last_char (prev : option ascii) (e : string) : option ascii :=
  match e with
  | EmptyString => prev
  | String c e' => last_char (Some c) e'
  end.

End KeySpec.

Module PoolSpec.

Import PagePool.

(** A call that takes a page or gives one back. *)
Inductive PoolCall : Type :=
| Get
| Release (page : Page).

Definition call (st : Process) (c : PoolCall) : Process :=
  match c with
  | Get => snd (getPage st)
  | Release page => releasePage page st
  end.

(** A run of [crawlWebsite] that fetches [n] pages, one at a time. *)
Definition run (n : nat) (st : Process) : Process :=
  cleanup (Nat.iter n fetch_cycle (initBrowser st)).

End PoolSpec.

Module BatchVocabulary.

(** The entries of priority [p]. *)
Definition of_priority (p : Z) (e : PendingUrl.t) : bool :=
  (PendingUrl.priority e =? p)%Z.

Definition invalid_result : CrawlResult :=
  {| products := []; visitedUrls := []; error := Some "Invalid start URL" |}.

End BatchVocabulary.

Module GateSpec.

(** The tests a dequeued URL passes before the sequential crawler fetches
    it. *)
Definition passes_gates (normalizedStartUrl currentUrl : string) : bool :=
  nonempty currentUrl
  && negb (isResourceUrl currentUrl)
  && (isLikely (isLikelyProductOrListingUrl currentUrl)
      || String.eqb normalizedStartUrl currentUrl).

End GateSpec.

(** ** What the batched crawler queues *)

Module QueueSpec.

Import BatchCrawler.

(** The analysis that the task of [url] works with when it continues in
    the state [st]: the one of [urlCache], or else the answer of the
    classifier. *)
Definition analysis_in (w : World) (st : State) (url : string) (pageResult : PageResult)
  : PageAnalysis :=
  match cache_get (urlCache st) url with
  | Some pageAnalysis => pageAnalysis
  | None => classify w (history st) (html pageResult) url (links pageResult)
  end.

(** The entries that [newUrls.forEach] pushes when the visited set is
    [visitedUrls]: those whose URL is neither visited nor pushed before. *)
Fixpoint pushed (visitedUrls : list string) (newUrls : list PendingUrl.t)
  : list PendingUrl.t :=
  match newUrls with
  | [] => []
  | newUrl :: rest =>
      if Set_has visitedUrls (PendingUrl.url newUrl) then pushed visitedUrls rest
      else newUrl :: pushed (visitedUrls ++ [PendingUrl.url newUrl]) rest
  end.

(** What the task of [url] pushes when it continues in [st] with the page
    [pageResult]. *)
Definition pushed_by (w : World) (baseDomain : string) (st : State) (url : string)
           (pageResult : PageResult) : list PendingUrl.t :=
  pushed (visited st)
         (processNewUrls (links pageResult) (baseUrl pageResult) baseDomain (visited st)
                         (analysis_in w st url pageResult)).

(** The tasks of a batch in the order in which they continue after
    their navigation, each with the state it continues in. *)
Fixpoint schedule (w : World) (baseDomain : string) (n : nat) (tasks : list Task)
         (st : State) : list (Task * State) :=
  match n with
  | O => []
  | S n' =>
      let i := (resume w (history st) (List.length tasks)) mod (List.length tasks) in
      match nth_error tasks i with
      | Some task =>
          (task, st) :: schedule w baseDomain n' (firstn i tasks ++ skipn (S i) tasks)
                                 (finish w baseDomain task st)
      | None => []
      end
  end.

(** What a task pushes when it continues: nothing unless its navigation
    returned a page. *)
Definition pushes (w : World) (baseDomain : string) (ts : Task * State)
  : list PendingUrl.t :=
  match snd (fst ts) with
  | Return (Some pageResult) => pushed_by w baseDomain (snd ts) (fst (fst ts)) pageResult
  | _ => []
  end.

End QueueSpec.

Module ScenarioRuns.

Definition home : string := "https://shop.example.com/".
Definition p1 : string := "https://shop.example.com/p/1".
Definition p2 : string := "https://shop.example.com/p/2".
Definition p3 : string := "https://shop.example.com/p/3".
Definition about : string := "https://shop.example.com/about".

(** What the sequential crawler returns on the shop, and the calls it
    makes. *)
Definition sequential_result : CrawlResult :=
  {| products := [with_url p1 Scenario.widget; with_url p2 Scenario.widget;
                  with_url p3 Scenario.widget];
     visitedUrls := [home; p1; p2; p3; about];
     error := None |}.

Definition sequential_events : list Event :=
  [Fetch home; Analyze home; Fetch p1; Analyze p1; Fetch p2; Analyze p2;
   Fetch p3; Analyze p3].



End ScenarioRuns.

(* ===================================================================== *)
(** * Properties *)
(* ===================================================================== *)

(** ** Loops *)

Section Loops.

Context {S : Type} (guard : S -> bool) (body : S -> S) (measure : S -> nat).

Hypothesis body_decreases : forall st, guard st = true -> measure (body st) < measure st.

Lemma iterate_runs : forall fuel st,
    measure st <= fuel -> while_run guard body st (iterate guard body fuel st).
Proof.
  induction fuel as [|fuel IH]; intros st Hm; simpl.
  - apply while_exit. destruct (guard st) eqn:G; [|reflexivity].
    apply body_decreases in G. lia.
  - destruct (guard st) eqn:G.
    + apply while_iter; [exact G|]. apply IH.
      apply body_decreases in G. lia.
    + apply while_exit. exact G.
Qed.

End Loops.

Lemma while_run_exit {S : Type} (guard : S -> bool) (body : S -> S) st st' :
  while_run guard body st st' -> guard st' = false.
Proof. induction 1; assumption. Qed.

Lemma while_run_reachable {S : Type} (guard : S -> bool) (body : S -> S) st0 st st' :
  reachable guard body st0 st -> while_run guard body st st' -> reachable guard body st0 st'.
Proof.
  intros R W. revert R. induction W; intros R; [exact R|].
  apply IHW. apply reach_iter; assumption.
Qed.

Lemma reachable_trans {S : Type} (guard : S -> bool) (body : S -> S) st0 st1 st2 :
  reachable guard body st0 st1 -> reachable guard body st1 st2 -> reachable guard body st0 st2.
Proof.
  intros R1 R2. induction R2; [exact R1|]. apply reach_iter; assumption.
Qed.

(** ** Sets and lists *)

Lemma mem_In x l : mem x l = true <-> In x l.
Proof.
  unfold mem. rewrite existsb_exists. split.
  - intros [y [Hy E]]. apply String.eqb_eq in E. subst. exact Hy.
  - intros H. exists x. split; [exact H|apply String.eqb_refl].
Qed.

Lemma mem_false x l : mem x l = false <-> ~ In x l.
Proof.
  rewrite <- mem_In. destruct (mem x l); split; congruence.
Qed.

Lemma non_null_In {A : Type} (l : list (option A)) x :
  In x (non_null l) <-> In (Some x) l.
Proof.
  unfold non_null. rewrite in_flat_map. split.
  - intros [[y|] [Hy Hx]]; simpl in Hx; [|contradiction].
    destruct Hx as [<-|[]]. exact Hy.
  - intros H. exists (Some x). split; [exact H|left; reflexivity].
Qed.

Lemma NoDup_snoc {A : Type} (l : list A) x : NoDup l -> ~ In x l -> NoDup (l ++ [x]).
Proof.
  intros N H. apply NoDup_app; [exact N|repeat constructor; intros []|].
  intros y Hy [<-|[]]. exact (H Hy).
Qed.

(** ** [deduplicateProducts] *)

Lemma existsb_url_In acc p :
  existsb (fun q => String.eqb (url q) (url p)) acc = true <-> In (url p) (map url acc).
Proof.
  rewrite existsb_exists, in_map_iff. split.
  - intros [q [Hq E]]. apply String.eqb_eq in E. exists q. split; assumption.
  - intros [q [E Hq]]. exists q. split; [exact Hq|]. rewrite E. apply String.eqb_refl.
Qed.

Lemma find_app_url u (a b : list ProductData) :
  find (by_url u) (a ++ b) =
  match find (by_url u) a with Some p => Some p | None => find (by_url u) b end.
Proof.
  induction a as [|x a IH]; simpl; [reflexivity|].
  destruct (by_url u x); [reflexivity|exact IH].
Qed.

Lemma find_none_url u (l : list ProductData) :
  find (by_url u) l = None <-> ~ In u (map url l).
Proof.
  induction l as [|x l IH]; simpl.
  - split; [intros _ []|reflexivity].
  - unfold by_url at 1. destruct (String.eqb (url x) u) eqn:E.
    + apply String.eqb_eq in E. split; [discriminate|]. intros H. exfalso. apply H. left. exact E.
    + apply String.eqb_neq in E. rewrite IH. split.
      * intros H [H'|H']; [exact (E H')|exact (H H')].
      * intros H H'. apply H. right. exact H'.
Qed.

Lemma dedup_fold_NoDup l : forall acc,
    NoDup (map url acc) -> NoDup (map url (fold_left dedup_step l acc)).
Proof.
  induction l as [|p l IH]; intros acc N; simpl; [exact N|].
  apply IH. unfold dedup_step.
  destruct (existsb _ acc) eqn:E; [exact N|].
  rewrite map_app. simpl. apply NoDup_snoc; [exact N|].
  rewrite <- existsb_url_In, E. discriminate.
Qed.

Lemma dedup_fold_find u l : forall acc,
    find (by_url u) (fold_left dedup_step l acc) =
    match find (by_url u) acc with Some p => Some p | None => find (by_url u) l end.
Proof.
  induction l as [|p l IH]; intros acc; simpl.
  - destruct (find (by_url u) acc); reflexivity.
  - rewrite IH. unfold dedup_step.
    destruct (existsb _ acc) eqn:E.
    + destruct (find (by_url u) acc) eqn:F; [reflexivity|].
      destruct (by_url u p) eqn:Eu; [|reflexivity].
      unfold by_url in Eu. apply String.eqb_eq in Eu. apply existsb_url_In in E. rewrite Eu in E.
      apply find_none_url in F. contradiction.
    + rewrite find_app_url. destruct (find (by_url u) acc); [reflexivity|].
      simpl. destruct (by_url u p); reflexivity.
Qed.

Lemma dedup_fold_id l : forall acc,
    NoDup (map url (acc ++ l)) -> fold_left dedup_step l acc = acc ++ l.
Proof.
  induction l as [|p l IH]; intros acc N; simpl.
  - rewrite app_nil_r. reflexivity.
  - assert (E : existsb (fun q => String.eqb (url q) (url p)) acc = false).
    { destruct (existsb _ acc) eqn:E; [|reflexivity]. apply existsb_url_In in E.
      rewrite map_app in N. simpl in N. apply NoDup_remove_2 in N.
      exfalso. apply N. apply in_or_app. left. exact E. }
    unfold dedup_step at 2. rewrite E.
    rewrite IH; rewrite <- app_assoc; simpl; [reflexivity|exact N].
Qed.

Lemma deduplicateProducts_fold l : deduplicateProducts l = fold_left dedup_step l [].
Proof. reflexivity. Qed.

(** ** The sequential crawler, one iteration at a time *)

Lemma fetches_app h1 h2 : fetches (h1 ++ h2) = fetches h1 + fetches h2.
Proof. unfold fetches. rewrite filter_app, length_app. reflexivity. Qed.

Module SeqFacts.

Import Crawler SeqSpec.

Lemma seq_enqueue_fold l : forall st,
    exists added,
      visited (fold_left enqueue l st) = visited st ++ added
      /\ pendingUrls (fold_left enqueue l st) = pendingUrls st ++ added
      /\ found (fold_left enqueue l st) = found st
      /\ seenProductUrls (fold_left enqueue l st) = seenProductUrls st
      /\ history (fold_left enqueue l st) = history st
      /\ NoDup added
      /\ (forall x, In x added -> In x l /\ ~ In x (visited st)).
Proof.
  induction l as [|a l IH]; intros st; simpl.
  - exists []. rewrite !app_nil_r. repeat split; try constructor; contradiction.
  - unfold enqueue at 2 4 6 8 10. unfold Set_has.
    destruct (mem a (visited st)) eqn:M.
    + destruct (IH st) as [added (Hv & Hp & Hf & Hs & Hh & Hn & Hin)].
      exists added. repeat split; try assumption.
      * right. apply Hin. assumption.
      * apply Hin. assumption.
    + apply mem_false in M.
      match goal with |- context [fold_left enqueue l ?s] =>
        destruct (IH s) as [added (Hv & Hp & Hf & Hs & Hh & Hn & Hin)] end.
      simpl in *. exists (a :: added).
      rewrite Hv, Hp, <- !app_assoc. simpl. repeat split; try assumption.
      * constructor; [|exact Hn]. intros Ha. apply Hin in Ha.
        destruct Ha as [_ Ha]. apply Ha. apply in_or_app. right. left. reflexivity.
      * destruct H as [<-|H]; [left; reflexivity|right; apply Hin; exact H].
      * destruct H as [<-|H]; [exact M|].
        apply Hin in H. destruct H as [_ H]. intros Hx. apply H.
        apply in_or_app. left. exact Hx.
Qed.

Lemma allRelevantLinks_domain baseUrl baseDomain visitedUrls pa x :
  In x (allRelevantLinks baseUrl baseDomain visitedUrls pa) ->
  getBaseDomain x = baseDomain /\ ~ In x visitedUrls.
Proof.
  unfold allRelevantLinks. rewrite filter_In, non_null_In, in_map_iff.
  intros [[link [E _]] M]. split.
  - unfold same_domain_link in E. destruct (resolve baseUrl link); [|discriminate].
    destruct (String.eqb (getBaseDomain s) baseDomain) eqn:D; [|discriminate].
    inversion E; subst. apply String.eqb_eq. exact D.
  - unfold Set_has in M. apply mem_false. destruct (mem x visitedUrls); [discriminate|reflexivity].
Qed.

(** What [keep_product] may change. *)
Lemma keep_product_spec cur pa st st' :
  keep_product cur pa st = Some st' ->
  visited st' = visited st /\ pendingUrls st' = pendingUrls st /\ history st' = history st
  /\ exists prods,
      found st' = found st ++ prods
      /\ seenProductUrls st' = seenProductUrls st ++ map url prods
      /\ NoDup (map url prods)
      /\ (forall p, In p prods ->
            ~ In (url p) (seenProductUrls st) /\ normalizeUrl cur = Some (url p)).
Proof.
  unfold keep_product. intros H.
  assert (Same : st' = st ->
    visited st' = visited st /\ pendingUrls st' = pendingUrls st /\ history st' = history st
    /\ exists prods,
      found st' = found st ++ prods
      /\ seenProductUrls st' = seenProductUrls st ++ map url prods
      /\ NoDup (map url prods)
      /\ (forall p, In p prods ->
            ~ In (url p) (seenProductUrls st) /\ normalizeUrl cur = Some (url p))).
  { intros ->. repeat split. exists []. simpl. rewrite !app_nil_r.
    repeat split; try constructor; contradiction. }
  destruct (product pa) as [p|]; [|inversion H; subst; auto].
  destruct (String.eqb (pageType pa) "product"); [|inversion H; subst; auto].
  destruct (normalizeUrl cur) as [npu|]; [|discriminate].
  unfold Set_has in H. destruct (mem npu (seenProductUrls st)) eqn:M.
  - inversion H; subst; auto.
  - inversion H; subst; clear H. simpl. repeat split.
    exists [with_url npu p]. simpl. repeat split.
    + constructor; [intros []|constructor].
    + destruct H as [<-|[]]. simpl. apply mem_false. exact M.
    + destruct H as [<-|[]]. reflexivity.
Qed.

Section Step.

Variables (w : World) (baseDomain start : string).

Lemma step_spec_idle cur rest st :
  pendingUrls st = cur :: rest -> step_spec baseDomain cur rest st (set_pending rest st).
Proof.
  intros _. exists [], [], []. simpl. rewrite !app_nil_r.
  repeat split; try contradiction; try apply NoDup_nil; auto.
Qed.

Lemma step_spec_fetched cur rest st :
  step_spec baseDomain cur rest st (record (Fetch cur) (set_pending rest st)).
Proof.
  exists [], [], [Fetch cur]. simpl. rewrite !app_nil_r.
  repeat split; try contradiction; try apply NoDup_nil; auto.
Qed.

Lemma process_spec cur rest st :
  step_spec baseDomain cur rest st (process w baseDomain cur (set_pending rest st)).
Proof.
  unfold process.
  destruct (fetchPage w (history (set_pending rest st)) cur) as [[pr|]|e];
    try apply step_spec_fetched.
  match goal with |- context [keep_product cur ?pa ?s] =>
    destruct (keep_product cur pa s) as [st3|] eqn:K end.
  - apply keep_product_spec in K.
    destruct K as (Kv & Kp & Kh & prods & Kf & Ks & Kn & Kin).
    match goal with |- context [fold_left enqueue ?l st3] =>
      destruct (seq_enqueue_fold l st3) as [added (Hv & Hp & Hf & Hs & Hh & Hn & Hin)] end.
    exists added, prods, [Fetch cur; Analyze cur].
    rewrite Hv, Hp, Hf, Hs, Hh, Kv, Kp, Kh, Kf, Ks. simpl.
    rewrite <- !app_assoc. simpl. repeat split; try assumption.
    + apply Hin in H. destruct H as [H _].
      apply allRelevantLinks_domain in H. rewrite Kv in H. simpl in H. apply H.
    + apply Hin in H. destruct H as [H _].
      apply allRelevantLinks_domain in H. apply H.
    + intros p Hp'. apply Kin in Hp'. apply Hp'.
    + auto.
  - exists [], [], [Fetch cur; Analyze cur]. simpl. rewrite !app_nil_r, <- app_assoc.
    repeat split; try contradiction; try apply NoDup_nil; auto.
Qed.

Lemma seq_iteration_spec cur rest st :
  pendingUrls st = cur :: rest ->
  step_spec baseDomain cur rest st (iteration w baseDomain start st).
Proof.
  intros P. unfold iteration. rewrite P.
  destruct (negb (nonempty cur)); [apply step_spec_idle; exact P|].
  destruct (isResourceUrl cur); [apply step_spec_idle; exact P|].
  destruct (negb (isLikely (isLikelyProductOrListingUrl cur))
            && negb (String.eqb start cur)); [apply step_spec_idle; exact P|].
  apply process_spec.
Qed.

Lemma seq_continue_pending maxPages st :
  continue maxPages st = true ->
  exists cur rest, pendingUrls st = cur :: rest
                   /\ (Z.of_nat (List.length (visited st)) < maxPages)%Z.
Proof.
  unfold continue. rewrite andb_true_iff, Z.ltb_lt, Nat.ltb_lt.
  intros [Hp Hv]. destruct (pendingUrls st) as [|cur rest]; [simpl in Hp; lia|].
  exists cur, rest. split; [reflexivity|exact Hv].
Qed.

Lemma seq_iteration_decreases maxPages st :
  continue maxPages st = true ->
  enough maxPages (List.length (visited (iteration w baseDomain start st)))
         (List.length (pendingUrls (iteration w baseDomain start st)))
  < enough maxPages (List.length (visited st)) (List.length (pendingUrls st)).
Proof.
  intros G. destruct (seq_continue_pending _ _ G) as (cur & rest & P & V).
  destruct (seq_iteration_spec cur rest st P) as (added & _ & _ & Hv & Hp & _).
  rewrite Hv, Hp, P, !length_app. simpl. unfold enough.
  destruct (Z.ltb_spec (Z.of_nat (List.length (visited st))) maxPages); [|lia].
  destruct (Z.ltb_spec (Z.of_nat (List.length (visited st) + List.length added)) maxPages); lia.
Qed.

Lemma seq_crawl_loop_runs maxPages st :
  while_run (continue maxPages) (iteration w baseDomain start) st
            (crawl_loop w baseDomain start maxPages st).
Proof.
  unfold crawl_loop.
  apply (iterate_runs _ _
           (fun s => enough maxPages (List.length (visited s)) (List.length (pendingUrls s)))).
  - intros s G. apply seq_iteration_decreases. exact G.
  - apply Nat.le_refl.
Qed.

End Step.

End SeqFacts.

(** ** The sequential crawler: what holds at every head of the loop *)

Module SeqInv.

Import Crawler SeqSpec SeqFacts.

Lemma seq_Inv_initial baseDomain start : Inv baseDomain start (initial start).
Proof.
  constructor; simpl.
  - repeat constructor. intros [].
  - repeat constructor. intros [].
  - apply incl_refl.
  - left. reflexivity.
  - intros x [<-|[]]. left. reflexivity.
  - reflexivity.
  - constructor.
  - intros u [[]|[]].
  - unfold fetches. simpl. lia.
Qed.

Lemma fetches_step cur evs :
  evs = [] \/ evs = [Fetch cur] \/ evs = [Fetch cur; Analyze cur] -> fetches evs <= 1.
Proof. intros [->|[->| ->]]; unfold fetches; simpl; lia. Qed.

Lemma seq_Inv_step baseDomain start cur rest st st' :
  Inv baseDomain start st -> pendingUrls st = cur :: rest ->
  step_spec baseDomain cur rest st st' -> Inv baseDomain start st'.
Proof.
  intros I P (added & prods & evs & Hv & Hp & Hn & Hin & Hf & Hs & Hpn & Hpin & Hh & He).
  destruct I as [Iv Ip Ipv Is Id If Isn Ic In_].
  rewrite P in *.
  assert (Hrest : NoDup rest) by (inversion Ip; assumption).
  assert (Hcur : ~ In cur rest) by (inversion Ip; assumption).
  constructor.
  - rewrite Hv. apply NoDup_app; [exact Iv|exact Hn|].
    intros x Hx Hx'. apply Hin in Hx'. destruct Hx' as [Hx' _]. exact (Hx' Hx).
  - rewrite Hp. apply NoDup_app; [exact Hrest|exact Hn|].
    intros x Hx Hx'. apply Hin in Hx'. destruct Hx' as [Hx' _].
    apply Hx'. apply Ipv. right. exact Hx.
  - rewrite Hp, Hv. intros x Hx. apply in_app_or in Hx. apply in_or_app.
    destruct Hx as [Hx|Hx]; [left; apply Ipv; right; exact Hx|right; exact Hx].
  - rewrite Hv. apply in_or_app. left. exact Is.
  - rewrite Hv. intros x Hx. apply in_app_or in Hx.
    destruct Hx as [Hx|Hx]; [apply Id; exact Hx|right; apply Hin; exact Hx].
  - rewrite Hf, Hs, map_app, If. reflexivity.
  - rewrite Hs. apply NoDup_app; [exact Isn|exact Hpn|].
    intros x Hx Hx'. apply in_map_iff in Hx'. destruct Hx' as [p [<- Hp']].
    exact (Hpin p Hp' Hx).
  - rewrite Hh, Hv, Hp. intros u Hu.
    assert (Hold : In (Fetch u) (history st) \/ In (Analyze u) (history st) \/ u = cur).
    { destruct Hu as [Hu|Hu]; apply in_app_or in Hu; destruct Hu as [Hu|Hu]; auto;
        destruct He as [->|[->| ->]]; simpl in Hu;
        repeat match goal with
               | H : _ \/ _ |- _ => destruct H
               | H : False |- _ => destruct H
               | H : Fetch _ = Fetch _ |- _ => inversion H; clear H; subst
               | H : Analyze _ = Analyze _ |- _ => inversion H; clear H; subst
               | H : Fetch _ = Analyze _ |- _ => discriminate H
               | H : Analyze _ = Fetch _ |- _ => discriminate H
               end; auto. }
    assert (Hu' : In u (visited st) /\ ~ In u rest).
    { destruct Hold as [H|[H| ->]].
      - destruct (Ic u (or_introl H)) as [A B]. split; [exact A|].
        intros C. apply B. right. exact C.
      - destruct (Ic u (or_intror H)) as [A B]. split; [exact A|].
        intros C. apply B. right. exact C.
      - split; [apply Ipv; left; reflexivity|exact Hcur]. }
    destruct Hu' as [A B]. split; [apply in_or_app; left; exact A|].
    intros C. apply in_app_or in C. destruct C as [C|C]; [exact (B C)|].
    apply Hin in C. destruct C as [C _]. exact (C A).
  - rewrite Hh, Hv, Hp, fetches_app, !length_app.
    pose proof (fetches_step cur evs He). simpl in In_. lia.
Qed.

Lemma seq_Inv_reachable w baseDomain start maxPages st :
  reachable (continue maxPages) (iteration w baseDomain start) (initial start) st ->
  Inv baseDomain start st.
Proof.
  induction 1 as [|st R IH G]; [apply seq_Inv_initial|].
  destruct (seq_continue_pending _ _ G) as (cur & rest & P & _).
  apply (seq_Inv_step baseDomain start cur rest st); [exact IH|exact P|].
  apply seq_iteration_spec. exact P.
Qed.


(** Fewer navigations than the page budget. *)
Lemma fetches_bounded w baseDomain start maxPages st :
  reachable (continue maxPages) (iteration w baseDomain start) (initial start) st ->
  fetches (history st) = 0 \/ (Z.of_nat (fetches (history st)) < maxPages)%Z.
Proof.
  induction 1 as [|st R IH G]; [left; reflexivity|].
  right.
  pose proof (seq_Inv_reachable _ _ _ _ _ R) as I.
  destruct (seq_continue_pending _ _ G) as (cur & rest & P & V).
  destruct (seq_iteration_spec w baseDomain start cur rest st P)
    as (added & prods & evs & _ & _ & _ & _ & _ & _ & _ & _ & Hh & He).
  rewrite Hh, fetches_app. pose proof (fetches_step cur evs He).
  pose proof (fetch_count _ _ _ I) as C. rewrite P in C. simpl in C. lia.
Qed.

End SeqInv.

(** ** Stable insertion sort *)

Section Sorting.

Context {A : Type} (gt : A -> A -> bool).

Lemma insert_by_perm x l : Permutation (insert_by gt x l) (x :: l).
Proof.
  induction l as [|y l IH]; simpl; [apply Permutation_refl|].
  destruct (gt x y); [|apply Permutation_refl].
  apply perm_trans with (y :: x :: l); [apply perm_skip; exact IH|apply perm_swap].
Qed.

Lemma sort_by_perm l : Permutation (sort_by gt l) l.
Proof.
  induction l as [|x l IH]; simpl; [apply perm_nil|].
  apply perm_trans with (x :: sort_by gt l); [apply insert_by_perm|].
  apply perm_skip. exact IH.
Qed.

(** Sorting a list that is in order leaves it as it is. *)
Lemma sort_by_ordered l : ordered gt l -> sort_by gt l = l.
Proof.
  induction l as [|x l IH]; simpl; [reflexivity|].
  intros [H O]. change (fold_right (insert_by gt) [] l) with (sort_by gt l).
  rewrite (IH O). destruct l as [|y l]; [reflexivity|]. simpl. rewrite H. reflexivity.
Qed.

Hypothesis gt_trans : forall a b c, gt a b = false -> gt b c = false -> gt a c = false.

Hypothesis gt_asym : forall a b, gt a b = true -> gt b a = false.

Lemma insert_by_sorted x l :
  StronglySorted (fun a b => gt a b = false) l ->
  StronglySorted (fun a b => gt a b = false) (insert_by gt x l).
Proof.
  induction 1 as [|y l S IH F]; simpl; [repeat constructor|].
  destruct (gt x y) eqn:G.
  - constructor; [exact IH|].
    eapply Permutation_Forall.
    + apply Permutation_sym, insert_by_perm.
    + constructor; [apply gt_asym; exact G|exact F].
  - constructor; [constructor; assumption|].
    constructor; [exact G|].
    eapply Forall_impl; [|exact F]. intros z Hz. eapply gt_trans; eassumption.
Qed.

Lemma sort_by_sorted l : StronglySorted (fun a b => gt a b = false) (sort_by gt l).
Proof.
  induction l as [|x l IH]; simpl; [constructor|]. apply insert_by_sorted. exact IH.
Qed.

End Sorting.

Lemma StronglySorted_app_cross {A : Type} (R : A -> A -> Prop) l1 l2 :
  StronglySorted R (l1 ++ l2) -> forall a b, In a l1 -> In b l2 -> R a b.
Proof.
  induction l1 as [|x l1 IH]; simpl; intros S a b Ha Hb; [contradiction|].
  inversion S as [|? ? S' F]; subst. destruct Ha as [<-|Ha].
  - rewrite Forall_forall in F. apply F. apply in_or_app. right. exact Hb.
  - apply IH; assumption.
Qed.

Lemma firstn_In {A : Type} n (l : list A) x : In x (firstn n l) -> In x l.
Proof. intros H. rewrite <- (firstn_skipn n l). apply in_or_app. left. exact H. Qed.

Lemma skipn_In {A : Type} n (l : list A) x : In x (skipn n l) -> In x l.
Proof. intros H. rewrite <- (firstn_skipn n l). apply in_or_app. right. exact H. Qed.

Lemma StronglySorted_firstn {A : Type} (R : A -> A -> Prop) n l :
  StronglySorted R l -> StronglySorted R (firstn n l).
Proof.
  intros S. revert n. induction S as [|x l S IH F]; intros [|n]; simpl; try constructor.
  - apply IH.
  - rewrite Forall_forall in *. intros y Hy. apply F. eapply firstn_In; exact Hy.
Qed.

(** ** [chunk] *)

Lemma chunk_concat_small {T : Type} (l : list T) :
  List.length l <= 5 ->
  List.concat (BatchCrawler.chunk l BatchCrawler.CONCURRENT_CRAWLS) = l.
Proof.
  destruct l as [|a [|b [|c [|d [|e [|f l]]]]]]; simpl; intros H; try reflexivity; lia.
Qed.

(** ** The batched crawler, one task at a time *)

Module BatchFacts.

Import BatchCrawler BatchSpec.

Lemma grows_refl baseDomain urls st : grows baseDomain urls st st.
Proof.
  exists [], [], []. simpl. rewrite !app_nil_r.
  repeat split; try contradiction; try apply NoDup_nil.
Qed.

Lemma grows_trans baseDomain urls st1 st2 st3 :
  grows baseDomain urls st1 st2 -> grows baseDomain urls st2 st3 ->
  grows baseDomain urls st1 st3.
Proof.
  intros (a1 & p1 & e1 & Hv1 & Hq1 & Hn1 & Hi1 & Hf1 & Hs1 & Hpn1 & Hpi1 & Hh1 & He1)
         (a2 & p2 & e2 & Hv2 & Hq2 & Hn2 & Hi2 & Hf2 & Hs2 & Hpn2 & Hpi2 & Hh2 & He2).
  exists (a1 ++ a2), (p1 ++ p2), (e1 ++ e2).
  rewrite Hv2, Hq2, Hf2, Hs2, Hh2, Hv1, Hq1, Hf1, Hs1, Hh1, !map_app, <- !app_assoc.
  repeat split.
  - apply NoDup_app; [exact Hn1|exact Hn2|].
    intros x Hx Hx'. apply in_map_iff in Hx'. destruct Hx' as [e [<- He]].
    apply Hi2 in He. destruct He as [He _]. apply He. rewrite Hv1.
    apply in_or_app. right. exact Hx.
  - apply in_app_or in H. destruct H as [H|H]; [apply Hi1; exact H|].
    apply Hi2 in H. destruct H as [H _]. intros C. apply H. rewrite Hv1.
    apply in_or_app. left. exact C.
  - apply in_app_or in H. destruct H as [H|H]; [apply Hi1; exact H|apply Hi2; exact H].
  - apply NoDup_app; [exact Hpn1|exact Hpn2|].
    intros x Hx Hx'. apply in_map_iff in Hx'. destruct Hx' as [p [<- Hp]].
    apply Hpi2 in Hp. apply Hp. rewrite Hs1. apply in_or_app. right. exact Hx.
  - intros p Hp. apply in_app_or in Hp. destruct Hp as [Hp|Hp]; [apply Hpi1; exact Hp|].
    apply Hpi2 in Hp. intros C. apply Hp. rewrite Hs1. apply in_or_app. left. exact C.
  - intros e He. apply in_app_or in He. destruct He as [He|He]; [apply He1|apply He2]; exact He.
Qed.

Lemma batch_enqueue_fold l : forall st,
    exists added,
      visited (fold_left enqueue l st) = visited st ++ map PendingUrl.url added
      /\ pendingUrls (fold_left enqueue l st) = pendingUrls st ++ added
      /\ found (fold_left enqueue l st) = found st
      /\ seenProductUrls (fold_left enqueue l st) = seenProductUrls st
      /\ history (fold_left enqueue l st) = history st
      /\ NoDup (map PendingUrl.url added)
      /\ (forall e, In e added -> In e l /\ ~ In (PendingUrl.url e) (visited st)).
Proof.
  induction l as [|a l IH]; intros st; simpl.
  - exists []. simpl. rewrite !app_nil_r. repeat split; try constructor; contradiction.
  - unfold enqueue at 2 4 6 8 10. unfold Set_has.
    destruct (mem (PendingUrl.url a) (visited st)) eqn:M.
    + destruct (IH st) as [added (Hv & Hp & Hf & Hs & Hh & Hn & Hin)].
      exists added. repeat split; try assumption.
      * right. apply Hin. assumption.
      * apply Hin. assumption.
    + apply mem_false in M.
      match goal with |- context [fold_left enqueue l ?s] =>
        destruct (IH s) as [added (Hv & Hp & Hf & Hs & Hh & Hn & Hin)] end.
      simpl in *. exists (a :: added).
      rewrite Hv, Hp, <- !app_assoc. simpl. repeat split; try assumption.
      * constructor; [|exact Hn]. intros Ha. apply in_map_iff in Ha.
        destruct Ha as [e [E He]]. apply Hin in He. destruct He as [_ He].
        apply He. rewrite E. apply in_or_app. right. left. reflexivity.
      * destruct H as [<-|H]; [left; reflexivity|right; apply Hin; exact H].
      * destruct H as [<-|H]; [exact M|].
        apply Hin in H. destruct H as [_ H]. intros Hx. apply H.
        apply in_or_app. left. exact Hx.
Qed.

Lemma grows_enqueue_fold baseDomain urls l st :
  (forall e, In e l -> getBaseDomain (PendingUrl.url e) = baseDomain) ->
  grows baseDomain urls st (fold_left enqueue l st).
Proof.
  intros D. destruct (batch_enqueue_fold l st) as [added (Hv & Hp & Hf & Hs & Hh & Hn & Hin)].
  exists added, [], []. simpl. rewrite Hv, Hp, Hf, Hs, Hh, !app_nil_r.
  repeat split; try contradiction; try apply NoDup_nil; try assumption.
  - apply Hin. exact H.
  - apply D. apply Hin. exact H.
Qed.

Lemma grows_analysed baseDomain urls u pa st :
  In u urls -> grows baseDomain urls st (cache_set u pa (record (Analyze u) st)).
Proof.
  intros U. exists [], [], [Analyze u]. simpl. rewrite !app_nil_r.
  repeat split; try contradiction; try apply NoDup_nil.
  intros e [<-|[]]. exists u. split; [exact U|reflexivity].
Qed.

Lemma grows_keep_product baseDomain urls u pa st st' :
  keep_product u pa st = Some st' -> grows baseDomain urls st st'.
Proof.
  unfold keep_product. intros H.
  destruct (product pa) as [p|]; [|inversion H; subst; apply grows_refl].
  destruct (String.eqb (pageType pa) "product"); [|inversion H; subst; apply grows_refl].
  destruct (normalizeUrl u) as [npu|]; [|discriminate].
  unfold Set_has in H. destruct (mem npu (seenProductUrls st)) eqn:M.
  - inversion H; subst. apply grows_refl.
  - inversion H; subst; clear H. exists [], [with_url npu p], []. simpl.
    rewrite !app_nil_r. repeat split; try contradiction; try apply NoDup_nil.
    + constructor; [intros []|constructor].
    + intros q [<-|[]]. simpl. apply mem_false. exact M.
Qed.

(** [processNewUrls] link by link. *)
Lemma processUrl_acc baseUrl baseDomain visitedUrls priority acc a :
  processUrl baseUrl baseDomain visitedUrls priority acc a
  = acc ++ processUrl baseUrl baseDomain visitedUrls priority [] a.
Proof.
  unfold processUrl. destruct (resolve baseUrl a) as [n|]; [|rewrite app_nil_r; reflexivity].
  destruct (String.eqb (getBaseDomain n) baseDomain && negb (Set_has visitedUrls n));
    [reflexivity|rewrite app_nil_r; reflexivity].
Qed.

Lemma processUrl_fold baseUrl baseDomain visitedUrls priority l : forall acc,
    fold_left (processUrl baseUrl baseDomain visitedUrls priority) l acc
    = acc ++ flat_map (processUrl baseUrl baseDomain visitedUrls priority []) l.
Proof.
  induction l as [|a l IH]; intros acc; simpl; [rewrite app_nil_r; reflexivity|].
  rewrite IH, processUrl_acc, <- app_assoc. reflexivity.
Qed.

Lemma processNewUrls_eq links baseUrl baseDomain visitedUrls pa :
  processNewUrls links baseUrl baseDomain visitedUrls pa
  = flat_map (processUrl baseUrl baseDomain visitedUrls 3 []) (or_empty (productLinks pa))
    ++ flat_map (processUrl baseUrl baseDomain visitedUrls 2 []) (or_empty (paginationLinks pa))
    ++ flat_map (processUrl baseUrl baseDomain visitedUrls 2 []) (or_empty (categoryLinks pa))
    ++ flat_map (processUrl baseUrl baseDomain visitedUrls 1 []) (or_empty (otherRelevantLinks pa)).
Proof.
  unfold processNewUrls, forEach.
  destruct (productLinks pa), (paginationLinks pa), (categoryLinks pa),
    (otherRelevantLinks pa); simpl;
    rewrite ?processUrl_fold, ?app_nil_r, <- ?app_assoc; reflexivity.
Qed.

Lemma processUrl_In baseUrl baseDomain visitedUrls priority l e :
  In e (flat_map (processUrl baseUrl baseDomain visitedUrls priority []) l) <->
  PendingUrl.priority e = priority
  /\ getBaseDomain (PendingUrl.url e) = baseDomain
  /\ ~ In (PendingUrl.url e) visitedUrls
  /\ exists link, In link l /\ resolve baseUrl link = Some (PendingUrl.url e).
Proof.
  rewrite in_flat_map. unfold processUrl, Set_has. split.
  - intros [link [Hl He]]. destruct (resolve baseUrl link) as [n|] eqn:R; [|contradiction].
    destruct (String.eqb (getBaseDomain n) baseDomain) eqn:D; [|contradiction].
    destruct (mem n visitedUrls) eqn:M; [contradiction|].
    destruct He as [<-|[]]. simpl. apply String.eqb_eq in D. apply mem_false in M.
    repeat split; try assumption. exists link. split; assumption.
  - intros (P & D & M & link & Hl & R). exists link. split; [exact Hl|].
    rewrite R. apply String.eqb_eq in D. apply mem_false in M. rewrite D, M. simpl.
    left. destruct e; simpl in *. subst. reflexivity.
Qed.

Lemma processNewUrls_domain links baseUrl baseDomain visitedUrls pa e :
  In e (processNewUrls links baseUrl baseDomain visitedUrls pa) ->
  getBaseDomain (PendingUrl.url e) = baseDomain.
Proof.
  rewrite processNewUrls_eq. intros H.
  repeat (apply in_app_or in H; destruct H as [H|H]);
    apply processUrl_In in H; apply H.
Qed.

Lemma finish_grows w baseDomain urls task st :
  In (fst task) urls -> grows baseDomain urls st (finish w baseDomain task st).
Proof.
  intros U. unfold finish. destruct (snd task) as [[pr|]|e]; try apply grows_refl.
  set (analysed := match cache_get (urlCache st) (fst task) with
                   | Some pa => (pa, st)
                   | None => _
                   end).
  assert (G1 : grows baseDomain urls st (snd analysed)).
  { subst analysed. destruct (cache_get (urlCache st) (fst task)); simpl;
      [apply grows_refl|apply grows_analysed; exact U]. }
  destruct (keep_product (fst task) (fst analysed) (snd analysed)) as [st2|] eqn:K;
    [|exact G1].
  eapply grows_trans; [exact G1|].
  eapply grows_trans; [eapply grows_keep_product; exact K|].
  apply grows_enqueue_fold. intros e He. eapply processNewUrls_domain. exact He.
Qed.

Lemma settle_grows w baseDomain urls n : forall tasks st,
    (forall t, In t tasks -> In (fst t) urls) ->
    grows baseDomain urls st (settle w baseDomain n tasks st).
Proof.
  induction n as [|n IH]; intros tasks st U; cbn [settle]; [apply grows_refl|].
  match goal with |- context [match ?x with Some _ => _ | None => _ end] =>
    destruct x as [task|] eqn:N end; [|apply grows_refl].
  eapply grows_trans.
  - apply finish_grows. apply U. eapply nth_error_In. exact N.
  - apply IH. intros t Ht. apply U. apply in_app_or in Ht.
    destruct Ht as [Ht|Ht]; [eapply firstn_In|eapply skipn_In]; exact Ht.
Qed.

End BatchFacts.

(** ** The batched crawler: one iteration, and what holds at every head of
    the loop *)

Module BatchInv.

Import BatchCrawler BatchSpec BatchFacts.

Lemma start_fold w l : forall st tasks,
    exists evs,
      history (fst (fold_left (start w) l (st, tasks))) = history st ++ evs
      /\ visited (fst (fold_left (start w) l (st, tasks))) = visited st
      /\ pendingUrls (fst (fold_left (start w) l (st, tasks))) = pendingUrls st
      /\ found (fst (fold_left (start w) l (st, tasks))) = found st
      /\ seenProductUrls (fst (fold_left (start w) l (st, tasks))) = seenProductUrls st
      /\ (forall e, In e evs -> exists u, In u (map PendingUrl.url l) /\ e = Fetch u)
      /\ fetches evs <= List.length l
      /\ (forall t, In t (snd (fold_left (start w) l (st, tasks))) ->
            In t tasks \/ In (fst t) (map PendingUrl.url l)).
Proof.
  induction l as [|p l IH]; intros st tasks; simpl.
  - exists []. rewrite app_nil_r. repeat split; auto. contradiction.
  - unfold start at 2 4 6 8 10 12. simpl.
    destruct (isResourceUrl (PendingUrl.url p)).
    + destruct (IH st tasks) as [evs (Hh & Hv & Hp & Hf & Hs & He & Hc & Ht)].
      exists evs. repeat split; try assumption.
      * intros e H. destruct (He e H) as [u [Hu E]]. exists u. split; [right|]; assumption.
      * lia.
      * intros t H. destruct (Ht t H) as [H'|H']; [left|right; right]; assumption.
    + match goal with |- context [fold_left (start w) l (?s, ?ts)] =>
        destruct (IH s ts) as [evs (Hh & Hv & Hp & Hf & Hs & He & Hc & Ht)] end.
      simpl in *. exists (Fetch (PendingUrl.url p) :: evs).
      rewrite Hh, <- app_assoc. repeat split; try assumption.
      * intros e [<-|H]; [exists (PendingUrl.url p); split; [left|]; reflexivity|].
        destruct (He e H) as [u [Hu E]]. exists u. split; [right|]; assumption.
      * change (Fetch (PendingUrl.url p) :: evs) with ([Fetch (PendingUrl.url p)] ++ evs).
        rewrite fetches_app. unfold fetches at 1. simpl. lia.
      * intros t H. destruct (Ht t H) as [H'|H']; [|right; right; exact H'].
        apply in_app_or in H'. destruct H' as [H'|[<-|[]]]; [left; exact H'|].
        right. left. reflexivity.
Qed.

Lemma fetches_analyses urls evs :
  (forall e, In e evs -> exists u : string, In u urls /\ e = Analyze u) -> fetches evs = 0.
Proof.
  induction evs as [|e evs IH]; intros H; [reflexivity|].
  destruct (H e (or_introl eq_refl)) as [u [_ ->]].
  unfold fetches in *. simpl. apply IH. intros e' He'. apply H. right. exact He'.
Qed.

Lemma batch_iteration_spec w baseDomain st :
  step_spec baseDomain st (iteration w baseDomain st).
Proof.
  unfold iteration.
  set (sorted := sort_by priority_gt (pendingUrls st)).
  set (batch := firstn BATCH_SIZE sorted).
  assert (Hlen : List.length batch <= 5).
  { subst batch. rewrite length_firstn. unfold BATCH_SIZE. lia. }
  rewrite (chunk_concat_small batch Hlen).
  destruct (start_fold w batch (set_pending (skipn BATCH_SIZE sorted) st) [])
    as [evs1 (Hh & Hv & Hp & Hf & Hs & He & Hc & Ht)].
  set (started := fold_left (start w) batch (set_pending (skipn BATCH_SIZE sorted) st, [])) in *.
  assert (Hurls : forall t, In t (snd started) -> In (fst t) (map PendingUrl.url batch)).
  { intros t H. destruct (Ht t H) as [[]|H']. exact H'. }
  destruct (settle_grows w baseDomain (map PendingUrl.url batch)
              (List.length (snd started)) (snd started) (fst started) Hurls)
    as (added & prods & evs2 & Gv & Gp & Gn & Gi & Gf & Gs & Gpn & Gpi & Gh & Ge).
  exists batch, (skipn BATCH_SIZE sorted), added, prods, (evs1 ++ evs2).
  rewrite Gv, Gp, Gf, Gs, Gh, Hv, Hp, Hf, Hs, Hh, <- app_assoc. simpl.
  repeat split; try assumption.
  - subst batch. rewrite firstn_skipn. apply sort_by_perm.
  - subst batch. rewrite length_firstn. subst sorted.
    rewrite (Permutation_length (sort_by_perm priority_gt (pendingUrls st))). reflexivity.
  - apply Gi in H. destruct H as [H _]. rewrite Hv in H. exact H.
  - apply Gi in H. apply H.
  - intros p Hp'. apply Gpi in Hp'. rewrite Hs in Hp'. exact Hp'.
  - intros e H. apply in_app_or in H. destruct H as [H|H].
    + destruct (He e H) as [u [Hu E]]. exists u. split; [exact Hu|left; exact E].
    + destruct (Ge e H) as [u [Hu E]]. exists u. split; [exact Hu|right; exact E].
  - rewrite fetches_app, (fetches_analyses _ _ Ge). lia.
Qed.

Lemma batch_Inv_initial baseDomain start : Inv baseDomain start (initial start).
Proof.
  constructor; simpl.
  - repeat constructor. intros [].
  - repeat constructor. intros [].
  - apply incl_refl.
  - left. reflexivity.
  - intros x [<-|[]]. left. reflexivity.
  - reflexivity.
  - constructor.
  - intros u [[]|[]].
  - unfold fetches. simpl. lia.
Qed.

Lemma batch_Inv_step baseDomain start st st' :
  Inv baseDomain start st -> step_spec baseDomain st st' -> Inv baseDomain start st'.
Proof.
  intros I (batch & rest & added & prods & evs & Hperm & Hlen & Hv & Hp & Hn & Hin
            & Hf & Hs & Hpn & Hpin & Hh & He & Hc).
  destruct I as [Iv Ip Ipv Is Id If Isn Ic In_].
  assert (Pu : Permutation (map PendingUrl.url batch ++ map PendingUrl.url rest)
                           (map PendingUrl.url (pendingUrls st))).
  { rewrite <- map_app. apply Permutation_map. exact Hperm. }
  assert (Nbr : NoDup (map PendingUrl.url batch ++ map PendingUrl.url rest)).
  { eapply Permutation_NoDup; [apply Permutation_sym; exact Pu|exact Ip]. }
  assert (Hrest : NoDup (map PendingUrl.url rest)) by (eapply NoDup_app_remove_l; exact Nbr).
  assert (Hsub : forall x, In x (map PendingUrl.url batch ++ map PendingUrl.url rest) ->
                           In x (visited st)).
  { intros x Hx. apply Ipv. eapply Permutation_in; [exact Pu|exact Hx]. }
  assert (Hdisj : forall x, In x (map PendingUrl.url batch) ->
                            ~ In x (map PendingUrl.url rest)).
  { intros x Hb Hr. revert Hb Hr. clear -Nbr.
    induction (map PendingUrl.url batch) as [|y l IH]; simpl in *; [contradiction|].
    inversion Nbr; subst. intros [<-|Hb] Hr.
    - apply H1. apply in_or_app. right. exact Hr.
    - apply IH; assumption. }
  constructor.
  - rewrite Hv. apply NoDup_app; [exact Iv|exact Hn|].
    intros x Hx Hx'. apply in_map_iff in Hx'. destruct Hx' as [e [<- Hx']].
    apply Hin in Hx'. destruct Hx' as [Hx' _]. exact (Hx' Hx).
  - rewrite Hp, map_app. apply NoDup_app; [exact Hrest|exact Hn|].
    intros x Hx Hx'. apply in_map_iff in Hx'. destruct Hx' as [e [<- Hx']].
    apply Hin in Hx'. destruct Hx' as [Hx' _].
    apply Hx'. apply Hsub. apply in_or_app. right. exact Hx.
  - rewrite Hp, Hv, map_app. intros x Hx. apply in_app_or in Hx. apply in_or_app.
    destruct Hx as [Hx|Hx]; [left; apply Hsub; apply in_or_app; right; exact Hx|right; exact Hx].
  - rewrite Hv. apply in_or_app. left. exact Is.
  - rewrite Hv. intros x Hx. apply in_app_or in Hx.
    destruct Hx as [Hx|Hx]; [apply Id; exact Hx|].
    apply in_map_iff in Hx. destruct Hx as [e [<- Hx]]. right. apply Hin. exact Hx.
  - rewrite Hf, Hs, map_app, If. reflexivity.
  - rewrite Hs. apply NoDup_app; [exact Isn|exact Hpn|].
    intros x Hx Hx'. apply in_map_iff in Hx'. destruct Hx' as [p [<- Hp']].
    exact (Hpin p Hp' Hx).
  - rewrite Hh, Hv, Hp, map_app. intros u Hu.
    assert (Hu' : In u (visited st) /\ ~ In u (map PendingUrl.url rest)).
    { assert (Hold : (In (Fetch u) (history st) \/ In (Analyze u) (history st))
                     \/ In u (map PendingUrl.url batch)).
      { destruct Hu as [Hu|Hu]; apply in_app_or in Hu; destruct Hu as [Hu|Hu]; auto;
          right; destruct (He _ Hu) as [u' [Hu' [E|E]]]; inversion E; subst; exact Hu'. }
      destruct Hold as [H|H].
      - destruct (Ic u H) as [A B]. split; [exact A|]. intros C. apply B.
        eapply Permutation_in; [exact Pu|]. apply in_or_app. right. exact C.
      - split; [apply Hsub; apply in_or_app; left; exact H|apply Hdisj; exact H]. }
    destruct Hu' as [A B]. split; [apply in_or_app; left; exact A|].
    intros C. apply in_app_or in C. destruct C as [C|C]; [exact (B C)|].
    apply in_map_iff in C. destruct C as [e [<- C]].
    apply Hin in C. destruct C as [C _]. exact (C A).
  - rewrite Hh, Hv, Hp, fetches_app, !length_app, length_map.
    pose proof (Permutation_length Hperm) as L. rewrite length_app in L. lia.
Qed.

Lemma batch_Inv_reachable w baseDomain start maxPages st :
  reachable (continue maxPages) (iteration w baseDomain) (initial start) st ->
  Inv baseDomain start st.
Proof.
  induction 1 as [|st R IH G]; [apply batch_Inv_initial|].
  apply (batch_Inv_step baseDomain start st); [exact IH|apply batch_iteration_spec].
Qed.

Lemma batch_continue_pending maxPages st :
  continue maxPages st = true ->
  0 < List.length (pendingUrls st)
  /\ (Z.of_nat (List.length (visited st)) < maxPages)%Z.
Proof.
  unfold continue. rewrite andb_true_iff, Z.ltb_lt, Nat.ltb_lt. tauto.
Qed.

Lemma batch_iteration_decreases w baseDomain maxPages st :
  continue maxPages st = true ->
  enough maxPages (List.length (visited (iteration w baseDomain st)))
         (List.length (pendingUrls (iteration w baseDomain st)))
  < enough maxPages (List.length (visited st)) (List.length (pendingUrls st)).
Proof.
  intros G. destruct (batch_continue_pending _ _ G) as [P V].
  destruct (batch_iteration_spec w baseDomain st)
    as (batch & rest & added & _ & _ & Hperm & Hlen & Hv & Hp & _).
  pose proof (Permutation_length Hperm) as L. rewrite length_app in L.
  rewrite Hv, Hp, !length_app, length_map. unfold enough, BATCH_SIZE in *.
  destruct (Z.ltb_spec (Z.of_nat (List.length (visited st))) maxPages); [|lia].
  destruct (Z.ltb_spec (Z.of_nat (List.length (visited st) + List.length added)) maxPages); lia.
Qed.

Lemma batch_crawl_loop_runs w baseDomain maxPages st :
  while_run (continue maxPages) (iteration w baseDomain) st
            (crawl_loop w baseDomain maxPages st).
Proof.
  unfold crawl_loop.
  apply (iterate_runs _ _
           (fun s => enough maxPages (List.length (visited s)) (List.length (pendingUrls s)))).
  - intros s G. apply batch_iteration_decreases. exact G.
  - apply Nat.le_refl.
Qed.


End BatchInv.

(** ** Strings *)

Module StringFacts.

(** A property of characters that a table look-up decides. *)
Lemma ascii_forall (f : ascii -> bool) :
  forallb f all_ascii = true -> forall c, f c = true.
Proof.
  intros H c. rewrite forallb_forall in H. apply H.
  unfold all_ascii. rewrite <- (ascii_nat_embedding c).
  apply in_map. apply in_seq. pose proof (nat_ascii_bounded c). lia.
Qed.

Lemma app_nil_r_s (s : string) : (s ++ "")%string = s.
Proof. induction s as [|c s IH]; simpl; [reflexivity|rewrite IH; reflexivity]. Qed.

Lemma app_assoc_s (a b c : string) : ((a ++ b) ++ c)%string = (a ++ (b ++ c))%string.
Proof. induction a as [|x a IH]; simpl; [reflexivity|rewrite IH; reflexivity]. Qed.

Lemma lower_app a b : toLowerCase (a ++ b) = (toLowerCase a ++ toLowerCase b)%string.
Proof. induction a as [|x a IH]; simpl; [reflexivity|rewrite IH; reflexivity]. Qed.

Lemma lower_char_idem : forall c, lower_char (lower_char c) = lower_char c.
Proof.
  intros c. apply Ascii.eqb_eq. revert c.
  apply ascii_forall. vm_compute. reflexivity.
Qed.

Lemma lower_idem s : toLowerCase (toLowerCase s) = toLowerCase s.
Proof.
  induction s as [|c s IH]; simpl; [reflexivity|].
  rewrite lower_char_idem, IH. reflexivity.
Qed.

Lemma lower_empty s : toLowerCase s = "" -> s = "".
Proof. destruct s; simpl; [reflexivity|discriminate]. Qed.

Lemma sall_app p a b : sall p (a ++ b) = sall p a && sall p b.
Proof.
  induction a as [|x a IH]; simpl; [reflexivity|].
  rewrite IH, andb_assoc. reflexivity.
Qed.

Lemma sall_impl (p q : ascii -> bool) s :
  (forall c, p c = true -> q c = true) -> sall p s = true -> sall q s = true.
Proof.
  intros H. induction s as [|c s IH]; simpl; [reflexivity|].
  rewrite !andb_true_iff. intros [A B]. split; [apply H; exact A|apply IH; exact B].
Qed.

Lemma sall_lower (p : ascii -> bool) s :
  (forall c, p c = true -> p (lower_char c) = true) ->
  sall p s = true -> sall p (toLowerCase s) = true.
Proof.
  intros H. induction s as [|c s IH]; simpl; [reflexivity|].
  rewrite !andb_true_iff. intros [A B]. split; [apply H; exact A|apply IH; exact B].
Qed.

(** Lower-casing leaves a string without upper-case letters alone. *)
Lemma lower_fixed s : sall (fun c => negb (is_upper c)) s = true -> toLowerCase s = s.
Proof.
  induction s as [|c s IH]; simpl; [reflexivity|].
  rewrite andb_true_iff. intros [A B]. rewrite (IH B). unfold lower_char.
  destruct (is_upper c); [discriminate|reflexivity].
Qed.

Lemma lower_no_upper s : sall (fun c => negb (is_upper c)) (toLowerCase s) = true.
Proof.
  induction s as [|c s IH]; simpl; [reflexivity|]. rewrite IH, andb_true_r.
  revert c. apply ascii_forall. vm_compute. reflexivity.
Qed.

Lemma break_app p a b :
  sall (fun c => negb (p c)) a = true ->
  match b with String c _ => p c = true | EmptyString => True end ->
  break p (a ++ b) = (a, b).
Proof.
  induction a as [|x a IH]; simpl; intros A B.
  - destruct b as [|c b]; simpl; [reflexivity|]. rewrite B. reflexivity.
  - apply andb_true_iff in A. destruct A as [A1 A2].
    destruct (p x); [discriminate|]. rewrite (IH A2 B). reflexivity.
Qed.

Lemma break_none p a :
  sall (fun c => negb (p c)) a = true -> break p a = (a, "").
Proof.
  intros A. rewrite <- (app_nil_r_s a) at 1. apply break_app; [exact A|exact I].
Qed.

Lemma break_fst_free p s : sall (fun c => negb (p c)) (fst (break p s)) = true.
Proof.
  induction s as [|c s IH]; simpl; [reflexivity|].
  destruct (p c) eqn:E; simpl; [reflexivity|]. rewrite E, IH. reflexivity.
Qed.

Lemma break_eq p s : (fst (break p s) ++ snd (break p s))%string = s.
Proof.
  induction s as [|c s IH]; simpl; [reflexivity|].
  destruct (p c); simpl; [reflexivity|]. rewrite IH. reflexivity.
Qed.

Lemma drop_while_fixed p s :
  match s with String c _ => p c = false | EmptyString => True end ->
  drop_while p s = s.
Proof. destruct s as [|c s]; simpl; [reflexivity|]. intros ->. reflexivity. Qed.

Lemma strip_trailing_fixed p s :
  sall (fun c => negb (p c)) s = true -> strip_trailing p s = s.
Proof.
  induction s as [|c s IH]; simpl; [reflexivity|].
  rewrite andb_true_iff. intros [A B]. rewrite (IH B).
  destruct s; [|reflexivity]. destruct (p c); [discriminate|reflexivity].
Qed.

Lemma sfilter_fixed p s : sall p s = true -> sfilter p s = s.
Proof.
  induction s as [|c s IH]; simpl; [reflexivity|].
  rewrite andb_true_iff. intros [A B]. rewrite A, (IH B). reflexivity.
Qed.

Lemma split_by_nonnil p s : split_by p s <> [].
Proof. destruct s as [|c s]; simpl; [discriminate|]. destruct (p c); discriminate. Qed.

Lemma split_by_free p s :
  sall (fun c => negb (p c)) s = true -> split_by p s = [s].
Proof.
  induction s as [|c s IH]; simpl; [reflexivity|].
  rewrite andb_true_iff. intros [A B]. rewrite (IH B).
  destruct (p c); [discriminate|reflexivity].
Qed.

(** Splitting what [join] made of separator-free, and at least one, pieces. *)
Lemma split_by_app p a b :
  sall (fun c => negb (p c)) a = true ->
  split_by p (a ++ b) = (a ++ hd "" (split_by p b))%string :: tl (split_by p b).
Proof.
  induction a as [|x a IH]; simpl; intros A.
  - pose proof (split_by_nonnil p b). destruct (split_by p b); [contradiction|reflexivity].
  - apply andb_true_iff in A. destruct A as [A1 A2].
    destruct (p x); [discriminate|]. rewrite (IH A2). reflexivity.
Qed.

Lemma split_by_pieces : forall (p : ascii -> bool) (sep : ascii),
  p sep = true -> forall (l : list string) (s : string),
  Forall (fun x => sall (fun c => negb (p c)) x = true) (s :: l) ->
  split_by p (join (String sep "") (s :: l)) = s :: l.
Proof.
  intros p sep Hsep l. induction l as [|y l IH]; intros s F.
  - simpl. apply split_by_free. inversion F; assumption.
  - inversion F as [|? ? Fs Fl]; subst.
    change (join (String sep "") (s :: y :: l))
      with (s ++ String sep (join (String sep "") (y :: l)))%string.
    rewrite split_by_app by exact Fs.
    assert (E : split_by p (String sep (join (String sep "") (y :: l)))
                = "" :: split_by p (join (String sep "") (y :: l))).
    { cbn [split_by]. rewrite Hsep. reflexivity. }
    rewrite E, (IH y Fl). cbn [hd tl]. rewrite app_nil_r_s. reflexivity.
Qed.

Lemma split_by_all_free p s :
  Forall (fun x => sall (fun c => negb (p c)) x = true) (split_by p s).
Proof.
  induction s as [|c s IH]; simpl; [repeat constructor|].
  destruct (p c) eqn:E; [constructor; [reflexivity|exact IH]|].
  pose proof (split_by_nonnil p s). destruct (split_by p s) as [|x l]; [contradiction|].
  inversion IH; subst. simpl. constructor; [|assumption].
  simpl. rewrite E. simpl. assumption.
Qed.

Lemma split_by_lower p s :
  (forall c, p (lower_char c) = p c) ->
  split_by p (toLowerCase s) = map toLowerCase (split_by p s).
Proof.
  intros H. induction s as [|c s IH]; simpl; [reflexivity|].
  rewrite H, IH. destruct (p c); simpl; [reflexivity|].
  pose proof (split_by_nonnil p s). destruct (split_by p s); [contradiction|reflexivity].
Qed.

End StringFacts.

(** ** Well-formed URL records *)

Module UrlFacts.

Import StringFacts.

(** *** Percent-encoding *)

Section Encode.

Variable set : ascii -> bool.

Variable keep : ascii -> bool.

Hypothesis pct_keep : forall c, sall keep (URL.pct c) = true.

Lemma percent_encode_keeps s :
  sall (fun c => set c || keep c) s = true ->
  sall keep (URL.percent_encode set s) = true.
Proof.
  induction s as [|c s IH]; [reflexivity|].
  cbn [sall URL.percent_encode].
  rewrite andb_true_iff. intros [A B]. destruct (set c) eqn:E.
  - rewrite sall_app, pct_keep, (IH B). reflexivity.
  - simpl in A. cbn [sall]. rewrite A, (IH B). reflexivity.
Qed.

End Encode.

Lemma percent_encode_fixed set s :
  sall (fun c => negb (set c)) s = true -> URL.percent_encode set s = s.
Proof.
  induction s as [|c s IH]; simpl; [reflexivity|].
  rewrite andb_true_iff. intros [A B]. destruct (set c); [discriminate|].
  rewrite (IH B). reflexivity.
Qed.

Lemma pct_seg_char : forall c, sall seg_char (URL.pct c) = true.
Proof. apply ascii_forall. vm_compute. reflexivity. Qed.

Lemma pct_query_char : forall c, sall query_char (URL.pct c) = true.
Proof. apply ascii_forall. vm_compute. reflexivity. Qed.

Lemma pct_fragment_char : forall c, sall fragment_char (URL.pct c) = true.
Proof. apply ascii_forall. vm_compute. reflexivity. Qed.

Lemma sall_true s : sall (fun _ => true) s = true.
Proof. induction s as [|c s IH]; simpl; [reflexivity|exact IH]. Qed.

Lemma encode_query_ok s : sall query_char (URL.percent_encode URL.special_query_set s) = true.
Proof.
  apply percent_encode_keeps; [exact pct_query_char|].
  eapply sall_impl; [|apply sall_true]. intros c _. unfold query_char.
  destruct (URL.special_query_set c); reflexivity.
Qed.

Lemma encode_fragment_ok s : sall fragment_char (URL.percent_encode URL.fragment_set s) = true.
Proof.
  apply percent_encode_keeps; [exact pct_fragment_char|].
  eapply sall_impl; [|apply sall_true]. intros c _. unfold fragment_char.
  destruct (URL.fragment_set c); reflexivity.
Qed.

Lemma encode_path_ok s :
  sall (fun c => negb (URL.is_slash c)) s = true ->
  sall seg_char (URL.percent_encode URL.path_set s) = true.
Proof.
  intros H. apply percent_encode_keeps; [exact pct_seg_char|].
  eapply sall_impl; [|exact H]. intros c Hc. unfold seg_char. rewrite Hc.
  destruct (URL.path_set c); reflexivity.
Qed.

(** *** The path state *)

Lemma Forall_removelast {A : Type} (P : A -> Prop) l : Forall P l -> Forall P (removelast l).
Proof.
  induction 1 as [|x l Hx Hl IH]; simpl; [constructor|].
  destruct l; [constructor|]. constructor; assumption.
Qed.

Lemma seg_ok_empty : seg_ok "" = true.
Proof. reflexivity. Qed.

Lemma path_state_ok : forall segs acc,
    segs <> [] ->
    Forall (fun s => seg_ok s = true) acc ->
    Forall (fun s => sall seg_char s = true) segs ->
    path_ok (URL.path_state acc segs).
Proof.
  assert (Snoc : forall acc s, Forall (fun s => seg_ok s = true) acc -> seg_ok s = true ->
                               path_ok (acc ++ [s])).
  { intros acc s Ha Hs. split; [destruct acc; discriminate|].
    apply Forall_app. split; [exact Ha|repeat constructor; exact Hs]. }
  induction segs as [|s segs IH]; intros acc Hne Ha Hs; [contradiction|].
  inversion Hs as [|? ? Hs1 Hs2]; subst.
  destruct segs as [|s' segs].
  - simpl. destruct (URL.is_double_dot s) eqn:D2.
    + apply Snoc; [apply Forall_removelast; exact Ha|reflexivity].
    + destruct (URL.is_single_dot s) eqn:D1; apply Snoc; try assumption; try reflexivity.
      unfold seg_ok, not_dots. rewrite Hs1, D1, D2. reflexivity.
  - change (URL.path_state acc (s :: s' :: segs))
      with (if URL.is_double_dot s then URL.path_state (removelast acc) (s' :: segs)
            else if URL.is_single_dot s then URL.path_state acc (s' :: segs)
                 else URL.path_state (acc ++ [s]) (s' :: segs)).
    destruct (URL.is_double_dot s) eqn:D2.
    + apply IH; [discriminate|apply Forall_removelast; exact Ha|exact Hs2].
    + destruct (URL.is_single_dot s) eqn:D1.
      * apply IH; [discriminate|exact Ha|exact Hs2].
      * apply IH; [discriminate| |exact Hs2].
        apply Forall_app. split; [exact Ha|]. repeat constructor.
        unfold seg_ok, not_dots. rewrite Hs1, D1, D2. reflexivity.
Qed.

Lemma path_segments_ok s :
  Forall (fun x => sall seg_char x = true) (URL.path_segments s).
Proof.
  unfold URL.path_segments. apply Forall_map.
  eapply Forall_impl; [|apply (split_by_all_free URL.is_slash s)].
  intros x Hx. apply encode_path_ok. exact Hx.
Qed.

Lemma path_segments_nonnil s : URL.path_segments s <> [].
Proof.
  unfold URL.path_segments. pose proof (split_by_nonnil URL.is_slash s).
  destruct (split_by URL.is_slash s); [contradiction|discriminate].
Qed.

Lemma parse_path_ok s : path_ok (URL.parse_path s).
Proof.
  unfold URL.parse_path. apply path_state_ok;
    [apply path_segments_nonnil|constructor|apply path_segments_ok].
Qed.

(** With no dot segment among them, the segments are the path. *)
Lemma path_state_plain : forall segs acc,
    segs <> [] -> Forall (fun s => not_dots s = true) segs ->
    URL.path_state acc segs = acc ++ segs.
Proof.
  induction segs as [|s segs IH]; intros acc Hne F; [contradiction|].
  inversion F as [|? ? F1 F2]; subst. unfold not_dots in F1.
  apply andb_true_iff in F1. destruct F1 as [D1 D2].
  apply negb_true_iff in D1, D2.
  destruct segs as [|s' segs].
  - simpl. rewrite D1, D2. reflexivity.
  - change (URL.path_state acc (s :: s' :: segs))
      with (if URL.is_double_dot s then URL.path_state (removelast acc) (s' :: segs)
            else if URL.is_single_dot s then URL.path_state acc (s' :: segs)
                 else URL.path_state (acc ++ [s]) (s' :: segs)).
    rewrite D1, D2, IH by (discriminate || exact F2). rewrite <- app_assoc. reflexivity.
Qed.

(** *** The parser builds well-formed records *)

Lemma parse_port_ok sch digits p :
  URL.parse_port sch digits = Some p -> port_ok sch p = true.
Proof.
  unfold URL.parse_port. destruct digits as [|c digits]; [intros H; inversion H; reflexivity|].
  destruct (NilEmpty.uint_of_string (String c digits)) as [d|]; [|discriminate].
  destruct (N.of_uint d <=? 65535)%N eqn:L; [|discriminate].
  destruct (N.of_uint d =? URL.default_port sch)%N eqn:D; intros H; inversion H; subst.
  - reflexivity.
  - simpl. rewrite L, D. reflexivity.
Qed.

Lemma parse_host_port_ok sch auth h p :
  URL.parse_host_port sch auth = Some (h, p) ->
  URL.host_ok h = true /\ toLowerCase h = h /\ port_ok sch p = true.
Proof.
  unfold URL.parse_host_port.
  destruct (URL.host_ok (toLowerCase (fst (break (is_char ":") auth)))) eqn:H; [|discriminate].
  destruct (snd (break (is_char ":") auth)) as [|c digits].
  - intros E. inversion E; subst. rewrite lower_idem. auto.
  - destruct (URL.parse_port sch digits) as [q|] eqn:P; [|discriminate].
    intros E. inversion E; subst. rewrite lower_idem.
    repeat split; [exact H|]. eapply parse_port_ok. exact P.
Qed.

Lemma tail_query_ok s : opt_all query_char (URL.tail_query s) = true.
Proof.
  unfold URL.tail_query. destruct (snd (break URL.is_query_or_hash s)) as [|c r]; [reflexivity|].
  destruct c as [[] [] [] [] [] [] [] []]; try reflexivity. apply encode_query_ok.
Qed.

Lemma tail_fragment_ok s : opt_all fragment_char (URL.tail_fragment s) = true.
Proof.
  unfold URL.tail_fragment. destruct (snd (break (is_char "#") s)); [reflexivity|].
  apply encode_fragment_ok.
Qed.

Lemma parse_authority_WF sch s u :
  URL.modelled_scheme sch = true -> URL.parse_authority sch s = Some u -> WF u.
Proof.
  intros M. unfold URL.parse_authority.
  destruct (URL.parse_host_port sch _) as [[h p]|] eqn:HP; [|discriminate].
  intros E. inversion E; subst; clear E.
  destruct (parse_host_port_ok _ _ _ _ HP) as (A & B & C).
  constructor; simpl; try assumption.
  - apply parse_path_ok.
  - apply tail_query_ok.
  - apply tail_fragment_ok.
Qed.

Theorem new_URL_WF input u : URL.new_URL input = Some u -> WF u.
Proof.
  unfold URL.new_URL.
  destruct (URL.parse_scheme (URL.preprocess input)) as [[sch rest]|]; [|discriminate].
  destruct (URL.modelled_scheme sch) eqn:M; [|discriminate].
  apply parse_authority_WF. exact M.
Qed.

End UrlFacts.

(** ** Serializing a record and parsing it again *)

Module UrlRoundTrip.

Import StringFacts UrlFacts.

Lemma pathname_of_cons s p :
  pathname_of (s :: p) = String "/" (s ++ pathname_of p)%string.
Proof.
  unfold pathname_of. destruct p as [|s' p]; simpl; [rewrite app_nil_r_s|]; reflexivity.
Qed.

Lemma pathname_eq u : URL.pathname u = pathname_of (URL.path u).
Proof. reflexivity. Qed.

Lemma href_eq u :
  URL.fragment u = None ->
  URL.href u = (URL.scheme u ++ "://" ++ URL.host u ++ port_string (URL.port u)
                  ++ pathname_of (URL.path u) ++ query_string (URL.query u))%string.
Proof.
  intros F. unfold URL.href. rewrite F, app_nil_r_s. reflexivity.
Qed.

(** *** Character classes *)

Lemma seg_char_lower : forall c, seg_char c = true -> seg_char (lower_char c) = true.
Proof.
  intros c. generalize (ascii_forall (fun c => implb (seg_char c) (seg_char (lower_char c)))
                          ltac:(vm_compute; reflexivity) c).
  destruct (seg_char c); simpl; [tauto|discriminate 2].
Qed.

Lemma query_char_lower : forall c, query_char c = true -> query_char (lower_char c) = true.
Proof.
  intros c. generalize (ascii_forall (fun c => implb (query_char c) (query_char (lower_char c)))
                          ltac:(vm_compute; reflexivity) c).
  destruct (query_char c); simpl; [tauto|discriminate 2].
Qed.

Lemma class_incl (p q : ascii -> bool) :
  forallb (fun c => implb (p c) (q c)) all_ascii = true ->
  forall c, p c = true -> q c = true.
Proof.
  intros H c. generalize (ascii_forall _ H c). destruct (p c); simpl; [tauto|discriminate 2].
Qed.

Lemma seg_plain : forall c, path_char c = true -> plain c = true.
Proof. apply class_incl. vm_compute. reflexivity. Qed.
Lemma query_plain : forall c, query_char c = true -> plain c = true.
Proof. apply class_incl. vm_compute. reflexivity. Qed.
Lemma auth_plain : forall c, auth_char c = true -> plain c = true.
Proof. apply class_incl. vm_compute. reflexivity. Qed.
Lemma plain_no_tab : forall c, plain c = true -> negb (URL.is_tab_or_newline c) = true.
Proof. apply class_incl. vm_compute. reflexivity. Qed.
Lemma auth_no_delim : forall c,
    auth_char c = true -> negb (URL.is_slash c || URL.is_query_or_hash c) = true.
Proof. apply class_incl. vm_compute. reflexivity. Qed.
Lemma path_no_delim : forall c, path_char c = true -> negb (URL.is_query_or_hash c) = true.
Proof. apply class_incl. vm_compute. reflexivity. Qed.
Lemma path_no_hash : forall c, path_char c = true -> negb (is_char "#" c) = true.
Proof. apply class_incl. vm_compute. reflexivity. Qed.
Lemma query_no_hash : forall c, query_char c = true -> negb (is_char "#" c) = true.
Proof. apply class_incl. vm_compute. reflexivity. Qed.
Lemma query_no_set : forall c, query_char c = true -> negb (URL.special_query_set c) = true.
Proof. apply class_incl. vm_compute. reflexivity. Qed.
Lemma seg_no_slash : forall c, seg_char c = true -> negb (URL.is_slash c) = true.
Proof. apply class_incl. vm_compute. reflexivity. Qed.
Lemma seg_no_sep : forall c, seg_char c = true -> negb (is_char "/" c) = true.
Proof. apply class_incl. vm_compute. reflexivity. Qed.
Lemma seg_no_set : forall c, seg_char c = true -> negb (URL.path_set c) = true.
Proof. apply class_incl. vm_compute. reflexivity. Qed.
Lemma seg_path : forall c, seg_char c = true -> path_char c = true.
Proof. apply class_incl. vm_compute. reflexivity. Qed.
Lemma host_auth : forall c, URL.is_host_char c || is_char "." c = true -> auth_char c = true.
Proof. apply class_incl. vm_compute. reflexivity. Qed.
Lemma host_no_colon : forall c,
    URL.is_host_char c || is_char "." c = true -> negb (is_char ":" c) = true.
Proof. apply class_incl. vm_compute. reflexivity. Qed.
Lemma digit_auth : forall c, is_digit c = true -> auth_char c = true.
Proof. apply class_incl. vm_compute. reflexivity. Qed.
Lemma digit_no_upper : forall c, is_digit c = true -> negb (is_upper c) = true.
Proof. apply class_incl. vm_compute. reflexivity. Qed.

(** *** Hosts and ports *)

Lemma sall_of_split (p q : ascii -> bool) s :
  (forall c, p c = true -> q c = true) ->
  Forall (fun x => sall q x = true) (split_by p s) -> sall q s = true.
Proof.
  intros H. induction s as [|c s IH]; simpl; [reflexivity|].
  destruct (p c) eqn:E.
  - intros F. inversion F; subst. rewrite (H c E). simpl. apply IH. assumption.
  - pose proof (split_by_nonnil p s). destruct (split_by p s) as [|x l]; [contradiction|].
    simpl. intros F. inversion F as [|? ? F1 F2]; subst. simpl in F1.
    apply andb_true_iff in F1. destruct F1 as [F1 F1']. rewrite F1. simpl.
    apply IH. constructor; assumption.
Qed.

Lemma host_chars h :
  URL.host_ok h = true -> sall (fun c => URL.is_host_char c || is_char "." c) h = true.
Proof.
  unfold URL.host_ok. rewrite andb_true_iff. intros [F _].
  apply (sall_of_split (is_char ".")).
  - intros c Hc. rewrite Hc. apply orb_true_r.
  - rewrite forallb_forall in F. apply Forall_forall. intros x Hx.
    specialize (F x Hx). unfold URL.label_ok in F.
    rewrite !andb_true_iff in F. destruct F as [[_ F] _].
    eapply sall_impl; [|exact F]. intros c Hc. rewrite Hc. reflexivity.
Qed.

Lemma host_nonempty h : URL.host_ok h = true -> h <> "".
Proof. intros H E. subst. discriminate. Qed.

Lemma uint_digits d : sall is_digit (NilEmpty.string_of_uint d) = true.
Proof. induction d; simpl; try reflexivity; exact IHd. Qed.

Lemma uint_nonempty d : d <> Decimal.Nil -> NilEmpty.string_of_uint d <> "".
Proof. destruct d; simpl; try discriminate. intros H. contradiction. Qed.

Lemma N_to_uint_nonnil n : N.to_uint n <> Decimal.Nil.
Proof. destruct n; [discriminate|]. apply DecimalPos.Unsigned.to_uint_nonnil. Qed.

Lemma parse_port_string sch n :
  port_ok sch (Some n) = true ->
  URL.parse_port sch (URL.string_of_N n) = Some (Some n).
Proof.
  unfold port_ok, URL.parse_port, URL.string_of_N. rewrite andb_true_iff.
  intros [L D]. apply negb_true_iff in D.
  pose proof (uint_nonempty _ (N_to_uint_nonnil n)) as NE.
  destruct (NilEmpty.string_of_uint (N.to_uint n)) as [|c s] eqn:E; [contradiction|].
  rewrite <- E, NilEmpty.usu, DecimalN.Unsigned.of_to, L, D. reflexivity.
Qed.

Lemma port_string_auth p : sall auth_char (port_string p) = true.
Proof.
  destruct p as [n|]; [|reflexivity]. simpl.
  eapply sall_impl; [exact digit_auth|apply uint_digits].
Qed.

Lemma port_string_lower p : toLowerCase (port_string p) = port_string p.
Proof.
  destruct p as [n|]; [|reflexivity]. simpl. f_equal. apply lower_fixed.
  eapply sall_impl; [exact digit_no_upper|apply uint_digits].
Qed.

Lemma parse_host_port_string sch h p :
  URL.host_ok h = true -> toLowerCase h = h -> port_ok sch p = true ->
  URL.parse_host_port sch (h ++ port_string p) = Some (h, p).
Proof.
  intros H L P. unfold URL.parse_host_port.
  assert (B : break (is_char ":") (h ++ port_string p) = (h, port_string p)).
  { apply break_app.
    - eapply sall_impl; [exact host_no_colon|apply host_chars; exact H].
    - destruct p; simpl; [reflexivity|exact I]. }
  rewrite B. simpl. rewrite L, H. destruct p as [n|]; simpl; [|reflexivity].
  rewrite (parse_port_string sch n P). reflexivity.
Qed.

(** *** Paths *)

Lemma seg_ok_chars s : seg_ok s = true -> sall seg_char s = true.
Proof. unfold seg_ok. rewrite andb_true_iff. tauto. Qed.

Lemma seg_ok_dots s : seg_ok s = true -> not_dots s = true.
Proof. unfold seg_ok. rewrite andb_true_iff. tauto. Qed.

Lemma seg_ok_lower s : seg_ok s = true -> seg_ok (toLowerCase s) = true.
Proof.
  unfold seg_ok, not_dots, URL.is_single_dot, URL.is_double_dot.
  rewrite lower_idem, !andb_true_iff. intros [A B]. split; [|exact B].
  apply sall_lower; [exact seg_char_lower|exact A].
Qed.

Lemma path_ok_lower p : path_ok p -> path_ok (map toLowerCase p).
Proof.
  intros [N F]. split; [destruct p; [contradiction|discriminate]|].
  apply Forall_map. eapply Forall_impl; [|exact F]. exact seg_ok_lower.
Qed.

Lemma pathname_of_chars p :
  Forall (fun s => seg_ok s = true) p -> sall path_char (pathname_of p) = true.
Proof.
  induction 1 as [|s p Hs Hp IH]; [reflexivity|].
  rewrite pathname_of_cons. cbn [sall]. rewrite sall_app, IH, andb_true_r.
  apply andb_true_iff. split; [reflexivity|].
  eapply sall_impl; [exact seg_path|apply seg_ok_chars; exact Hs].
Qed.

Lemma pathname_of_lower p :
  toLowerCase (pathname_of p) = pathname_of (map toLowerCase p).
Proof.
  induction p as [|s p IH]; [reflexivity|].
  cbn [map]. rewrite !pathname_of_cons. cbn [toLowerCase].
  rewrite lower_app, IH. reflexivity.
Qed.

(** Splitting a pathname at a separator that is a slash. *)
Lemma split_pathname (sep : ascii -> bool) :
  sep "/"%char = true ->
  (forall c, seg_char c = true -> negb (sep c) = true) ->
  forall p s,
    sall seg_char s = true -> Forall (fun x => seg_ok x = true) p ->
    split_by sep (s ++ pathname_of p) = s :: p.
Proof.
  intros Hsep Hseg p. induction p as [|x p IH]; intros s Hs F.
  - cbn. rewrite app_nil_r_s. apply split_by_free.
    eapply sall_impl; [exact Hseg|exact Hs].
  - inversion F as [|? ? Fx Fp]; subst.
    rewrite split_by_app by (eapply sall_impl; [exact Hseg|exact Hs]).
    rewrite pathname_of_cons. cbn [split_by]. rewrite Hsep.
    rewrite (IH x (seg_ok_chars _ Fx) Fp). cbn [hd tl]. rewrite app_nil_r_s. reflexivity.
Qed.

Lemma map_fixed {A : Type} (f : A -> A) l : Forall (fun x => f x = x) l -> map f l = l.
Proof. induction 1 as [|x l Hx Hl IH]; simpl; [reflexivity|rewrite Hx, IH; reflexivity]. Qed.

Lemma parse_segments p :
  p <> [] -> Forall (fun x => seg_ok x = true) p ->
  URL.path_state [] (map (URL.percent_encode URL.path_set) p) = p.
Proof.
  intros N F. rewrite map_fixed.
  - rewrite path_state_plain; [reflexivity|exact N|].
    eapply Forall_impl; [|exact F]. exact seg_ok_dots.
  - eapply Forall_impl; [|exact F]. intros x Hx. apply percent_encode_fixed.
    eapply sall_impl; [exact seg_no_set|apply seg_ok_chars; exact Hx].
Qed.

(** Parsing the pathname of a path gives the path back. *)
Lemma parse_path_pathname p : path_ok p -> URL.parse_path (pathname_of p) = p.
Proof.
  intros [N F]. destruct p as [|s p]; [contradiction|].
  inversion F as [|? ? Fs Fp]; subst.
  rewrite pathname_of_cons. unfold URL.parse_path, URL.path_segments. cbn [URL.drop_one_slash].
  change (URL.is_slash "/") with true. cbn iota.
  rewrite (split_pathname URL.is_slash eq_refl seg_no_slash p s (seg_ok_chars _ Fs) Fp).
  apply parse_segments; [discriminate|exact F].
Qed.

(** *** The whole URL *)

Lemma modelled_scheme_cases sch :
  URL.modelled_scheme sch = true -> sch = "http" \/ sch = "https".
Proof.
  unfold URL.modelled_scheme. rewrite orb_true_iff, !String.eqb_eq. tauto.
Qed.

Lemma parse_scheme_modelled sch rest :
  URL.modelled_scheme sch = true ->
  URL.parse_scheme (sch ++ String ":" rest) = Some (sch, rest).
Proof.
  intros M. unfold URL.parse_scheme.
  rewrite (break_app _ sch (String ":" rest)).
  - destruct (modelled_scheme_cases _ M) as [-> | ->]; reflexivity.
  - destruct (modelled_scheme_cases _ M) as [-> | ->]; reflexivity.
  - reflexivity.
Qed.

Lemma preprocess_plain s : sall plain s = true -> URL.preprocess s = s.
Proof.
  intros H. unfold URL.preprocess.
  rewrite drop_while_fixed.
  - rewrite strip_trailing_fixed by exact H. apply sfilter_fixed.
    eapply sall_impl; [exact plain_no_tab|exact H].
  - destruct s as [|c s]; [exact I|]. simpl in H. apply andb_true_iff in H.
    destruct H as [H _]. unfold plain in H. apply negb_true_iff in H. exact H.
Qed.

Lemma query_string_chars q :
  opt_all query_char q = true -> sall query_char (query_string q) = true.
Proof. destruct q as [q|]; simpl; [|reflexivity]. intros ->. reflexivity. Qed.

Lemma query_string_lower q :
  toLowerCase (query_string q) = query_string (option_map toLowerCase q).
Proof. destruct q; reflexivity. Qed.

Lemma opt_all_lower q :
  opt_all query_char q = true -> opt_all query_char (option_map toLowerCase q) = true.
Proof.
  destruct q as [q|]; simpl; [|reflexivity]. apply sall_lower. exact query_char_lower.
Qed.

Lemma tail_of_path_query p q :
  path_ok p -> opt_all query_char q = true ->
  URL.tail_path (pathname_of p ++ query_string q) = pathname_of p
  /\ URL.tail_query (pathname_of p ++ query_string q) = q
  /\ URL.tail_fragment (pathname_of p ++ query_string q) = None.
Proof.
  intros [N F] Q.
  assert (B : break URL.is_query_or_hash (pathname_of p ++ query_string q)
              = (pathname_of p, query_string q)).
  { apply break_app.
    - eapply sall_impl; [exact path_no_delim|apply pathname_of_chars; exact F].
    - destruct q; simpl; [reflexivity|exact I]. }
  unfold URL.tail_path, URL.tail_query, URL.tail_fragment. rewrite B. simpl.
  repeat split.
  - destruct q as [q|]; simpl; [|reflexivity]. simpl in Q.
    rewrite break_none by (eapply sall_impl; [exact query_no_hash|exact Q]). simpl.
    rewrite percent_encode_fixed; [reflexivity|].
    eapply sall_impl; [exact query_no_set|exact Q].
  - rewrite break_none; [reflexivity|]. rewrite sall_app. apply andb_true_iff. split.
    + eapply sall_impl; [exact path_no_hash|apply pathname_of_chars; exact F].
    + eapply sall_impl; [exact query_no_hash|apply query_string_chars; exact Q].
Qed.

Lemma parse_authority_string sch h pt p q :
  URL.host_ok h = true -> toLowerCase h = h -> port_ok sch pt = true ->
  path_ok p -> opt_all query_char q = true ->
  URL.parse_authority sch (h ++ port_string pt ++ pathname_of p ++ query_string q)
  = Some (URL.mk sch h pt p q None).
Proof.
  intros H L P Pp Q. unfold URL.parse_authority.
  assert (B : break (fun c => URL.is_slash c || URL.is_query_or_hash c)
                    (h ++ port_string pt ++ pathname_of p ++ query_string q)
              = ((h ++ port_string pt)%string, (pathname_of p ++ query_string q)%string)).
  { rewrite <- app_assoc_s. apply break_app.
    - rewrite sall_app. apply andb_true_iff. split.
      + eapply sall_impl; [exact auth_no_delim|].
        eapply sall_impl; [exact host_auth|apply host_chars; exact H].
      + eapply sall_impl; [exact auth_no_delim|apply port_string_auth].
    - destruct Pp as [N _]. destruct p as [|s p]; [contradiction|].
      rewrite pathname_of_cons. reflexivity. }
  rewrite B. cbn [fst snd]. rewrite (parse_host_port_string sch h pt H L P).
  destruct (tail_of_path_query p q Pp Q) as (T1 & T2 & T3).
  rewrite T1, T2, T3, (parse_path_pathname p Pp). reflexivity.
Qed.

Lemma record_string_plain sch h pt p q :
  URL.modelled_scheme sch = true -> URL.host_ok h = true ->
  path_ok p -> opt_all query_char q = true ->
  sall plain (sch ++ "://" ++ h ++ port_string pt ++ pathname_of p ++ query_string q) = true.
Proof.
  intros M H [N F] Q. rewrite !sall_app, !andb_true_iff. repeat split.
  - destruct (modelled_scheme_cases _ M) as [-> | ->]; reflexivity.
  - eapply sall_impl; [exact auth_plain|].
    eapply sall_impl; [exact host_auth|apply host_chars; exact H].
  - eapply sall_impl; [exact auth_plain|apply port_string_auth].
  - eapply sall_impl; [exact seg_plain|apply pathname_of_chars; exact F].
  - eapply sall_impl; [exact query_plain|apply query_string_chars; exact Q].
Qed.

(** Parsing the serialization of well-formed components. *)
Lemma new_URL_string sch h pt p q :
  URL.modelled_scheme sch = true -> URL.host_ok h = true -> toLowerCase h = h ->
  port_ok sch pt = true -> path_ok p -> opt_all query_char q = true ->
  URL.new_URL (sch ++ "://" ++ h ++ port_string pt ++ pathname_of p ++ query_string q)
  = Some (URL.mk sch h pt p q None).
Proof.
  intros M H L P Pp Q. unfold URL.new_URL.
  rewrite preprocess_plain by (apply record_string_plain; assumption).
  change (sch ++ "://" ++ h ++ port_string pt ++ pathname_of p ++ query_string q)%string
    with (sch ++ String ":" ("//" ++ h ++ port_string pt ++ pathname_of p
                                ++ query_string q))%string.
  rewrite (parse_scheme_modelled sch _ M), M. cbn [drop_while append].
  change (URL.is_slash "/") with true. cbn iota.
  rewrite drop_while_fixed.
  - apply parse_authority_string; assumption.
  - pose proof (host_nonempty h H) as NE. pose proof (host_chars h H) as HC.
    destruct h as [|c h]; [contradiction|]. simpl. simpl in HC.
    apply andb_true_iff in HC. destruct HC as [HC _].
    pose proof (auth_no_delim c (host_auth c HC)) as D.
    apply negb_true_iff, orb_false_iff in D. apply D.
Qed.

(** The lower-cased serialization of a well-formed record without a
    fragment parses, to the record with path and query lower-cased. *)
Theorem new_URL_href_lower u :
  WF u -> URL.fragment u = None ->
  URL.new_URL (toLowerCase (URL.href u)) = Some (lower_record u).
Proof.
  intros [M H L P Pp Q _] F. rewrite (href_eq u F), !lower_app.
  rewrite L, port_string_lower, pathname_of_lower, query_string_lower.
  assert (Ls : toLowerCase (URL.scheme u) = URL.scheme u).
  { destruct (modelled_scheme_cases _ M) as [-> | ->]; reflexivity. }
  rewrite Ls. change (toLowerCase "://") with "://".
  apply new_URL_string; try assumption.
  - apply path_ok_lower. exact Pp.
  - apply opt_all_lower. exact Q.
Qed.

End UrlRoundTrip.

(** ** [normalizeUrl] on records *)

Module Normalize.

Import StringFacts UrlFacts UrlRoundTrip.

(** *** The path *)

Lemma join_pathname rest :
  rest <> [] -> String "/" (join "/" rest) = pathname_of rest.
Proof.
  induction rest as [|s rest IH]; intros N; [contradiction|].
  rewrite pathname_of_cons. f_equal. destruct rest as [|s' rest].
  - cbn. rewrite app_nil_r_s. reflexivity.
  - change (join "/" (s :: s' :: rest)) with (s ++ String "/" (join "/" (s' :: rest)))%string.
    rewrite IH by discriminate. reflexivity.
Qed.

Lemma pathname_plain p :
  Forall (fun s => seg_ok s = true) p ->
  URL.remove_tab_newline (pathname_of p) = pathname_of p.
Proof.
  intros F. apply sfilter_fixed. eapply sall_impl; [exact plain_no_tab|].
  eapply sall_impl; [exact seg_plain|apply pathname_of_chars; exact F].
Qed.

Lemma removeLanguagePrefix_pathname p :
  path_ok p ->
  removeLanguagePrefix (pathname_of p)
  = match filter nonempty p with
    | p0 :: rest =>
        if is_language p0 then String "/" (join "/" rest) else pathname_of p
    | [] => pathname_of p
    end.
Proof.
  intros [N F]. unfold removeLanguagePrefix.
  assert (S : split_by (is_char "/") (pathname_of p) = "" :: p).
  { destruct p as [|s p]; [contradiction|]. inversion F as [|? ? Fs Fp]; subst.
    rewrite pathname_of_cons. cbn [split_by]. change (is_char "/" "/") with true. cbn iota.
    rewrite (split_pathname (is_char "/") eq_refl seg_no_sep p s (seg_ok_chars _ Fs) Fp).
    reflexivity. }
  rewrite S. cbn [filter nonempty]. destruct (filter nonempty p); reflexivity.
Qed.

Lemma Forall_filter {A : Type} (P : A -> Prop) f l : Forall P l -> Forall P (filter f l).
Proof.
  induction 1 as [|x l Hx Hl IH]; simpl; [constructor|].
  destruct (f x); [constructor|]; assumption.
Qed.

Lemma rlp_segs_ok p : path_ok p -> path_ok (rlp_segs p).
Proof.
  intros [N F]. unfold rlp_segs.
  pose proof (Forall_filter _ nonempty p F) as FF.
  destruct (filter nonempty p) as [|p0 rest]; [split; assumption|].
  destruct (is_language p0); [|split; assumption].
  inversion FF as [|? ? F0 Fr]; subst.
  destruct rest; [split; [discriminate|repeat constructor]|split; [discriminate|exact Fr]].
Qed.

Lemma set_pathname_language u :
  WF u ->
  URL.set_pathname (removeLanguagePrefix (URL.pathname u)) u
  = URL.with_path (rlp_segs (URL.path u)) u.
Proof.
  intros W. pose proof (wf_path u W) as Pp. destruct Pp as [N F].
  unfold URL.set_pathname. f_equal.
  rewrite pathname_eq, (removeLanguagePrefix_pathname _ (conj N F)). unfold rlp_segs.
  pose proof (Forall_filter _ nonempty _ F) as FF.
  destruct (filter nonempty (URL.path u)) as [|p0 rest].
  - rewrite (pathname_plain _ F). apply parse_path_pathname. split; assumption.
  - destruct (is_language p0).
    + inversion FF as [|? ? F0 Fr]; subst. destruct rest as [|r rest]; [reflexivity|].
      rewrite join_pathname by discriminate.
      rewrite (pathname_plain _ Fr). apply parse_path_pathname. split; [discriminate|exact Fr].
    + rewrite (pathname_plain _ F). apply parse_path_pathname. split; assumption.
Qed.

Lemma strip_trailing_app p a b :
  strip_trailing p (a ++ b)
  = match strip_trailing p b with
    | EmptyString => strip_trailing p a
    | r => (a ++ r)%string
    end.
Proof.
  induction a as [|x a IH]; simpl.
  - destruct (strip_trailing p b); reflexivity.
  - rewrite IH. destruct (strip_trailing p b) as [|y r]; [reflexivity|].
    destruct a; reflexivity.
Qed.

Lemma pathname_of_empty p : pathname_of p = "" -> p = [].
Proof. destruct p as [|s p]; [reflexivity|]. rewrite pathname_of_cons. discriminate. Qed.

Lemma drop_trailing_empty_ok p :
  Forall (fun s => seg_ok s = true) p ->
  Forall (fun s => seg_ok s = true) (drop_trailing_empty p).
Proof.
  induction 1 as [|s p Hs Hp IH]; simpl; [constructor|].
  destruct (drop_trailing_empty p).
  - destruct (nonempty s); [repeat constructor; exact Hs|constructor].
  - constructor; assumption.
Qed.

Lemma strip_trailing_pathname p :
  Forall (fun s => seg_ok s = true) p ->
  strip_trailing (is_char "/") (pathname_of p) = pathname_of (drop_trailing_empty p).
Proof.
  induction 1 as [|s p Hs Hp IH]; [reflexivity|].
  rewrite pathname_of_cons.
  change (String "/" (s ++ pathname_of p))%string
    with (String "/" s ++ pathname_of p)%string.
  rewrite strip_trailing_app, IH. cbn [drop_trailing_empty fold_right].
  change (fold_right _ [] p) with (drop_trailing_empty p).
  destruct (drop_trailing_empty p) as [|r rest] eqn:D.
  - cbn [pathname_of String.concat map]. cbn [strip_trailing].
    rewrite strip_trailing_fixed
      by (eapply sall_impl; [exact seg_no_sep|apply seg_ok_chars; exact Hs]).
    destruct s; reflexivity.
  - rewrite (pathname_of_cons r rest), (pathname_of_cons s (r :: rest)),
      (pathname_of_cons r rest). reflexivity.
Qed.

Lemma strip_segs_ok p : Forall (fun s => seg_ok s = true) p -> path_ok (strip_segs p).
Proof.
  intros F. unfold strip_segs. pose proof (drop_trailing_empty_ok p F) as D.
  destruct (drop_trailing_empty p); [split; [discriminate|repeat constructor]|].
  split; [discriminate|exact D].
Qed.

Lemma norm_path_ok p : path_ok p -> path_ok (norm_path p).
Proof. intros H. apply strip_segs_ok. apply rlp_segs_ok. exact H. Qed.

Lemma set_pathname_strip u :
  path_ok (URL.path u) ->
  URL.set_pathname (strip_trailing (is_char "/") (URL.pathname u)) u
  = URL.with_path (strip_segs (URL.path u)) u.
Proof.
  intros [N F]. unfold URL.set_pathname. f_equal.
  rewrite pathname_eq, (strip_trailing_pathname _ F). unfold strip_segs.
  pose proof (drop_trailing_empty_ok _ F) as D.
  rewrite (pathname_plain _ D).
  destruct (drop_trailing_empty (URL.path u)) as [|r rest] eqn:E; [reflexivity|].
  apply parse_path_pathname. split; [discriminate|exact D].
Qed.

(** *** The query *)

Lemma pct_form_char : forall c, sall form_char (URL.pct c) = true.
Proof. apply ascii_forall. vm_compute. reflexivity. Qed.

Lemma unreserved_form_char : forall c, negb (URL.urlencoded_set c) = true -> form_char c = true.
Proof. apply class_incl. vm_compute. reflexivity. Qed.

Lemma form_query_char : forall c, form_char c = true -> query_char c = true.
Proof. apply class_incl. vm_compute. reflexivity. Qed.
Lemma form_no_tab : forall c, form_char c = true -> negb (URL.is_tab_or_newline c) = true.
Proof. apply class_incl. vm_compute. reflexivity. Qed.
Lemma form_no_question : forall c, form_char c = true -> negb (is_char "?" c) = true.
Proof. apply class_incl. vm_compute. reflexivity. Qed.

Lemma form_encode_chars s : sall form_char (URL.form_encode s) = true.
Proof.
  induction s as [|c s IH]; [reflexivity|]. cbn [URL.form_encode].
  destruct (is_char " " c); [cbn [sall]; rewrite IH; reflexivity|].
  destruct (URL.urlencoded_set c) eqn:E.
  - rewrite sall_app, pct_form_char, IH. reflexivity.
  - cbn [sall]. rewrite IH, unreserved_form_char; [reflexivity|].
    rewrite E. reflexivity.
Qed.

Lemma serialize_pair_chars e : sall form_char (URL.serialize_pair e) = true.
Proof.
  unfold URL.serialize_pair. rewrite !sall_app, !form_encode_chars. reflexivity.
Qed.

Lemma join_chars (q : ascii -> bool) sep l :
  sall q sep = true -> Forall (fun x => sall q x = true) l -> sall q (join sep l) = true.
Proof.
  intros Hs. induction 1 as [|x l Hx Hl IH]; [reflexivity|].
  destruct l as [|y l]; [exact Hx|].
  change (join sep (x :: y :: l)) with (x ++ sep ++ join sep (y :: l))%string.
  rewrite !sall_app, Hx, Hs, IH. reflexivity.
Qed.

Lemma serialize_chars l : sall form_char (URL.urlencoded_serialize l) = true.
Proof.
  unfold URL.urlencoded_serialize. apply join_chars; [reflexivity|].
  apply Forall_map. apply Forall_forall. intros e _. apply serialize_pair_chars.
Qed.

Lemma set_search_form v u :
  sall form_char v = true ->
  URL.set_search v u = URL.with_query (if_nonempty v) u.
Proof.
  intros F. unfold URL.set_search. destruct v as [|c r]; [reflexivity|].
  assert (Q : is_char "?" c = false).
  { simpl in F. apply andb_true_iff in F. destruct F as [F _].
    apply form_no_question in F. apply negb_true_iff in F. exact F. }
  rewrite Q. unfold URL.remove_tab_newline.
  rewrite sfilter_fixed by (eapply sall_impl; [exact form_no_tab|exact F]).
  rewrite percent_encode_fixed; [reflexivity|].
  eapply sall_impl; [|exact F]. intros x Hx. apply form_query_char in Hx. exact Hx.
Qed.

Lemma norm_query_ok q : opt_all query_char (norm_query q) = true.
Proof.
  unfold norm_query, if_nonempty. pose proof (serialize_chars (sorted_params q)) as F.
  destruct (URL.urlencoded_serialize (sorted_params q)); [reflexivity|].
  cbn [opt_all]. eapply sall_impl; [exact form_query_char|exact F].
Qed.

(** *** The whole function *)

Theorem norm_record_WF u : WF u -> WF (norm_record u).
Proof.
  intros [M H L P Pp Q F]. constructor; simpl; try assumption.
  - apply norm_path_ok. exact Pp.
  - apply norm_query_ok.
  - reflexivity.
Qed.

(** [normalizeUrl] returns the lower-cased serialization of the
    normalized record. *)
Theorem normalizeUrl_record input u :
  URL.new_URL input = Some u ->
  normalizeUrl input = Some (toLowerCase (URL.href (norm_record u))).
Proof.
  intros E. pose proof (new_URL_WF _ _ E) as W.
  unfold normalizeUrl. rewrite E. f_equal. f_equal. f_equal.
  change (URL.set_hash "" u) with (URL.with_fragment None u).
  assert (W0 : WF (URL.with_fragment None u)).
  { destruct W. constructor; simpl; try assumption. reflexivity. }
  rewrite (set_pathname_language _ W0).
  assert (P1 : path_ok (URL.path (URL.with_path (rlp_segs (URL.path (URL.with_fragment None u)))
                                                (URL.with_fragment None u)))).
  { simpl. apply rlp_segs_ok. apply (wf_path u W). }
  rewrite (set_pathname_strip _ P1).
  rewrite set_search_form by apply serialize_chars.
  destruct u as [sch h pt p q f]. reflexivity.
Qed.

End Normalize.

(** ** The form codec and the collation under lower-casing *)

Module FormFacts.

Import StringFacts UrlFacts UrlRoundTrip Normalize.

Lemma form_encode_cons c s :
  URL.form_encode (String c s) = (form_encode_char c ++ URL.form_encode s)%string.
Proof.
  unfold form_encode_char. cbn [URL.form_encode].
  destruct (is_char " " c); [reflexivity|]. destruct (URL.urlencoded_set c); reflexivity.
Qed.

Lemma form_encode_char_token : forall c, sall token_char (form_encode_char c) = true.
Proof. apply ascii_forall. vm_compute. reflexivity. Qed.

Lemma form_encode_token s : sall token_char (URL.form_encode s) = true.
Proof.
  induction s as [|c s IH]; [reflexivity|].
  rewrite form_encode_cons, sall_app, form_encode_char_token, IH. reflexivity.
Qed.

Lemma token_lower : forall c, token_char c = true -> token_char (lower_char c) = true.
Proof.
  intros c. generalize (ascii_forall (fun c => implb (token_char c) (token_char (lower_char c)))
                          ltac:(vm_compute; reflexivity) c).
  destruct (token_char c); simpl; [tauto|discriminate 2].
Qed.

Lemma token_no_eq : forall c, token_char c = true -> negb (is_char "=" c) = true.
Proof. apply class_incl. vm_compute. reflexivity. Qed.
Lemma token_no_amp : forall c, token_char c = true -> negb (is_char "&" c) = true.
Proof. apply class_incl. vm_compute. reflexivity. Qed.

(** *** Decoding what was encoded and lower-cased *)

Lemma decodes_back_all : forall c, decodes_back c = true.
Proof. apply ascii_forall. vm_compute. reflexivity. Qed.

Lemma percent_decode_literal c s :
  Ascii.eqb c "%" = false ->
  URL.percent_decode (String c s) = String c (URL.percent_decode s).
Proof.
  intros H. cbn [URL.percent_decode]. rewrite H.
  destruct s as [|h1 [|h2 rest]]; reflexivity.
Qed.

Lemma plus_to_space_app a b :
  URL.plus_to_space (a ++ b) = (URL.plus_to_space a ++ URL.plus_to_space b)%string.
Proof.
  unfold URL.plus_to_space.
  induction a as [|x a IH]; simpl; [reflexivity|rewrite IH; reflexivity].
Qed.

Lemma decodes_alone_all : forall c, decodes_alone c = true.
Proof. apply ascii_forall. vm_compute. reflexivity. Qed.

Lemma decode_encoded_char c rest :
  URL.percent_decode (URL.plus_to_space (toLowerCase (form_encode_char c)) ++ rest)
  = String (lower_char c) (URL.percent_decode rest).
Proof.
  pose proof (decodes_alone_all c) as H. unfold decodes_alone in H.
  destruct (URL.plus_to_space (toLowerCase (form_encode_char c))) as [|x [|h1 [|h2 [|? ?]]]];
    try discriminate.
  - apply andb_true_iff in H. destruct H as [H1 H2].
    apply negb_true_iff in H1. apply Ascii.eqb_eq in H2. subst.
    cbn [append]. apply percent_decode_literal. exact H1.
  - apply andb_true_iff in H. destruct H as [X H].
    apply Ascii.eqb_eq in X. subst x.
    destruct (URL.hex_value h1) as [a|] eqn:H1; [|discriminate].
    destruct (URL.hex_value h2) as [b|] eqn:H2; [|discriminate].
    apply Ascii.eqb_eq in H. cbn [append URL.percent_decode].
    change (Ascii.eqb "%" "%") with true. cbn iota. rewrite H1, H2, H. reflexivity.
Qed.

Theorem form_decode_encode s :
  URL.form_decode (toLowerCase (URL.form_encode s)) = toLowerCase s.
Proof.
  unfold URL.form_decode. induction s as [|c s IH]; [reflexivity|].
  rewrite form_encode_cons, lower_app, plus_to_space_app, decode_encoded_char, IH.
  reflexivity.
Qed.

Lemma lower_absorbed_all : forall c, lower_absorbed c = true.
Proof. apply ascii_forall. vm_compute. reflexivity. Qed.

Theorem lower_encode_lower s :
  toLowerCase (URL.form_encode (toLowerCase s)) = toLowerCase (URL.form_encode s).
Proof.
  induction s as [|c s IH]; [reflexivity|]. cbn [toLowerCase].
  rewrite !form_encode_cons, !lower_app, IH. f_equal.
  apply String.eqb_eq. apply lower_absorbed_all.
Qed.

End FormFacts.

(** ** The query of a normalized URL, parsed again *)

Module QueryFacts.

Import StringFacts UrlFacts UrlRoundTrip Normalize FormFacts.

Lemma join_lower sep l :
  toLowerCase (join sep l) = join (toLowerCase sep) (map toLowerCase l).
Proof.
  induction l as [|x l IH]; [reflexivity|]. destruct l as [|y l]; [reflexivity|].
  change (join sep (x :: y :: l)) with (x ++ sep ++ join sep (y :: l))%string.
  rewrite !lower_app, IH. reflexivity.
Qed.

Lemma pair_piece e :
  toLowerCase (URL.serialize_pair e)
  = (toLowerCase (URL.form_encode (fst e)) ++ String "=" (toLowerCase (URL.form_encode (snd e))))%string.
Proof. unfold URL.serialize_pair. rewrite !lower_app. reflexivity. Qed.

Lemma lower_token s : sall token_char (toLowerCase (URL.form_encode s)) = true.
Proof. apply sall_lower; [exact token_lower|apply form_encode_token]. Qed.

Lemma parse_pair_piece e :
  URL.parse_pair (toLowerCase (URL.serialize_pair e)) = lower_pair e.
Proof.
  rewrite pair_piece. unfold URL.parse_pair.
  rewrite break_app.
  - cbn [fst snd]. rewrite !form_decode_encode. reflexivity.
  - eapply sall_impl; [exact token_no_eq|apply lower_token].
  - reflexivity.
Qed.

Lemma pair_piece_free e :
  sall (fun c => negb (is_char "&" c)) (toLowerCase (URL.serialize_pair e)) = true.
Proof.
  rewrite pair_piece, sall_app. cbn [sall]. apply andb_true_iff. split.
  - eapply sall_impl; [exact token_no_amp|apply lower_token].
  - apply andb_true_iff. split; [reflexivity|].
    eapply sall_impl; [exact token_no_amp|apply lower_token].
Qed.

Lemma pair_piece_nonempty e : nonempty (toLowerCase (URL.serialize_pair e)) = true.
Proof.
  rewrite pair_piece. destruct (toLowerCase (URL.form_encode (fst e))); reflexivity.
Qed.

Lemma filter_all {A : Type} (f : A -> bool) l :
  Forall (fun x => f x = true) l -> filter f l = l.
Proof.
  induction 1 as [|x l Hx Hl IH]; simpl; [reflexivity|]. rewrite Hx, IH. reflexivity.
Qed.

(** Parsing the lower-cased serialization of a list of parameters. *)
Theorem parse_lower_serialize l :
  URL.urlencoded_parse (toLowerCase (URL.urlencoded_serialize l)) = map lower_pair l.
Proof.
  unfold URL.urlencoded_parse, URL.urlencoded_serialize.
  rewrite join_lower. change (toLowerCase "&") with "&".
  destruct l as [|e l]; [reflexivity|].
  cbn [map]. rewrite (split_by_pieces (is_char "&") "&"%char eq_refl).
  - rewrite filter_all.
    + cbn [map]. rewrite parse_pair_piece. f_equal. rewrite !map_map.
      apply map_ext. intros x. apply parse_pair_piece.
    + constructor; [apply pair_piece_nonempty|].
      apply Forall_map. apply Forall_map. apply Forall_forall. intros x _.
      apply pair_piece_nonempty.
  - constructor; [apply pair_piece_free|].
    apply Forall_map. apply Forall_map. apply Forall_forall. intros x _.
    apply pair_piece_free.
Qed.

(** *** The collation *)

Lemma cmp_by_opp r a : forall b, cmp_by r b a = CompOpp (cmp_by r a b).
Proof.
  induction a as [|x a IH]; intros [|y b]; simpl; try reflexivity.
  rewrite (Nat.compare_antisym (r x) (r y)).
  destruct (Nat.compare (r x) (r y)); simpl; try reflexivity. apply IH.
Qed.

Lemma cmp_by_lower r a : forall b,
    cmp_by r (toLowerCase a) (toLowerCase b) = cmp_by (fun c => r (lower_char c)) a b.
Proof.
  induction a as [|x a IH]; intros [|y b]; simpl; try reflexivity.
  rewrite IH. reflexivity.
Qed.

Lemma cmp_by_ext r r' a : forall b,
    (forall c, r c = r' c) -> cmp_by r a b = cmp_by r' a b.
Proof.
  induction a as [|x a IH]; intros [|y b] H; simpl; try reflexivity.
  rewrite !H, (IH b H). reflexivity.
Qed.

Lemma cmp_by_eq_length r a : forall b,
    cmp_by r a b = Eq -> String.length a = String.length b.
Proof.
  induction a as [|x a IH]; intros [|y b]; simpl; try discriminate; [reflexivity|].
  destruct (Nat.compare (r x) (r y)); try discriminate. intros H. f_equal. apply IH. exact H.
Qed.

Lemma cmp_by_constant r a : forall b,
    (forall c, r c = 0) -> String.length a = String.length b -> cmp_by r a b = Eq.
Proof.
  induction a as [|x a IH]; intros [|y b] H L; simpl in *; try discriminate; [reflexivity|].
  rewrite !H. simpl. apply IH; [exact H|]. injection L. tauto.
Qed.

Lemma collation_rank_lower : forall c, collation_rank (lower_char c) = collation_rank c.
Proof.
  intros c. apply Nat.eqb_eq. revert c. apply ascii_forall. vm_compute. reflexivity.
Qed.

Lemma case_rank_lower : forall c, case_rank (lower_char c) = 0.
Proof.
  intros c. apply Nat.eqb_eq. revert c. apply ascii_forall. vm_compute. reflexivity.
Qed.

Lemma ignorable_lower : forall c, ignorable (lower_char c) = ignorable c.
Proof.
  intros c. apply Bool.eqb_prop. revert c. apply ascii_forall. vm_compute. reflexivity.
Qed.

(** Lower-casing does not change which characters the collation sees. *)
Lemma collation_key_lower s : collation_key (toLowerCase s) = toLowerCase (collation_key s).
Proof.
  unfold collation_key. induction s as [|c s IH]; [reflexivity|].
  cbn [toLowerCase sfilter]. rewrite ignorable_lower, IH.
  destruct (ignorable c); reflexivity.
Qed.

(** On lower-cased strings only the primary weights count. *)
Lemma compare_weights_lower a b :
  compare_weights (toLowerCase a) (toLowerCase b) = cmp_by collation_rank a b.
Proof.
  unfold compare_weights.
  rewrite cmp_by_lower, (cmp_by_ext _ collation_rank a b collation_rank_lower).
  destruct (cmp_by collation_rank a b) eqn:E; try reflexivity.
  rewrite cmp_by_lower. apply cmp_by_constant; [exact case_rank_lower|].
  eapply cmp_by_eq_length. exact E.
Qed.

Lemma localeCompare_lower a b :
  localeCompare (toLowerCase a) (toLowerCase b)
  = cmp_by collation_rank (collation_key a) (collation_key b).
Proof.
  unfold localeCompare. rewrite !collation_key_lower. apply compare_weights_lower.
Qed.

Lemma key_gt_lower a b : key_gt a b = false -> key_gt (lower_pair a) (lower_pair b) = false.
Proof.
  unfold key_gt, lower_pair. cbn [fst]. rewrite localeCompare_lower.
  unfold localeCompare, compare_weights.
  destruct (cmp_by collation_rank (collation_key (fst a)) (collation_key (fst b)));
    try reflexivity. discriminate.
Qed.

Lemma compare_weights_opp a b : compare_weights b a = CompOpp (compare_weights a b).
Proof.
  unfold compare_weights. rewrite (cmp_by_opp collation_rank a b), (cmp_by_opp case_rank a b).
  destruct (cmp_by collation_rank a b); reflexivity.
Qed.

Lemma key_gt_asym a b : key_gt a b = true -> key_gt b a = false.
Proof.
  unfold key_gt, localeCompare.
  rewrite (compare_weights_opp (collation_key (fst a)) (collation_key (fst b))).
  destruct (compare_weights (collation_key (fst a)) (collation_key (fst b)));
    simpl; try reflexivity; discriminate.
Qed.

(** *** Sorted parameters stay sorted *)

Lemma insert_by_ordered {A : Type} (gt : A -> A -> bool) x l :
  (forall a b, gt a b = true -> gt b a = false) ->
  ordered gt l -> ordered gt (insert_by gt x l).
Proof.
  intros asym. induction l as [|y l IH]; intros O; [simpl; auto|].
  cbn [insert_by]. destruct (gt x y) eqn:G.
  - destruct O as [Hy Ol]. specialize (IH Ol). split; [|exact IH].
    destruct l as [|z l]; [cbn; apply asym; exact G|].
    cbn [insert_by]. destruct (gt x z); [exact Hy|apply asym; exact G].
  - split; [exact G|exact O].
Qed.

Lemma sort_by_is_ordered {A : Type} (gt : A -> A -> bool) l :
  (forall a b, gt a b = true -> gt b a = false) -> ordered gt (sort_by gt l).
Proof.
  intros asym. induction l as [|x l IH]; [exact I|].
  apply insert_by_ordered; assumption.
Qed.

Lemma ordered_lower l : ordered key_gt l -> ordered key_gt (map lower_pair l).
Proof.
  induction l as [|x l IH]; [intros _; exact I|].
  intros [H O]. split; [|apply IH; exact O].
  destruct l as [|y l]; [exact I|]. apply key_gt_lower. exact H.
Qed.

Lemma serialize_lower_pairs l :
  toLowerCase (URL.urlencoded_serialize (map lower_pair l))
  = toLowerCase (URL.urlencoded_serialize l).
Proof.
  unfold URL.urlencoded_serialize. rewrite !join_lower, !map_map. f_equal.
  apply map_ext. intros e. rewrite !pair_piece. unfold lower_pair. cbn [fst snd].
  rewrite !lower_encode_lower. reflexivity.
Qed.

Lemma serialize_empty l : URL.urlencoded_serialize l = "" -> l = [].
Proof.
  destruct l as [|e l]; [reflexivity|]. unfold URL.urlencoded_serialize. cbn [map].
  intros H. exfalso. assert (N : nonempty (URL.serialize_pair e) = true).
  { unfold URL.serialize_pair. destruct (URL.form_encode (fst e)); reflexivity. }
  destruct l as [|e' l]; cbn in H.
  - rewrite H in N. discriminate.
  - destruct (URL.serialize_pair e); [discriminate|discriminate].
Qed.

(** Normalizing the query of a normalized, lower-cased URL changes
    nothing that survives the final lower-casing. *)
Theorem norm_query_again q :
  toLowerCase (query_string (norm_query (option_map toLowerCase (norm_query q))))
  = toLowerCase (query_string (norm_query q)).
Proof.
  unfold norm_query at 2 3. unfold if_nonempty.
  destruct (URL.urlencoded_serialize (sorted_params q)) as [|c s] eqn:E; [reflexivity|].
  rewrite <- E. cbn [option_map]. unfold norm_query, sorted_params at 1. cbn [query_text].
  rewrite parse_lower_serialize.
  rewrite sort_by_ordered
    by (apply ordered_lower; apply sort_by_is_ordered; exact key_gt_asym).
  unfold if_nonempty.
  destruct (URL.urlencoded_serialize (map lower_pair (sorted_params q))) as [|c' s'] eqn:E'.
  - apply serialize_empty in E'. destruct (sorted_params q); [|discriminate].
    rewrite E in *. cbn in E. discriminate.
  - rewrite <- E'. cbn [query_string]. rewrite !lower_app, serialize_lower_pairs. reflexivity.
Qed.

End QueryFacts.

(** ** Normalizing twice *)

Module Idempotence.

Import StringFacts UrlFacts UrlRoundTrip Normalize FormFacts QueryFacts.

Lemma leading_language_path v u :
  URL.new_URL v = Some u -> leading_language v = language_first (URL.path u).
Proof.
  intros E. unfold leading_language, language_first. rewrite E.
  destruct (wf_path u (new_URL_WF _ _ E)) as [N F].
  rewrite pathname_eq. destruct (URL.path u) as [|s p]; [contradiction|].
  inversion F as [|? ? Fs Fp]; subst.
  rewrite pathname_of_cons. cbn [split_by]. change (is_char "/" "/") with true. cbn iota.
  rewrite (split_pathname (is_char "/") eq_refl seg_no_sep p s (seg_ok_chars _ Fs) Fp).
  reflexivity.
Qed.

Lemma rlp_segs_plain p : language_first p = false -> rlp_segs p = p.
Proof.
  unfold language_first, rlp_segs. destruct (filter nonempty p); [reflexivity|].
  intros ->. reflexivity.
Qed.

Lemma drop_trailing_empty_cons s p :
  drop_trailing_empty (s :: p)
  = match drop_trailing_empty p with
    | [] => if nonempty s then [s] else []
    | _ => s :: drop_trailing_empty p
    end.
Proof. unfold drop_trailing_empty. cbn [fold_right]. destruct (fold_right _ [] p); reflexivity. Qed.

Lemma drop_trailing_empty_idem p :
  drop_trailing_empty (drop_trailing_empty p) = drop_trailing_empty p.
Proof.
  induction p as [|s p IH]; [reflexivity|]. rewrite drop_trailing_empty_cons.
  destruct (drop_trailing_empty p) as [|r rest] eqn:D.
  - destruct s; reflexivity.
  - rewrite drop_trailing_empty_cons, IH. reflexivity.
Qed.

Lemma strip_segs_idem p : strip_segs (strip_segs p) = strip_segs p.
Proof.
  unfold strip_segs. destruct (drop_trailing_empty p) as [|r rest] eqn:D; [reflexivity|].
  rewrite <- D, drop_trailing_empty_idem, D. reflexivity.
Qed.

Lemma drop_trailing_empty_lower p :
  drop_trailing_empty (map toLowerCase p) = map toLowerCase (drop_trailing_empty p).
Proof.
  induction p as [|s p IH]; [reflexivity|]. cbn [map].
  rewrite !drop_trailing_empty_cons, IH. destruct (drop_trailing_empty p); [|reflexivity].
  destruct s; reflexivity.
Qed.

Lemma strip_segs_lower p : strip_segs (map toLowerCase p) = map toLowerCase (strip_segs p).
Proof.
  unfold strip_segs. rewrite drop_trailing_empty_lower.
  destruct (drop_trailing_empty p); reflexivity.
Qed.

Lemma map_lower_idem (p : list string) :
  map toLowerCase (map toLowerCase p) = map toLowerCase p.
Proof. rewrite map_map. apply map_ext. exact lower_idem. Qed.

Lemma href_lower u :
  WF u -> URL.fragment u = None ->
  toLowerCase (URL.href u)
  = (URL.scheme u ++ "://" ++ URL.host u ++ port_string (URL.port u)
       ++ toLowerCase (pathname_of (URL.path u))
       ++ toLowerCase (query_string (URL.query u)))%string.
Proof.
  intros W F. rewrite (href_eq u F), !lower_app.
  rewrite (wf_host_lower u W), port_string_lower.
  destruct (modelled_scheme_cases _ (wf_scheme u W)) as [-> | ->]; reflexivity.
Qed.

(** The host of a URL is the host of its normalization. *)
Theorem normalizeUrl_host u v :
  normalizeUrl u = Some v -> getBaseDomain v = getBaseDomain u.
Proof.
  intros E.
  destruct (URL.new_URL u) as [U|] eqn:EU;
    [|unfold normalizeUrl in E; rewrite EU in E; discriminate].
  rewrite (normalizeUrl_record _ _ EU) in E. injection E as Ev. subst v.
  pose proof (norm_record_WF U (new_URL_WF _ _ EU)) as WN.
  pose proof (new_URL_href_lower _ WN eq_refl) as EV.
  unfold getBaseDomain. rewrite EV, EU. reflexivity.
Qed.

End Idempotence.

(* --------------------------------------------------------------------- *)
(** ** Normalization erases the differences of [same_page] *)

Module Equivalence.

Import StringFacts UrlFacts UrlRoundTrip Normalize FormFacts QueryFacts Idempotence.

(** *** The collation order *)

Lemma cmp_by_eq_l r a : forall b c, cmp_by r a b = Eq -> cmp_by r a c = cmp_by r b c.
Proof.
  induction a as [|x a IH]; intros [|y b] c; simpl; try discriminate; [reflexivity|].
  destruct (Nat.compare (r x) (r y)) eqn:E; try discriminate.
  apply Nat.compare_eq in E. intros H. destruct c as [|z c]; simpl; [reflexivity|].
  rewrite E. destruct (Nat.compare (r y) (r z)); [apply IH; exact H| |]; reflexivity.
Qed.

Lemma cmp_by_eq_r r a b c : cmp_by r b c = Eq -> cmp_by r a b = cmp_by r a c.
Proof.
  intros H. rewrite (cmp_by_opp r b a), (cmp_by_opp r c a).
  f_equal. apply cmp_by_eq_l. exact H.
Qed.

Lemma cmp_by_lt_trans r a : forall b c,
    cmp_by r a b = Lt -> cmp_by r b c = Lt -> cmp_by r a c = Lt.
Proof.
  induction a as [|x a IH]; intros [|y b] [|z c]; simpl; try discriminate; try reflexivity.
  destruct (Nat.compare (r x) (r y)) eqn:E1; try discriminate;
    destruct (Nat.compare (r y) (r z)) eqn:E2; try discriminate; intros H1 H2.
  - apply Nat.compare_eq in E1, E2. rewrite E1, E2, Nat.compare_refl. eapply IH; eassumption.
  - apply Nat.compare_eq in E1. rewrite E1, E2. reflexivity.
  - apply Nat.compare_eq in E2. rewrite <- E2, E1. reflexivity.
  - apply Nat.compare_lt_iff in E1, E2.
    assert (E : Nat.compare (r x) (r z) = Lt) by (apply Nat.compare_lt_iff; lia).
    rewrite E. reflexivity.
Qed.

Lemma cmp_by_le_trans r a b c :
  cmp_by r a b <> Gt -> cmp_by r b c <> Gt -> cmp_by r a c <> Gt.
Proof.
  intros H1 H2. destruct (cmp_by r a b) eqn:E1; [| |contradiction].
  - rewrite (cmp_by_eq_l r a b c E1). exact H2.
  - destruct (cmp_by r b c) eqn:E2; [| |contradiction].
    + rewrite <- (cmp_by_eq_r r a b c E2), E1. discriminate.
    + rewrite (cmp_by_lt_trans r a b c E1 E2). discriminate.
Qed.

Lemma localeCompare_opp a b : localeCompare b a = CompOpp (localeCompare a b).
Proof. unfold localeCompare. apply compare_weights_opp. Qed.

Lemma compare_weights_le_trans a b c :
  compare_weights a b <> Gt -> compare_weights b c <> Gt -> compare_weights a c <> Gt.
Proof.
  unfold compare_weights.
  destruct (cmp_by collation_rank a b) eqn:E1; [| |contradiction];
    (destruct (cmp_by collation_rank b c) eqn:E2; [| |contradiction]); intros H1 H2.
  - rewrite (cmp_by_eq_l _ a b c E1), E2. eapply cmp_by_le_trans; eassumption.
  - rewrite (cmp_by_eq_l _ a b c E1), E2. discriminate.
  - rewrite <- (cmp_by_eq_r _ a b c E2), E1. discriminate.
  - rewrite (cmp_by_lt_trans _ a b c E1 E2). discriminate.
Qed.

Lemma localeCompare_le_trans a b c :
  localeCompare a b <> Gt -> localeCompare b c <> Gt -> localeCompare a c <> Gt.
Proof. unfold localeCompare. apply compare_weights_le_trans. Qed.

Lemma key_gt_false a b : key_gt a b = false <-> localeCompare (fst a) (fst b) <> Gt.
Proof.
  unfold key_gt. destruct (localeCompare (fst a) (fst b)); split; congruence.
Qed.

Lemma key_gt_trans a b c : key_gt a b = false -> key_gt b c = false -> key_gt a c = false.
Proof.
  rewrite !key_gt_false. apply localeCompare_le_trans.
Qed.

Lemma rank_inverts_all : forall c, rank_inverts c = true.
Proof. apply ascii_forall. vm_compute. reflexivity. Qed.

Lemma case_inverts_all : forall c, case_inverts c = true.
Proof. apply ascii_forall. vm_compute. reflexivity. Qed.

Lemma rank_letter c d : collation_rank c = collation_rank d -> lower_char c = lower_char d.
Proof.
  intros H. rewrite <- (proj1 (Ascii.eqb_eq _ _) (rank_inverts_all c)).
  rewrite <- (proj1 (Ascii.eqb_eq _ _) (rank_inverts_all d)), H. reflexivity.
Qed.

Lemma ranks_char c d :
  collation_rank c = collation_rank d -> case_rank c = case_rank d -> c = d.
Proof.
  intros H1 H2. rewrite <- (proj1 (Ascii.eqb_eq _ _) (case_inverts_all c)).
  rewrite <- (proj1 (Ascii.eqb_eq _ _) (case_inverts_all d)), H2, (rank_letter _ _ H1).
  reflexivity.
Qed.

(** Strings of equal primary weight are equal up to case. *)
Lemma primary_eq a : forall b, cmp_by collation_rank a b = Eq -> toLowerCase a = toLowerCase b.
Proof.
  induction a as [|x a IH]; intros [|y b]; simpl; try discriminate; [reflexivity|].
  destruct (Nat.compare (collation_rank x) (collation_rank y)) eqn:E; try discriminate.
  apply Nat.compare_eq in E. intros H. rewrite (rank_letter _ _ E), (IH b H). reflexivity.
Qed.

Lemma compare_weights_eq a : forall b, compare_weights a b = Eq -> a = b.
Proof.
  unfold compare_weights.
  induction a as [|x a IH]; intros [|y b]; simpl; try discriminate; [reflexivity|].
  destruct (Nat.compare (collation_rank x) (collation_rank y)) eqn:E1; try discriminate.
  destruct (cmp_by collation_rank a b) eqn:E2; try discriminate.
  destruct (Nat.compare (case_rank x) (case_rank y)) eqn:E3; try discriminate.
  apply Nat.compare_eq in E1, E3. intros H.
  rewrite (ranks_char _ _ E1 E3). f_equal. apply IH. rewrite E2. exact H.
Qed.

(** Two strings compare as equal only if they are the same but for
    ignored characters. *)
Lemma localeCompare_eq a b : localeCompare a b = Eq -> collation_key a = collation_key b.
Proof. unfold localeCompare. apply compare_weights_eq. Qed.

Lemma key_gt_total a b : key_gt a b = false -> key_gt b a = false -> sort_key a = sort_key b.
Proof.
  rewrite !key_gt_false, (localeCompare_opp (fst a) (fst b)). intros H1 H2.
  apply localeCompare_eq. destruct (localeCompare (fst a) (fst b)); simpl in *; congruence.
Qed.

(** *** Sorted permutations *)

Lemma sorted_unique {A : Type} (R : A -> A -> Prop) l1 : forall l2,
    StronglySorted R l1 -> StronglySorted R l2 -> Permutation l1 l2 ->
    (forall a b, In a l1 -> In b l1 -> R a b -> R b a -> a = b) ->
    l1 = l2.
Proof.
  induction l1 as [|a t1 IH]; intros l2 S1 S2 P anti.
  - apply Permutation_nil in P. congruence.
  - destruct l2 as [|b t2]; [apply Permutation_sym, Permutation_nil in P; discriminate|].
    inversion S1 as [|? ? S1' F1]; subst. inversion S2 as [|? ? S2' F2]; subst.
    assert (E : a = b).
    { assert (Ia : In a (b :: t2)) by (eapply Permutation_in; [exact P|left; reflexivity]).
      assert (Ib : In b (a :: t1))
        by (eapply Permutation_in; [apply Permutation_sym; exact P|left; reflexivity]).
      destruct Ia as [->|Ia]; [reflexivity|]. destruct Ib as [->|Ib]; [reflexivity|].
      rewrite Forall_forall in F1, F2.
      apply anti; [left; reflexivity|right; exact Ib|apply F1; exact Ib|apply F2; exact Ia]. }
    subst b. f_equal. apply IH; try assumption.
    + eapply Permutation_cons_inv. exact P.
    + intros x y Hx Hy. apply anti; right; assumption.
Qed.

Lemma NoDup_map_In {A B : Type} (f : A -> B) l a b :
  NoDup (map f l) -> In a l -> In b l -> f a = f b -> a = b.
Proof.
  induction l as [|x l IH]; simpl; [contradiction|].
  intros N Ha Hb E. inversion N as [|? ? Nx Nl]; subst.
  destruct Ha as [->|Ha], Hb as [->|Hb]; try reflexivity.
  - exfalso. apply Nx. rewrite E. apply in_map. exact Hb.
  - exfalso. apply Nx. rewrite <- E. apply in_map. exact Ha.
  - apply IH; assumption.
Qed.

(** The sorted order of parameters no two of which have keys that compare
    as equal does not depend on the order they came in. *)
Lemma sort_by_permutation l1 l2 :
  Permutation l1 l2 -> NoDup (map sort_key l1) ->
  sort_by key_gt l1 = sort_by key_gt l2.
Proof.
  intros P N. apply (sorted_unique (fun a b => key_gt a b = false)).
  - apply sort_by_sorted; [exact key_gt_trans|exact key_gt_asym].
  - apply sort_by_sorted; [exact key_gt_trans|exact key_gt_asym].
  - eapply perm_trans; [apply sort_by_perm|].
    eapply perm_trans; [exact P|]. apply Permutation_sym, sort_by_perm.
  - intros a b Ha Hb H1 H2.
    apply (NoDup_map_In sort_key l1); try assumption.
    + eapply Permutation_in; [apply sort_by_perm|exact Ha].
    + eapply Permutation_in; [apply sort_by_perm|exact Hb].
    + apply key_gt_total; assumption.
Qed.

(** *** Letter case in the query *)

Lemma hex_value_folds_all : forall c, hex_value_folds c = true.
Proof. apply ascii_forall. vm_compute. reflexivity. Qed.

Lemma hex_value_lower c : URL.hex_value (lower_char c) = URL.hex_value c.
Proof.
  pose proof (hex_value_folds_all c) as T. unfold hex_value_folds in T.
  destruct (URL.hex_value (lower_char c)), (URL.hex_value c); try discriminate; [|reflexivity].
  apply Nat.eqb_eq in T. congruence.
Qed.

Lemma percent_lower : forall c, Ascii.eqb (lower_char c) "%" = Ascii.eqb c "%".
Proof.
  intros c. apply Bool.eqb_prop. revert c. apply ascii_forall. vm_compute. reflexivity.
Qed.

Lemma percent_decode_escape c h1 h2 rest :
  URL.percent_decode (String c (String h1 (String h2 rest)))
  = match (if Ascii.eqb c "%" then URL.hex_value h1 else None), URL.hex_value h2 with
    | Some a, Some b => String (ascii_of_nat (16 * a + b)) (URL.percent_decode rest)
    | _, _ => String c (URL.percent_decode (String h1 (String h2 rest)))
    end.
Proof. reflexivity. Qed.

Lemma percent_decode_fold_n n : forall s,
    String.length s <= n ->
    toLowerCase (URL.percent_decode (toLowerCase s)) = toLowerCase (URL.percent_decode s).
Proof.
  induction n as [|n IH]; intros s L.
  - destruct s; [reflexivity|simpl in L; lia].
  - destruct s as [|c s]; [reflexivity|].
    assert (Tail : toLowerCase (String (lower_char c) (URL.percent_decode (toLowerCase s)))
                   = toLowerCase (String c (URL.percent_decode s))).
    { cbn [toLowerCase]. rewrite lower_char_idem. f_equal. apply IH. simpl in L. lia. }
    destruct s as [|h1 [|h2 rest]]; [exact Tail|exact Tail|].
    change (toLowerCase (String c (String h1 (String h2 rest))))
      with (String (lower_char c)
              (String (lower_char h1) (String (lower_char h2) (toLowerCase rest)))).
    rewrite !percent_decode_escape, percent_lower, !hex_value_lower.
    destruct (if Ascii.eqb c "%" then URL.hex_value h1 else None); [|exact Tail].
    destruct (URL.hex_value h2); [|exact Tail].
    cbn [toLowerCase]. f_equal. apply IH. simpl in L. lia.
Qed.

Lemma percent_decode_fold s :
  toLowerCase (URL.percent_decode (toLowerCase s)) = toLowerCase (URL.percent_decode s).
Proof. apply (percent_decode_fold_n (String.length s)). apply Nat.le_refl. Qed.

Lemma plus_to_space_lower s :
  URL.plus_to_space (toLowerCase s) = toLowerCase (URL.plus_to_space s).
Proof.
  unfold URL.plus_to_space. induction s as [|c s IH]; [reflexivity|].
  cbn [toLowerCase smap]. rewrite IH. f_equal.
  apply Ascii.eqb_eq. revert c. apply ascii_forall. vm_compute. reflexivity.
Qed.

Lemma form_decode_fold s :
  toLowerCase (URL.form_decode (toLowerCase s)) = toLowerCase (URL.form_decode s).
Proof.
  unfold URL.form_decode. rewrite plus_to_space_lower. apply percent_decode_fold.
Qed.

Lemma break_lower p s :
  (forall c, p (lower_char c) = p c) ->
  break p (toLowerCase s) = (toLowerCase (fst (break p s)), toLowerCase (snd (break p s))).
Proof.
  intros H. induction s as [|c s IH]; [reflexivity|].
  cbn [toLowerCase break]. rewrite H. destruct (p c); [reflexivity|].
  rewrite IH. reflexivity.
Qed.

Lemma eq_sign_lower : forall c, is_char "=" (lower_char c) = is_char "=" c.
Proof.
  intros c. apply Bool.eqb_prop. revert c. apply ascii_forall. vm_compute. reflexivity.
Qed.

Lemma ampersand_lower : forall c, is_char "&" (lower_char c) = is_char "&" c.
Proof.
  intros c. apply Bool.eqb_prop. revert c. apply ascii_forall. vm_compute. reflexivity.
Qed.

Lemma parse_pair_fold piece :
  lower_pair (URL.parse_pair (toLowerCase piece)) = lower_pair (URL.parse_pair piece).
Proof.
  unfold URL.parse_pair, lower_pair. rewrite (break_lower _ piece eq_sign_lower).
  cbn [fst snd]. rewrite form_decode_fold. f_equal.
  destruct (snd (break (is_char "=") piece)) as [|c v]; [reflexivity|].
  cbn [toLowerCase]. apply form_decode_fold.
Qed.

Lemma nonempty_lower s : nonempty (toLowerCase s) = nonempty s.
Proof. destruct s; reflexivity. Qed.

Lemma filter_map {A B : Type} (f : A -> B) (p : B -> bool) (q : A -> bool) l :
  (forall x, p (f x) = q x) -> filter p (map f l) = map f (filter q l).
Proof.
  intros H. induction l as [|x l IH]; [reflexivity|].
  cbn [map filter]. rewrite H, IH. destruct (q x); reflexivity.
Qed.

(** Parsing a query and its lower-cased form gives the same parameters up
    to letter case. *)
Lemma parse_fold q :
  map lower_pair (URL.urlencoded_parse (toLowerCase q))
  = map lower_pair (URL.urlencoded_parse q).
Proof.
  unfold URL.urlencoded_parse.
  rewrite (split_by_lower _ q ampersand_lower).
  rewrite (filter_map toLowerCase nonempty nonempty _ nonempty_lower).
  rewrite !map_map. apply map_ext. exact parse_pair_fold.
Qed.

Lemma key_gt_fold a b :
  folded_key a <> folded_key b -> key_gt (lower_pair a) (lower_pair b) = key_gt a b.
Proof.
  unfold folded_key, sort_key, key_gt, lower_pair. cbn [fst]. intros N.
  rewrite localeCompare_lower. unfold localeCompare, compare_weights.
  destruct (cmp_by collation_rank (collation_key (fst a)) (collation_key (fst b))) eqn:E;
    try reflexivity.
  exfalso. apply N. apply primary_eq. exact E.
Qed.

Lemma insert_by_fold x l :
  Forall (fun y => folded_key x <> folded_key y) l ->
  map lower_pair (insert_by key_gt x l) = insert_by key_gt (lower_pair x) (map lower_pair l).
Proof.
  induction 1 as [|y l Hy Hl IH]; [reflexivity|].
  cbn [map insert_by]. rewrite (key_gt_fold _ _ Hy).
  destruct (key_gt x y); cbn [map]; [rewrite IH|]; reflexivity.
Qed.

Lemma sort_by_fold l :
  NoDup (map folded_key l) ->
  map lower_pair (sort_by key_gt l) = sort_by key_gt (map lower_pair l).
Proof.
  induction l as [|x l IH]; [reflexivity|].
  cbn [map]. intros N. inversion N as [|? ? Nx Nl]; subst.
  unfold sort_by. cbn [fold_right].
  change (fold_right (insert_by key_gt) []) with (@sort_by (string * string) key_gt).
  rewrite insert_by_fold, (IH Nl); [reflexivity|].
  apply Forall_forall. intros y Hy E. apply Nx. rewrite E. apply in_map.
  eapply Permutation_in; [apply sort_by_perm|exact Hy].
Qed.

(** *** The parts of the key *)

Lemma key_parts_href u v :
  key_parts u = key_parts v ->
  toLowerCase (URL.href (norm_record u)) = toLowerCase (URL.href (norm_record v)).
Proof.
  unfold key_parts. intros E. injection E as Es Eh Ep Epath Eq.
  rewrite (href_eq (norm_record u) eq_refl), (href_eq (norm_record v) eq_refl).
  cbn [norm_record URL.scheme URL.host URL.port URL.path URL.query].
  rewrite !lower_app, !pathname_of_lower, Es, Eh, Ep, Epath, Eq. reflexivity.
Qed.

Lemma drop_trailing_empty_slash p : drop_trailing_empty (p ++ [""]) = drop_trailing_empty p.
Proof. unfold drop_trailing_empty. rewrite fold_right_app. reflexivity. Qed.

Lemma filter_nonempty_slash p : filter nonempty (p ++ [""]) = filter nonempty p.
Proof. rewrite filter_app. cbn. apply app_nil_r. Qed.

Lemma norm_path_slash p : norm_path (p ++ [""]) = norm_path p.
Proof.
  unfold norm_path, rlp_segs. rewrite filter_nonempty_slash.
  destruct (filter nonempty p) as [|p0 rest]; [|destruct (is_language p0); [reflexivity|]];
    unfold strip_segs; rewrite drop_trailing_empty_slash; reflexivity.
Qed.

Lemma drop_trailing_empty_full p :
  Forall (fun s => nonempty s = true) p -> drop_trailing_empty p = p.
Proof.
  induction 1 as [|s p Hs Hp IH]; [reflexivity|].
  rewrite drop_trailing_empty_cons, IH, Hs. destruct p; reflexivity.
Qed.

Lemma filter_nonempty_full p : Forall (fun s => nonempty s = true) (filter nonempty p).
Proof. apply Forall_forall. intros s H. apply filter_In in H. tauto. Qed.

Lemma language_nonempty l : is_language l = true -> nonempty l = true.
Proof. destruct l; [vm_compute; discriminate|reflexivity]. Qed.

Lemma norm_path_locale l p :
  is_language l = true -> language_first p = false -> compact p ->
  norm_path (l :: p) = norm_path p.
Proof.
  intros L F C. unfold norm_path. rewrite (rlp_segs_plain p F).
  unfold rlp_segs. cbn [filter]. rewrite (language_nonempty l L), L.
  unfold strip_segs. rewrite <- C.
  destruct (filter nonempty p) as [|p0 rest] eqn:E; [reflexivity|].
  rewrite drop_trailing_empty_full; [reflexivity|].
  rewrite <- E. apply filter_nonempty_full.
Qed.

Lemma is_language_lower s : is_language (toLowerCase s) = is_language s.
Proof. unfold is_language. rewrite lower_idem. reflexivity. Qed.

Lemma rlp_segs_lower p : rlp_segs (map toLowerCase p) = map toLowerCase (rlp_segs p).
Proof.
  unfold rlp_segs.
  rewrite (filter_map toLowerCase nonempty nonempty _ nonempty_lower).
  destruct (filter nonempty p) as [|p0 rest]; [reflexivity|].
  cbn [map]. rewrite is_language_lower.
  destruct (is_language p0); [|reflexivity]. destruct rest; reflexivity.
Qed.

Lemma norm_path_lower p : norm_path (map toLowerCase p) = map toLowerCase (norm_path p).
Proof. unfold norm_path. rewrite rlp_segs_lower. apply strip_segs_lower. Qed.

Lemma norm_query_order q1 q2 :
  Permutation (params q1) (params q2) -> NoDup (map sort_key (params q1)) ->
  norm_query q1 = norm_query q2.
Proof.
  intros P N. unfold norm_query, sorted_params. fold (params q1). fold (params q2).
  rewrite (sort_by_permutation _ _ P N). reflexivity.
Qed.

Lemma query_string_fold q :
  toLowerCase (query_string (norm_query q))
  = query_string (if_nonempty (toLowerCase (URL.urlencoded_serialize (sorted_params q)))).
Proof.
  unfold norm_query. destruct (URL.urlencoded_serialize (sorted_params q)); reflexivity.
Qed.

Lemma norm_query_case q1 q2 :
  option_map toLowerCase q2 = option_map toLowerCase q1 ->
  NoDup (map folded_key (params q1)) ->
  toLowerCase (query_string (norm_query q2)) = toLowerCase (query_string (norm_query q1)).
Proof.
  intros E N.
  assert (T : toLowerCase (query_text q2) = toLowerCase (query_text q1)).
  { destruct q1, q2; try discriminate; [|reflexivity]. injection E as E. exact E. }
  assert (M : map lower_pair (params q2) = map lower_pair (params q1)).
  { unfold params. rewrite <- (parse_fold (query_text q2)), T. apply parse_fold. }
  assert (N2 : NoDup (map folded_key (params q2))).
  { replace (map folded_key (params q2)) with (map sort_key (map lower_pair (params q2)))
      by (rewrite map_map; apply map_ext; intros e; apply collation_key_lower).
    rewrite M, map_map.
    replace (map (fun x => sort_key (lower_pair x)) (params q1))
      with (map folded_key (params q1))
      by (apply map_ext; intros e; symmetry; apply collation_key_lower).
    exact N. }
  rewrite !query_string_fold. unfold sorted_params. fold (params q1). fold (params q2).
  rewrite <- (serialize_lower_pairs (sort_by key_gt (params q2))).
  rewrite <- (serialize_lower_pairs (sort_by key_gt (params q1))).
  rewrite (sort_by_fold _ N), (sort_by_fold _ N2), M. reflexivity.
Qed.

(** *** What a language prefix costs *)

Lemma filter_drop_trailing_empty p :
  filter nonempty (drop_trailing_empty p) = filter nonempty p.
Proof.
  induction p as [|s p IH]; [reflexivity|]. rewrite drop_trailing_empty_cons.
  cbn [filter]. rewrite <- IH.
  destruct (drop_trailing_empty p) as [|r rest]; [|reflexivity].
  destruct s; reflexivity.
Qed.

Lemma filter_strip_segs p : filter nonempty (strip_segs p) = filter nonempty p.
Proof.
  unfold strip_segs. rewrite <- (filter_drop_trailing_empty p).
  destruct (drop_trailing_empty p); reflexivity.
Qed.

(** A path that begins with a language code loses a segment. *)
Lemma norm_path_shorter p :
  language_first p = true ->
  S (List.length (filter nonempty (norm_path p))) = List.length (filter nonempty p).
Proof.
  unfold language_first, norm_path, rlp_segs. rewrite filter_strip_segs.
  destruct (filter nonempty p) as [|p0 rest] eqn:E; [discriminate|].
  intros ->. cbn [List.length]. f_equal.
  assert (F : Forall (fun s => nonempty s = true) (p0 :: rest))
    by (rewrite <- E; apply filter_nonempty_full).
  inversion F as [|? ? _ Fr]; subst.
  destruct rest as [|r rest]; [reflexivity|]. rewrite (filter_all _ _ Fr). reflexivity.
Qed.

Lemma filter_nonempty_lower p :
  filter nonempty (map toLowerCase p) = map toLowerCase (filter nonempty p).
Proof. apply filter_map. exact nonempty_lower. Qed.

End Equivalence.

(* --------------------------------------------------------------------- *)
(** ** Lemmas for the further properties *)

Import TraceSpec BatchTraceSpec KeySpec BatchVocabulary GateSpec QueueSpec.

(** *** Normalized keys *)

Module KeyFacts.

Import StringFacts UrlFacts UrlRoundTrip Normalize FormFacts QueryFacts Idempotence Equivalence.

Lemma sorted_params_ascend l :
  keys_ascend (map lower_pair (sort_by key_gt l)).
Proof.
  rewrite <- (sort_by_ordered key_gt (map lower_pair (sort_by key_gt l)))
    by (apply ordered_lower; apply sort_by_is_ordered; exact key_gt_asym).
  pose proof (sort_by_sorted key_gt key_gt_trans key_gt_asym
                (map lower_pair (sort_by key_gt l))) as S.
  unfold keys_ascend. induction S as [|a t S IH F]; constructor; [exact IH|].
  eapply Forall_impl; [|exact F]. intros b H. apply key_gt_false. exact H.
Qed.

Lemma searchParams_of_key u :
  URL.searchParams (lower_record (norm_record u))
  = map lower_pair (sorted_params (URL.query u)).
Proof.
  unfold URL.searchParams. cbn [lower_record norm_record URL.query].
  unfold norm_query, if_nonempty.
  destruct (URL.urlencoded_serialize (sorted_params (URL.query u))) as [|c s] eqn:E.
  - apply serialize_empty in E. rewrite E. reflexivity.
  - rewrite <- E. cbn [option_map]. apply parse_lower_serialize.
Qed.

Lemma strip_segs_cases p :
  strip_segs p = [""] \/ (strip_segs p = drop_trailing_empty p /\ drop_trailing_empty p <> []).
Proof.
  unfold strip_segs. destruct (drop_trailing_empty p) eqn:E; [left; reflexivity|].
  right. split; [reflexivity|discriminate].
Qed.

Lemma pathname_of_key u :
  WF u ->
  URL.pathname (lower_record (norm_record u)) = "/"
  \/ strip_trailing (is_char "/") (URL.pathname (lower_record (norm_record u)))
     = URL.pathname (lower_record (norm_record u)).
Proof.
  intros W. rewrite pathname_eq. cbn [lower_record norm_record URL.path].
  unfold norm_path. rewrite <- strip_segs_lower.
  destruct (strip_segs_cases (map toLowerCase (rlp_segs (URL.path u)))) as [->|[-> N]];
    [left; reflexivity|right].
  rewrite strip_trailing_pathname, drop_trailing_empty_idem; [reflexivity|].
  apply drop_trailing_empty_ok.
  apply (path_ok_lower _ (rlp_segs_ok _ (wf_path u W))).
Qed.

Lemma normalized_valid u : normalized u -> isValidUrl u = true /\ toLowerCase u = u.
Proof.
  intros [x E].
  destruct (URL.new_URL x) as [U|] eqn:EU;
    [|unfold normalizeUrl in E; rewrite EU in E; discriminate].
  rewrite (normalizeUrl_record _ _ EU) in E. injection E as <-.
  pose proof (new_URL_href_lower _ (norm_record_WF U (new_URL_WF _ _ EU)) eq_refl) as EV.
  split; [unfold isValidUrl; rewrite EV; reflexivity|apply lower_idem].
Qed.

End KeyFacts.

(** *** Patterns *)

Module PatternFacts.

Import Regex StringFacts.

(** A match of the pattern on a suffix is found from wherever the search
    starts. *)
Lemma search_suffix r t s : forall prev,
    (forall p, rmatch r p t (fun _ _ => true) = true) ->
    search r prev (s ++ t) = true.
Proof.
  induction s as [|c s IH]; intros prev H.
  - cbn [append]. destruct t; cbn [search]; rewrite H; reflexivity.
  - cbn [append search]. rewrite (IH (Some c) H). apply orb_true_r.
Qed.

Lemma rmatch_alts l prev s k :
  rmatch (alts l) prev s k = existsb (fun r => rmatch r prev s k) l.
Proof.
  induction l as [|r l IH]; [destruct s; reflexivity|].
  destruct l as [|r' l]; [cbn; rewrite orb_false_r; reflexivity|].
  change (alts (r :: r' :: l)) with (Alt r (alts (r' :: l))).
  cbn [rmatch existsb]. rewrite IH. reflexivity.
Qed.

(** A literal under the [i] flag matches any spelling of itself. *)
Lemma rmatch_lit x : forall e prev rest k,
    toLowerCase e = toLowerCase x ->
    rmatch (lit x) prev (e ++ rest) k = k (last_char prev e) rest.
Proof.
  induction x as [|c x IH]; intros [|d e] prev rest k H; try discriminate; [reflexivity|].
  cbn [toLowerCase] in H. injection H as Hc He.
  cbn [lit append rmatch chr_i last_char]. rewrite Hc, (proj2 (Ascii.eqb_eq _ _) eq_refl).
  cbn [andb]. apply IH. exact He.
Qed.

Lemma rmatch_lits l e prev rest k :
  In (toLowerCase e) l ->
  k (last_char prev e) rest = true ->
  rmatch (lits l) prev (e ++ rest) k = true.
Proof.
  intros H K. unfold lits. rewrite rmatch_alts. apply existsb_exists.
  exists (lit (toLowerCase e)). split; [apply in_map; exact H|].
  rewrite rmatch_lit; [exact K|]. symmetry. apply lower_idem.
Qed.

Lemma asset_extension_matches s e :
  In (toLowerCase e) asset_extensions ->
  isResourceUrl (s ++ "." ++ e) = true.
Proof.
  intros H. unfold isResourceUrl. apply existsb_exists.
  change asset_extensions
    with (["js"; "css"; "png"; "jpg"; "jpeg"; "gif"; "ico"; "svg"; "woff"; "woff2"; "ttf";
           "eot"; "map"; "webp"] ++ ["br"; "gz"; "zip"; "rar"; "7z"; "tar"; "bz2"]) in H.
  apply in_app_or in H. destruct H as [H|H].
  - exists (nth 0 resourcePatterns Eps). split; [left; reflexivity|].
    apply search_suffix. intros p. cbn [nth resourcePatterns seq rmatch].
    rewrite (rmatch_lit "." "." p e); [|reflexivity].
    rewrite <- (app_nil_r_s e) at 1. apply rmatch_lits; [exact H|reflexivity].
  - exists (nth 3 resourcePatterns Eps). split; [right; right; right; left; reflexivity|].
    apply search_suffix. intros p. cbn [nth resourcePatterns seq rmatch].
    rewrite (rmatch_lit "." "." p e); [|reflexivity].
    rewrite <- (app_nil_r_s e) at 1. apply rmatch_lits; [exact H|reflexivity].
Qed.

End PatternFacts.

(** *** Histories of the sequential crawler *)

Module TraceFacts.

Import Crawler SeqSpec SeqFacts SeqInv.

Lemma fetched_app h1 h2 : fetched (h1 ++ h2) = fetched h1 ++ fetched h2.
Proof. apply flat_map_app. Qed.


Lemma fetched_In u h : In u (fetched h) <-> In (Fetch u) h.
Proof.
  unfold fetched. rewrite in_flat_map. split.
  - intros [[x|x] [H1 H2]]; simpl in H2; [|contradiction].
    destruct H2 as [->|[]]. exact H1.
  - intros H. exists (Fetch u). split; [exact H|left; reflexivity].
Qed.



(** What [keep_product] adds. *)
Lemma keep_product_cases cur pa st st' :
  keep_product cur pa st = Some st' ->
  history st' = history st
  /\ (found st' = found st
      \/ exists p0 key,
          pageType pa = "product" /\ product pa = Some p0 /\ normalizeUrl cur = Some key
          /\ found st' = found st ++ [with_url key p0]).
Proof.
  unfold keep_product. destruct (product pa) as [p0|]; [|intros [= <-]; auto].
  destruct (String.eqb (pageType pa) "product") eqn:T; [|intros [= <-]; auto].
  destruct (normalizeUrl cur) as [key|]; [|discriminate].
  destruct (Set_has (seenProductUrls st) key); intros [= <-]; [auto|].
  split; [reflexivity|]. right. exists p0, key. apply String.eqb_eq in T. auto.
Qed.

Section Step.

Variables (w : World) (baseDomain start : string).

(** What one iteration adds to the history and to the products. *)
Lemma seq_iteration_trace cur rest st :
  pendingUrls st = cur :: rest ->
  (history (iteration w baseDomain start st) = history st
   /\ found (iteration w baseDomain start st) = found st)
  \/ (nonempty cur = true /\ isResourceUrl cur = false
      /\ ((history (iteration w baseDomain start st) = history st ++ [Fetch cur]
           /\ found (iteration w baseDomain start st) = found st
           /\ forall pr, fetchPage w (history st) cur <> Return (Some pr))
          \/ exists pr,
              fetchPage w (history st) cur = Return (Some pr)
              /\ history (iteration w baseDomain start st)
                 = history st ++ [Fetch cur; Analyze cur]
              /\ (found (iteration w baseDomain start st) = found st
                  \/ exists p0 key,
                      pageType (pageAnalysis w baseDomain cur pr st) = "product"
                      /\ product (pageAnalysis w baseDomain cur pr st) = Some p0
                      /\ normalizeUrl cur = Some key
                      /\ found (iteration w baseDomain start st)
                         = found st ++ [with_url key p0]))).
Proof.
  intros P. unfold iteration. rewrite P.
  destruct (nonempty cur) eqn:N; cbn [negb]; [|left; split; reflexivity].
  destruct (isResourceUrl cur) eqn:Rs; [left; split; reflexivity|].
  destruct (negb (isLikely (isLikelyProductOrListingUrl cur)) && negb (String.eqb start cur));
    [left; split; reflexivity|].
  right. split; [reflexivity|]. split; [reflexivity|]. unfold process.
  change (history (set_pending rest st)) with (history st).
  destruct (fetchPage w (history st) cur) as [[pr|]|e] eqn:F.
  - right. exists pr.
    split; [reflexivity|].
    match goal with |- context [keep_product cur ?pa ?s] =>
      destruct (keep_product cur pa s) as [st3|] eqn:K end.
    + apply keep_product_cases in K. destruct K as [Kh Kf].
      match goal with |- context [fold_left enqueue ?l st3] =>
        destruct (seq_enqueue_fold l st3) as [added (_ & _ & Hf & _ & Hh & _)] end.
      rewrite Hh, Hf, Kh. cbn [history record set_pending found].
      rewrite <- app_assoc. split; [reflexivity|].
      destruct Kf as [Kf|(p0 & key & K1 & K2 & K3 & K4)]; [left; exact Kf|].
      right. exists p0, key. cbn [history record set_pending found] in *.
      split; [exact K1|split; [exact K2|split; [exact K3|exact K4]]].
    + cbn [history record set_pending found]. rewrite <- app_assoc.
      split; [reflexivity|left; reflexivity].
  - left. cbn. split; [reflexivity|]. split; [reflexivity|]. intros pr. discriminate.
  - left. cbn. split; [reflexivity|]. split; [reflexivity|]. intros pr. discriminate.
Qed.

End Step.

Lemma extracted_app w baseDomain start maxPages tr evs p :
  extracted w baseDomain start maxPages tr p ->
  extracted w baseDomain start maxPages (tr ++ evs) p.
Proof.
  intros (st & u & rest & h2 & pr & p0 & key & R & G & P & -> & H).
  exists st, u, rest, (h2 ++ evs), pr, p0, key.
  split; [exact R|]. split; [exact G|]. split; [exact P|]. split; [|exact H].
  rewrite <- app_assoc. reflexivity.
Qed.

(** What holds of the history and of the products at every head of the
    loop. *)
Lemma seq_trace_reachable w baseDomain start maxPages st :
  reachable (continue maxPages) (iteration w baseDomain start) (initial start) st ->
  seq_trace w (history st)
  /\ NoDup (fetched (history st))
  /\ (forall u, In (Fetch u) (history st) -> nonempty u = true /\ isResourceUrl u = false)
  /\ (forall p, In p (found st) ->
        extracted w baseDomain start maxPages (history st) p).
Proof.
  induction 1 as [|st R IH G].
  - cbn. repeat split; try constructor; contradiction.
  - destruct IH as (T & N & F & X).
    pose proof (seq_Inv_reachable _ _ _ _ _ R) as I.
    destruct (seq_continue_pending _ _ G) as (cur & rest & P & _).
    assert (Fresh : ~ In cur (fetched (history st))).
    { intros H. apply fetched_In in H.
      destruct (called_visited _ _ _ I cur (or_introl H)) as [_ C].
      apply C. rewrite P. left. reflexivity. }
    destruct (seq_iteration_trace w baseDomain start cur rest st P)
      as [[Hh Hf]|(Ne & Rs & [(Hh & Hf & Fail)|(pr & Ok & Hh & Hf)])];
      rewrite Hh.
    + rewrite Hf. auto.
    + rewrite Hf. split; [apply trace_no_page; assumption|]. split; [|split].
      * rewrite fetched_app. cbn. apply NoDup_app; [exact N|repeat constructor; intros []|].
        intros x Hx [<-|[]]. exact (Fresh Hx).
      * intros u Hu. apply in_app_or in Hu. destruct Hu as [Hu|[[= <-]|[]]]; auto.
      * intros p Hp. apply extracted_app. apply X. exact Hp.
    + split; [eapply trace_page; eassumption|]. split; [|split].
      * rewrite fetched_app. cbn. apply NoDup_app; [exact N|repeat constructor; intros []|].
        intros x Hx [<-|[]]. exact (Fresh Hx).
      * intros u Hu. apply in_app_or in Hu.
        destruct Hu as [Hu|[[= <-]|[Hu|[]]]]; auto; discriminate.
      * intros p Hp. destruct Hf as [Hf|(p0 & key & K1 & K2 & K3 & Hf)]; rewrite Hf in Hp.
        -- apply extracted_app. apply X. exact Hp.
        -- apply in_app_or in Hp. destruct Hp as [Hp|[<-|[]]];
             [apply extracted_app; apply X; exact Hp|].
           exists st, cur, rest, [], pr, p0, key.
           split; [exact R|]. split; [exact G|]. split; [exact P|].
           split; [reflexivity|]. split; [exact Ok|]. split; [exact K1|].
           split; [exact K2|]. split; [exact K3|reflexivity].
Qed.



End TraceFacts.

(** *** [deduplicateProducts] *)

Module DedupFacts.

Lemma subseq_refl {A : Type} (l : list A) : subseq l l.
Proof. induction l; [constructor|apply subseq_keep; assumption]. Qed.

Lemma dedup_fold_subseq l : forall acc,
    exists kept, fold_left dedup_step l acc = acc ++ kept /\ subseq kept l.
Proof.
  induction l as [|p l IH]; intros acc; cbn [fold_left].
  - exists []. rewrite app_nil_r. split; [reflexivity|constructor].
  - unfold dedup_step at 2.
    destruct (existsb (fun q => String.eqb (url q) (url p)) acc).
    + destruct (IH acc) as [kept [E S]]. exists kept. split; [exact E|apply subseq_skip; exact S].
    + destruct (IH (acc ++ [p])) as [kept [E S]]. exists (p :: kept).
      rewrite E, <- app_assoc. split; [reflexivity|apply subseq_keep; exact S].
Qed.

Lemma dedup_idempotent l :
  deduplicateProducts (deduplicateProducts l) = deduplicateProducts l.
Proof.
  rewrite (deduplicateProducts_fold (deduplicateProducts l)).
  apply (dedup_fold_id _ []). cbn [app].
  rewrite deduplicateProducts_fold. apply dedup_fold_NoDup. constructor.
Qed.

End DedupFacts.

(** *** The page pool *)

Module PoolFacts.

Import PagePool PoolSpec.

Lemma removelast_last (l : list Page) : l <> [] -> removelast l ++ [last l 0] = l.
Proof. intros H. symmetry. apply app_removelast_last. exact H. Qed.

Lemma fetch_cycle_id st :
  0 < List.length (pagePool st) <= MAX_CONCURRENT_PAGES -> fetch_cycle st = st.
Proof.
  intros [L U]. unfold fetch_cycle, getPage.
  destruct (pagePool st) as [|p l] eqn:E; [simpl in L; lia|].
  cbn [fst snd]. unfold releasePage. cbn [pagePool].
  assert (Len : List.length (removelast (p :: l)) = List.length l).
  { pose proof (removelast_last (p :: l)) as H.
    assert (H' := f_equal (@List.length Page) (H ltac:(discriminate))).
    rewrite length_app in H'. simpl in H'. simpl. lia. }
  rewrite Len. simpl in U.
  destruct (Nat.ltb_spec (List.length l) MAX_CONCURRENT_PAGES) as [_|C]; [|lia].
  unfold push. cbn [pagePool browser launches pages closed].
  rewrite removelast_last by discriminate. rewrite <- E. destruct st; reflexivity.
Qed.

Lemma iter_fetch_cycle_id n st :
  0 < List.length (pagePool st) <= MAX_CONCURRENT_PAGES -> Nat.iter n fetch_cycle st = st.
Proof.
  intros H. induction n as [|n IH]; [reflexivity|].
  change (Nat.iter (S n) fetch_cycle st) with (fetch_cycle (Nat.iter n fetch_cycle st)).
  rewrite IH.
  apply fetch_cycle_id. exact H.
Qed.

Lemma close_fold l : forall st,
    pagePool (fold_left (fun st page => close page st) l st) = pagePool st
    /\ closed (fold_left (fun st page => close page st) l st) = closed st ++ l
    /\ browser (fold_left (fun st page => close page st) l st) = browser st
    /\ pages (fold_left (fun st page => close page st) l st) = pages st
    /\ launches (fold_left (fun st page => close page st) l st) = launches st.
Proof.
  induction l as [|p l IH]; intros st; cbn [fold_left].
  - rewrite app_nil_r. auto.
  - destruct (IH (close p st)) as (A & B & C & D & E).
    rewrite A, B, C, D, E. cbn. rewrite <- app_assoc. auto.
Qed.

Lemma call_bound st c :
  List.length (pagePool (call st c))
  <= Nat.max (List.length (pagePool st)) MAX_CONCURRENT_PAGES.
Proof.
  destruct c as [|p]; cbn [call].
  - unfold getPage. destruct (pagePool st) as [|q l] eqn:E; cbn [snd newPage pagePool].
    + rewrite E. simpl. lia.
    + pose proof (removelast_last (q :: l) ltac:(discriminate)) as H.
      apply (f_equal (@List.length Page)) in H. rewrite length_app in H. simpl in H.
      simpl. lia.
  - unfold releasePage.
    destruct (Nat.ltb_spec (List.length (pagePool st)) MAX_CONCURRENT_PAGES);
      cbn [push close pagePool]; [rewrite length_app; simpl|]; lia.
Qed.

End PoolFacts.

(** *** [chunk], priorities, the budget of the batched crawler *)

Module ChunkFacts.

Import BatchCrawler.

Lemma chunk_nil {T : Type} size : 0 < size -> chunk (@nil T) size = [].
Proof.
  intros H. unfold chunk. cbn [List.length].
  replace ((0 + size - 1) / size) with 0; [reflexivity|].
  symmetry. apply Nat.div_small. lia.
Qed.

Lemma chunk_count (len size : nat) :
  0 < size -> 0 < len ->
  (len + size - 1) / size = S ((len - size + size - 1) / size).
Proof.
  intros Hs Hl. destruct (Nat.le_gt_cases size len) as [L|L].
  - replace (len + size - 1) with ((len - 1) + 1 * size) by lia.
    rewrite Nat.div_add by lia. replace (len - size + size - 1) with (len - 1) by lia. lia.
  - replace (len - size + size - 1) with (size - 1) by lia.
    rewrite (Nat.div_small (size - 1)) by lia.
    replace (len + size - 1) with ((len - 1) + 1 * size) by lia.
    rewrite Nat.div_add by lia. rewrite Nat.div_small by lia. reflexivity.
Qed.

(** The first slice and the slices of what follows it. *)
Lemma chunk_cons {T : Type} (array : list T) size :
  0 < size -> array <> [] ->
  chunk array size = firstn size array :: chunk (skipn size array) size.
Proof.
  intros Hs Hn. unfold chunk.
  assert (Hl : 0 < List.length array) by (destruct array; [contradiction|simpl; lia]).
  rewrite (chunk_count _ _ Hs Hl), length_skipn. cbn [List.seq map].
  rewrite Nat.mul_0_l. cbn [skipn]. f_equal.
  rewrite <- seq_shift, map_map. apply map_ext. intros i.
  rewrite skipn_skipn. f_equal. f_equal. lia.
Qed.

Lemma chunk_spec {T : Type} size n : forall array : list T,
    0 < size -> List.length array <= n ->
    List.concat (chunk array size) = array
    /\ Forall (fun c => 0 < List.length c <= size) (chunk array size).
Proof.
  induction n as [|n IH]; intros array Hs Hl.
  - destruct array; [|simpl in Hl; lia]. rewrite chunk_nil by exact Hs. split; constructor.
  - destruct array as [|x array]; [rewrite chunk_nil by exact Hs; split; constructor|].
    rewrite chunk_cons by (try discriminate; exact Hs).
    destruct (IH (skipn size (x :: array)) Hs) as [C F].
    { rewrite length_skipn. cbn [List.length] in *. lia. }
    cbn [List.concat]. rewrite C, firstn_skipn. split; [reflexivity|].
    constructor; [|exact F]. rewrite length_firstn. cbn [List.length]. lia.
Qed.

End ChunkFacts.

Module PriorityFacts.

Import BatchCrawler.

Lemma insert_by_priority p x l :
  filter (of_priority p) (insert_by priority_gt x l) = filter (of_priority p) (x :: l).
Proof.
  induction l as [|y l IH]; [reflexivity|].
  cbn [insert_by]. destruct (priority_gt x y) eqn:G; [|reflexivity].
  cbn [filter] in *. rewrite IH. unfold priority_gt in G. apply Z.ltb_lt in G.
  unfold of_priority.
  destruct (Z.eqb_spec (PendingUrl.priority x) p), (Z.eqb_spec (PendingUrl.priority y) p);
    try reflexivity. lia.
Qed.

End PriorityFacts.

Module BudgetFacts.

Import BatchCrawler BatchSpec BatchFacts BatchInv.

Lemma batch_fetches_bounded w baseDomain start maxPages st :
  reachable (continue maxPages) (iteration w baseDomain) (initial start) st ->
  fetches (history st) = 0 \/ (Z.of_nat (fetches (history st)) < maxPages)%Z.
Proof.
  induction 1 as [|st R IH G]; [left; reflexivity|].
  right.
  pose proof (batch_Inv_reachable _ _ _ _ _ R) as I.
  destruct (batch_continue_pending _ _ G) as (P & V).
  destruct (batch_iteration_spec w baseDomain st)
    as (batch & rest & added & prods & evs & _ & Hb & _ & _ & _ & _ & _ & _ & _ & _ & Hh & _ & Hf).
  rewrite Hh, fetches_app. pose proof (fetch_count _ _ _ I) as C. lia.
Qed.

End BudgetFacts.

(** *** Histories of the batched crawler *)

Module BatchTrace.

Import BatchCrawler BatchSpec BatchFacts BatchInv TraceFacts.

Lemma issued_nil st : issued [] st = st.
Proof. unfold issued. cbn [map]. rewrite app_nil_r. destruct st; reflexivity. Qed.

Lemma issued_cons u us st : issued (u :: us) st = issued us (record (Fetch u) st).
Proof. unfold issued, record. cbn. rewrite <- app_assoc. reflexivity. Qed.

Lemma tasks_of_app w us1 : forall h us2,
    tasks_of w h (us1 ++ us2) = tasks_of w h us1 ++ tasks_of w (h ++ map Fetch us1) us2.
Proof.
  induction us1 as [|u us1 IH]; intros h us2; cbn [app tasks_of map].
  - rewrite app_nil_r. reflexivity.
  - rewrite IH, <- app_assoc. reflexivity.
Qed.

Lemma tasks_of_urls w us : forall h, map fst (tasks_of w h us) = us.
Proof. induction us as [|u us IH]; intros h; cbn; [reflexivity|]. rewrite IH. reflexivity. Qed.

(** The tasks of a batch and the state they are started in. *)
Lemma start_tasks w l : forall st tasks,
    fold_left (start w) l (st, tasks)
    = (issued (navigated l) st, tasks ++ tasks_of w (history st) (navigated l)).
Proof.
  induction l as [|p l IH]; intros st tasks; cbn [fold_left].
  - unfold navigated. cbn. rewrite issued_nil, app_nil_r. reflexivity.
  - unfold start at 2. unfold navigated. cbn [map filter fst snd].
    destruct (isResourceUrl (PendingUrl.url p)); cbn [negb].
    + apply IH.
    + rewrite IH. fold (navigated l). rewrite issued_cons. cbn [tasks_of].
      rewrite <- app_assoc. reflexivity.
Qed.




















End BatchTrace.

(** *** Visited URLs *)

Module VisitedFacts.

Import KeyFacts.

Lemma resolve_normalized baseUrl link x : resolve baseUrl link = Some x -> normalized x.
Proof.
  unfold resolve. destruct (URL.new_URL_base link baseUrl) as [u|]; [|discriminate].
  intros E. exists (URL.href u). exact E.
Qed.

Lemma allRelevantLinks_normalized baseUrl baseDomain visitedUrls pa x :
  In x (Crawler.allRelevantLinks baseUrl baseDomain visitedUrls pa) -> normalized x.
Proof.
  unfold Crawler.allRelevantLinks. rewrite filter_In, non_null_In, in_map_iff.
  intros [[link [E _]] _]. unfold Crawler.same_domain_link in E.
  destruct (resolve baseUrl link) as [n|] eqn:R; [|discriminate].
  destruct (String.eqb (getBaseDomain n) baseDomain); [|discriminate].
  injection E as <-. eapply resolve_normalized. exact R.
Qed.

Lemma seq_iteration_visited w baseDomain start st x :
  In x (Crawler.visited (Crawler.iteration w baseDomain start st)) ->
  In x (Crawler.visited st) \/ normalized x.
Proof.
  unfold Crawler.iteration. destruct (Crawler.pendingUrls st) as [|cur rest]; [auto|].
  destruct (negb (nonempty cur)); [auto|].
  destruct (isResourceUrl cur); [auto|].
  destruct (negb (isLikely (isLikelyProductOrListingUrl cur)) && negb (String.eqb start cur));
    [auto|].
  unfold Crawler.process.
  destruct (fetchPage w _ cur) as [[pr|]|e]; [|auto|auto].
  match goal with |- context [Crawler.keep_product cur ?pa ?s] =>
    destruct (Crawler.keep_product cur pa s) as [st3|] eqn:K end; [|auto].
  apply SeqFacts.keep_product_spec in K. destruct K as (Kv & _).
  match goal with |- context [fold_left Crawler.enqueue ?l st3] =>
    destruct (SeqFacts.seq_enqueue_fold l st3) as [added (Hv & _ & _ & _ & _ & _ & Hin)] end.
  rewrite Hv, Kv. cbn [Crawler.visited Crawler.record Crawler.set_pending].
  intros H. apply in_app_or in H. destruct H as [H|H]; [left; exact H|right].
  apply Hin in H. destruct H as [H _]. eapply allRelevantLinks_normalized. exact H.
Qed.

Lemma seq_visited_normalized w baseDomain start maxPages st :
  normalized start ->
  reachable (Crawler.continue maxPages) (Crawler.iteration w baseDomain start)
            (Crawler.initial start) st ->
  forall x, In x (Crawler.visited st) -> normalized x.
Proof.
  intros S. induction 1 as [|st R IH G]; intros x Hx.
  - destruct Hx as [<-|[]]. exact S.
  - apply seq_iteration_visited in Hx. destruct Hx as [Hx|Hx]; [apply IH; exact Hx|exact Hx].
Qed.

Import BatchCrawler.







End VisitedFacts.

(** ** Which visited URLs are fetched *)

Module FrontierFacts.

Import GateSpec.

Import TraceFacts.

Section Sequential.

Import Crawler SeqSpec SeqFacts SeqInv.

Variables (w : World) (baseDomain start : string).




End Sequential.

Section Batched.

Import BatchCrawler BatchSpec BatchFacts BatchInv BatchTrace.

Variables (w : World) (baseDomain : string).



End Batched.

End FrontierFacts.

(** *** What a processed page adds to the visited set *)

Module PageFacts.

Import Crawler SeqSpec SeqFacts GateSpec.

Lemma enqueue_fold_visited l x : forall st,
    In x (visited (fold_left enqueue l st)) <-> In x (visited st) \/ In x l.
Proof.
  induction l as [|a l IH]; intros st; cbn [fold_left].
  - simpl. tauto.
  - rewrite IH. unfold enqueue, Set_has. destruct (mem a (visited st)) eqn:M.
    + apply mem_In in M. simpl. split; [tauto|].
      intros [H|[<-|H]]; auto.
    + cbn [visited]. rewrite in_app_iff. simpl. tauto.
Qed.

Lemma allRelevantLinks_In baseUrl baseDomain visitedUrls pa x :
  In x (allRelevantLinks baseUrl baseDomain visitedUrls pa)
  <-> ~ In x visitedUrls
      /\ exists link,
          In link (reported_links pa)
          /\ resolve baseUrl link = Some x
          /\ getBaseDomain x = baseDomain.
Proof.
  unfold allRelevantLinks, reported_links. rewrite filter_In, non_null_In, in_map_iff.
  unfold Set_has, same_domain_link. split.
  - intros [[link [E L]] M]. split.
    + apply mem_false. destruct (mem x visitedUrls); [discriminate|reflexivity].
    + exists link. destruct (resolve baseUrl link) as [y|]; [|discriminate].
      destruct (String.eqb (getBaseDomain y) baseDomain) eqn:D; [|discriminate].
      injection E as ->. apply String.eqb_eq in D. auto.
  - intros [M [link (L & E & D)]]. split.
    + exists link. rewrite E. apply String.eqb_eq in D. rewrite D. auto.
    + destruct (mem x visitedUrls) eqn:Mx; [|reflexivity].
      apply mem_In in Mx. contradiction.
Qed.

(** The iteration that dequeues a URL whose page is fetched. *)
Lemma seq_iteration_page w baseDomain start cur rest pr key st :
  pendingUrls st = cur :: rest ->
  passes_gates start cur = true ->
  fetchPage w (history st) cur = Return (Some pr) ->
  normalizeUrl cur = Some key ->
  exists st3,
    visited st3 = visited st
    /\ iteration w baseDomain start st
       = fold_left enqueue
           (allRelevantLinks (baseUrl pr) baseDomain (visited st)
                             (pageAnalysis w baseDomain cur pr st))
           st3.
Proof.
  intros P G F N. unfold iteration. rewrite P. unfold passes_gates in G.
  apply andb_true_iff in G. destruct G as [G G3].
  apply andb_true_iff in G. destruct G as [G1 G2].
  rewrite G1. cbn [negb]. apply negb_true_iff in G2. rewrite G2.
  assert (G4 : negb (isLikely (isLikelyProductOrListingUrl cur))
               && negb (String.eqb start cur) = false).
  { destruct (isLikely (isLikelyProductOrListingUrl cur)); [reflexivity|].
    cbn [orb] in G3. rewrite G3. reflexivity. }
  rewrite G4. unfold process.
  change (history (set_pending rest st)) with (history st). rewrite F.
  match goal with |- context [keep_product cur ?pa ?s] =>
    destruct (keep_product cur pa s) as [st3|] eqn:K end.
  - exists st3. apply keep_product_spec in K. destruct K as (Kv & _).
    split; [exact Kv|]. rewrite Kv. reflexivity.
  - exfalso. unfold keep_product in K. rewrite N in K.
    destruct (product _); [|discriminate].
    destruct (String.eqb _ "product"); [|discriminate].
    destruct (Set_has _ key); discriminate.
Qed.

(** The visited set after that iteration. *)
Lemma seq_page_visited w baseDomain start cur rest pr key st x :
  pendingUrls st = cur :: rest ->
  passes_gates start cur = true ->
  fetchPage w (history st) cur = Return (Some pr) ->
  normalizeUrl cur = Some key ->
  In x (visited (iteration w baseDomain start st))
  <-> In x (visited st)
      \/ exists link,
          In link (reported_links (pageAnalysis w baseDomain cur pr st))
          /\ resolve (baseUrl pr) link = Some x
          /\ getBaseDomain x = baseDomain.
Proof.
  intros P G F N.
  destruct (seq_iteration_page w baseDomain start cur rest pr key st P G F N) as [st3 [V ->]].
  rewrite enqueue_fold_visited, V, allRelevantLinks_In. split.
  - intros [H|[_ H]]; auto.
  - intros [H|H]; [auto|].
    destruct (mem x (visited st)) eqn:M; [left; apply mem_In; exact M|].
    right. split; [apply mem_false; exact M|exact H].
Qed.

End PageFacts.

(** *** What a task of a batch pushes *)

Module QueueFacts.

Import BatchCrawler BatchSpec BatchFacts.

Lemma pushed_In visitedUrls newUrls e :
  In e (pushed visitedUrls newUrls) -> In e newUrls.
Proof.
  revert visitedUrls. induction newUrls as [|a l IH]; intros vs; cbn [pushed]; [tauto|].
  destruct (Set_has vs (PendingUrl.url a)).
  - intros H. right. eapply IH. exact H.
  - intros [<-|H]; [left; reflexivity|right; eapply IH; exact H].
Qed.

Lemma enqueue_fold_pushed l : forall st,
    pendingUrls (fold_left enqueue l st) = pendingUrls st ++ pushed (visited st) l
    /\ visited (fold_left enqueue l st)
       = visited st ++ map PendingUrl.url (pushed (visited st) l).
Proof.
  induction l as [|a l IH]; intros st; cbn [fold_left pushed].
  - cbn. rewrite !app_nil_r. auto.
  - destruct (IH (enqueue st a)) as [Hp Hv]. rewrite Hp, Hv. unfold enqueue.
    destruct (Set_has (visited st) (PendingUrl.url a)); [auto|].
    cbn [pendingUrls visited map]. rewrite <- !app_assoc. auto.
Qed.

(** Every entry is visited once the entries were pushed. *)
Lemma pushed_visited newUrls e : forall visitedUrls,
    In e newUrls ->
    In (PendingUrl.url e) (visitedUrls ++ map PendingUrl.url (pushed visitedUrls newUrls)).
Proof.
  induction newUrls as [|a l IH]; intros vs; [intros []|]. cbn [pushed].
  unfold Set_has. destruct (mem (PendingUrl.url a) vs) eqn:M.
  - intros [<-|H]; [|apply IH; exact H].
    apply in_or_app. left. apply mem_In. exact M.
  - cbn [map]. intros [<-|H].
    + apply in_or_app. right. left. reflexivity.
    + specialize (IH (vs ++ [PendingUrl.url a]) H). rewrite <- app_assoc in IH. exact IH.
Qed.

Lemma keep_product_valid u pa st :
  isValidUrl u = true ->
  exists st2, keep_product u pa st = Some st2
              /\ visited st2 = visited st /\ pendingUrls st2 = pendingUrls st.
Proof.
  intros V. unfold isValidUrl in V.
  destruct (URL.new_URL u) as [U|] eqn:E; [|discriminate].
  unfold keep_product. rewrite (Normalize.normalizeUrl_record _ _ E).
  destruct (product pa); [|eauto]. destruct (String.eqb (pageType pa) "product"); [|eauto].
  destruct (Set_has (seenProductUrls st) _); eauto.
Qed.

Lemma keep_product_frame u pa st st2 :
  keep_product u pa st = Some st2 ->
  visited st2 = visited st /\ pendingUrls st2 = pendingUrls st.
Proof.
  unfold keep_product. destruct (product pa); [|intros [= <-]; auto].
  destruct (String.eqb (pageType pa) "product"); [|intros [= <-]; auto].
  destruct (normalizeUrl u); [|discriminate].
  destruct (Set_has (seenProductUrls st) _); intros [= <-]; auto.
Qed.

(** What a task with a page pushes. *)
Lemma finish_pushes w baseDomain st url pageResult :
  isValidUrl url = true ->
  pendingUrls (finish w baseDomain (url, Return (Some pageResult)) st)
  = pendingUrls st ++ pushed_by w baseDomain st url pageResult
  /\ visited (finish w baseDomain (url, Return (Some pageResult)) st)
     = visited st ++ map PendingUrl.url (pushed_by w baseDomain st url pageResult).
Proof.
  intros V. unfold finish, pushed_by, analysis_in. cbn [fst snd].
  destruct (cache_get (urlCache st) url) as [pa|]; cbn [fst snd].
  - destruct (keep_product_valid url pa st V) as (st2 & -> & Kv & Kp).
    destruct (enqueue_fold_pushed
                (processNewUrls (links pageResult) (baseUrl pageResult) baseDomain
                                (visited st2) pa) st2) as [Hp Hv].
    rewrite Hp, Hv, Kv, Kp. auto.
  - match goal with |- context [keep_product url ?pa ?s] =>
      destruct (keep_product_valid url pa s V) as (st2 & -> & Kv & Kp) end.
    match goal with |- context [fold_left enqueue ?l st2] =>
      destruct (enqueue_fold_pushed l st2) as [Hp Hv] end.
    rewrite Hp, Hv, Kv, Kp. auto.
Qed.

(** Whatever a task pushes was returned by [processNewUrls] for its page. *)
Lemma finish_added w baseDomain task st :
  exists added,
    pendingUrls (finish w baseDomain task st) = pendingUrls st ++ added
    /\ forall e, In e added ->
         exists pageResult,
           snd task = Return (Some pageResult)
           /\ In e (pushed_by w baseDomain st (fst task) pageResult).
Proof.
  unfold finish, pushed_by, analysis_in.
  destruct (snd task) as [[pr|]|err];
    [|exists []; rewrite app_nil_r; split; [reflexivity|intros e []]..].
  destruct (cache_get (urlCache st) (fst task)) as [pa|]; cbn [fst snd].
  - destruct (keep_product (fst task) pa st) as [st2|] eqn:K;
      [|exists []; rewrite app_nil_r; split; [reflexivity|intros e []]].
    destruct (keep_product_frame _ _ _ _ K) as [Kv Kp].
    destruct (enqueue_fold_pushed
                (processNewUrls (links pr) (baseUrl pr) baseDomain (visited st2) pa) st2)
      as [Hp _].
    rewrite Hp, Kv, Kp. eexists. split; [reflexivity|].
    intros e He. exists pr. split; [reflexivity|exact He].
  - match goal with |- context [keep_product (fst task) ?pa ?s] =>
      destruct (keep_product (fst task) pa s) as [st2|] eqn:K end;
      [|exists []; rewrite app_nil_r; split; [reflexivity|intros e []]].
    destruct (keep_product_frame _ _ _ _ K) as [Kv Kp].
    match goal with |- context [fold_left enqueue ?l st2] =>
      destruct (enqueue_fold_pushed l st2) as [Hp _] end.
    rewrite Hp, Kv, Kp. eexists. split; [reflexivity|].
    intros e He. exists pr. split; [reflexivity|exact He].
Qed.

Lemma settle_added w baseDomain n : forall tasks st,
    exists added,
      pendingUrls (settle w baseDomain n tasks st) = pendingUrls st ++ added
      /\ (forall e, In e added ->
            In e (flat_map (pushes w baseDomain) (schedule w baseDomain n tasks st)))
      /\ ((forall t, In t tasks -> isValidUrl (fst t) = true) ->
          added = flat_map (pushes w baseDomain) (schedule w baseDomain n tasks st)).
Proof.
  induction n as [|n IH]; intros tasks st; cbn [settle schedule].
  - exists []. rewrite app_nil_r. split; [reflexivity|]. split; [intros e []|reflexivity].
  - match goal with |- context [match ?x with Some _ => _ | None => _ end] =>
      destruct x as [task|] eqn:N end;
      [|exists []; rewrite app_nil_r; split; [reflexivity|split; [intros e []|reflexivity]]].
    destruct (finish_added w baseDomain task st) as [a1 [P1 H1]].
    match goal with |- context [settle w baseDomain n ?ts ?s] =>
      destruct (IH ts s) as [a2 (P2 & H2 & X2)] end.
    exists (a1 ++ a2). rewrite P2, P1, <- app_assoc. split; [reflexivity|].
    cbn [flat_map]. split.
    + intros e He. apply in_or_app. apply in_app_or in He. destruct He as [He|He].
      * left. destruct (H1 e He) as (pr & T & Hin). unfold pushes. cbn [fst snd].
        rewrite T. exact Hin.
      * right. apply H2. exact He.
    + intros V. rewrite <- X2.
      * f_equal. unfold pushes. cbn [fst snd]. destruct task as [u c]. cbn [fst snd].
        destruct c as [[pr|]|err].
        -- destruct (finish_pushes w baseDomain st u pr) as [Hp _].
           { apply (V (u, Return (Some pr))). eapply nth_error_In. exact N. }
           rewrite Hp in P1. apply app_inv_head in P1. symmetry. exact P1.
        -- cbn in P1. rewrite <- (app_nil_r (pendingUrls st)) in P1 at 1.
           apply app_inv_head in P1. symmetry. exact P1.
        -- cbn in P1. rewrite <- (app_nil_r (pendingUrls st)) in P1 at 1.
           apply app_inv_head in P1. symmetry. exact P1.
      * intros t Ht. apply V. apply in_app_or in Ht.
        destruct Ht as [Ht|Ht]; [eapply firstn_In|eapply skipn_In]; exact Ht.
Qed.

(** The scheduled tasks are tasks of the batch. *)
Lemma schedule_tasks w baseDomain n : forall tasks st ts,
    In ts (schedule w baseDomain n tasks st) -> In (fst ts) tasks.
Proof.
  induction n as [|n IH]; intros tasks st ts; cbn [schedule]; [intros []|].
  match goal with |- context [match ?x with Some _ => _ | None => _ end] =>
    destruct x as [task|] eqn:N end; [|intros []].
  intros [<-|H]; [eapply nth_error_In; exact N|].
  apply IH in H. apply in_app_or in H.
  destruct H as [H|H]; [eapply firstn_In|eapply skipn_In]; exact H.
Qed.

End QueueFacts.

(** ** The claims *)

Section Runs.

Variables (w : World) (startUrl : string) (maxPages : Z).

Lemma valid_normalizes :
  isValidUrl startUrl = true -> exists n, normalizeUrl startUrl = Some n.
Proof.
  unfold isValidUrl. destruct (URL.new_URL startUrl) as [u|] eqn:E; [|discriminate].
  intros _. eexists. apply (Normalize.normalizeUrl_record _ _ E).
Qed.

(** A run of the sequential crawler that was started: the state in which
    the loop ends, and what the [finally] block makes of it. *)
Lemma sequential_run n :
  isValidUrl startUrl = true -> normalizeUrl startUrl = Some n -> launch w = None ->
  exists st,
    Crawler.crawlWebsite w startUrl maxPages
    = (Crawler.finally w (Crawler.history st)
         (Return {| products := deduplicateProducts (Crawler.found st);
                    visitedUrls := Crawler.visited st; error := None |}),
       Crawler.history st)
    /\ while_run (Crawler.continue maxPages)
                 (Crawler.iteration w (getBaseDomain startUrl) n)
                 (Crawler.initial n) st.
Proof.
  intros V N L. unfold Crawler.crawlWebsite. rewrite V, N, L. cbn [negb].
  eexists. split; [reflexivity|]. apply SeqFacts.seq_crawl_loop_runs.
Qed.

Lemma batch_run n :
  isValidUrl startUrl = true -> normalizeUrl startUrl = Some n -> launch w = None ->
  exists st,
    BatchCrawler.crawlWebsite w startUrl maxPages
    = (BatchCrawler.cleanup w (BatchCrawler.history st)
         (Return {| products := deduplicateProducts (BatchCrawler.found st);
                    visitedUrls := BatchCrawler.visited st; error := None |}),
       BatchCrawler.history st)
    /\ while_run (BatchCrawler.continue maxPages)
                 (BatchCrawler.iteration w (getBaseDomain startUrl))
                 (BatchCrawler.initial n) st.
Proof.
  intros V N L. unfold BatchCrawler.crawlWebsite. rewrite V, N, L. cbn [negb].
  eexists. split; [reflexivity|]. apply BatchInv.batch_crawl_loop_runs.
Qed.

(** The ways [crawlWebsite] can end. *)
Lemma sequential_cases r tr :
  Crawler.crawlWebsite w startUrl maxPages = (Return r, tr) ->
  (isValidUrl startUrl = false
   /\ r = {| products := []; visitedUrls := []; error := Some "Invalid start URL" |}
   /\ tr = [])
  \/ exists n st,
      normalizeUrl startUrl = Some n
      /\ r = {| products := deduplicateProducts (Crawler.found st);
                visitedUrls := Crawler.visited st; error := None |}
      /\ tr = Crawler.history st
      /\ while_run (Crawler.continue maxPages)
                   (Crawler.iteration w (getBaseDomain startUrl) n)
                   (Crawler.initial n) st.
Proof.
  destruct (isValidUrl startUrl) eqn:V.
  - destruct (valid_normalizes V) as [n N].
    destruct (launch w) as [e|] eqn:L.
    + unfold Crawler.crawlWebsite. rewrite V, N, L. discriminate.
    + destruct (sequential_run n V N L) as [st [E R]]. rewrite E.
      unfold Crawler.finally. destruct (shutdown w (Crawler.history st)); [discriminate|].
      intros H. inversion H; subst. right. exists n, st. auto.
  - unfold Crawler.crawlWebsite. rewrite V. cbn [negb].
    intros H. inversion H; subst. left. auto.
Qed.


End Runs.

(** C2.  A start URL that does not parse makes [crawlWebsite] return
    [{products: [], visitedUrls: [], error: "Invalid start URL"}] at once,
    before the browser is started and with no call of the renderer or of
    the classifier; both versions of the crawler agree on this. *)
Theorem invalid_start_url (w : World) (startUrl : string) (maxPages : Z) :
  isValidUrl startUrl = false ->
  Crawler.crawlWebsite w startUrl maxPages
  = (Return {| products := []; visitedUrls := []; error := Some "Invalid start URL" |}, [])
  /\ BatchCrawler.crawlWebsite w startUrl maxPages
     = (Return {| products := []; visitedUrls := []; error := Some "Invalid start URL" |}, []).
Proof.
  intros V. unfold Crawler.crawlWebsite, BatchCrawler.crawlWebsite.
  rewrite V. split; reflexivity.
Qed.

Lemma invalid_start_url_witness :
  isValidUrl "not a url" = false
  /\ Crawler.crawlWebsite Scenario.shop "not a url" 10
     = (Return {| products := []; visitedUrls := []; error := Some "Invalid start URL" |}, []).
Proof.
  split; [vm_compute; reflexivity|].
  apply (invalid_start_url Scenario.shop "not a url" 10). vm_compute. reflexivity.
Defined.

(** C3, as the claim states it, fails: when the browser cannot be started
    on a valid start URL, no [CrawlResult] is returned. *)
Lemma browser_failure_is_thrown :
  ~ exists r,
      fst (Crawler.crawlWebsite Scenario.no_browser Scenario.start_url 10) = Return r
      /\ error r <> None /\ products r = [] /\ visitedUrls r = [].
Proof. intros [r [H _]]. vm_compute in H. discriminate. Qed.

(** C3, amended.  When [initBrowser] fails on a valid start URL,
    [crawlWebsite] rejects with that very exception, having fetched and
    classified nothing; there is no [catch] between the [try] and the
    [finally].  It is the HTTP handler that catches it and answers with
    status 500 and the message of the error. *)
Theorem browser_failure_propagates (w : World) (startUrl : string) (maxPages : Z)
        (message : string) :
  isValidUrl startUrl = true ->
  launch w = Some (ErrorObject message) ->
  Crawler.crawlWebsite w startUrl maxPages = (Throw (ErrorObject message), [])
  /\ Server.handler w {| Server.url := Some startUrl; Server.maxPages := Some maxPages |}
     = {| Server.status := 500; Server.body := Server.ErrorBody message |}.
Proof.
  intros V L. destruct (valid_normalizes startUrl V) as [n N].
  assert (C : forall m, Crawler.crawlWebsite w startUrl m = (Throw (ErrorObject message), [])).
  { intros m. unfold Crawler.crawlWebsite. rewrite V, N, L. reflexivity. }
  split; [apply C|]. unfold Server.handler. cbn [Server.url Server.maxPages].
  destruct startUrl as [|c s]; [discriminate V|].
  destruct maxPages; rewrite C; reflexivity.
Qed.

Lemma browser_failure_propagates_witness :
  isValidUrl Scenario.start_url = true
  /\ Crawler.crawlWebsite Scenario.no_browser Scenario.start_url 10
     = (Throw (ErrorObject "Failed to launch the browser process"), []).
Proof.
  split; [vm_compute; reflexivity|].
  apply (browser_failure_propagates Scenario.no_browser Scenario.start_url 10
           "Failed to launch the browser process"); vm_compute; reflexivity.
Defined.

(** C1, as the claim states it, fails: with a budget of two pages the run
    on the shop returns five visited URLs, every link of the start page
    having been added in one go. *)
Lemma budget_exceeded :
  exists r,
    fst (Crawler.crawlWebsite Scenario.shop Scenario.start_url 2) = Return r
    /\ visitedUrls r
       = ["https://shop.example.com/"; "https://shop.example.com/p/1";
          "https://shop.example.com/p/2"; "https://shop.example.com/p/3";
          "https://shop.example.com/about"]
    /\ NoDup (visitedUrls r)
    /\ (2 < Z.of_nat (List.length (visitedUrls r)))%Z.
Proof.
  exists {| products := [];
            visitedUrls :=
              ["https://shop.example.com/"; "https://shop.example.com/p/1";
               "https://shop.example.com/p/2"; "https://shop.example.com/p/3";
               "https://shop.example.com/about"];
            error := None |}.
  split; [vm_compute; reflexivity|]. split; [reflexivity|]. split.
  - cbn [visitedUrls]. repeat (constructor; [simpl; intuition discriminate|]). constructor.
  - vm_compute. reflexivity.
Qed.

(** C1, amended.  For a valid start URL, an [initBrowser()] that
    succeeds and any integer [maxPages], the loop of [crawlWebsite]
    terminates, and [crawlWebsite] resolves to the result of the loop
    unless a [close()] of its [finally] block rejects, in which case it
    rejects with that exception.  The loop ran until the queue was empty
    or the visited set had reached [maxPages] elements, and it begins an
    iteration only below that size, so fewer than [maxPages] pages are
    fetched (none when [maxPages <= 1]).  The visited set holds the start URL and has no
    duplicates.  Its size is not bounded by [maxPages]: the iteration that
    processes a page adds to it, whatever its size, every link that the
    classifier reported for that page and that resolves to a URL of the
    start URL's host, and nothing else. *)
Theorem page_budget (w : World) (startUrl : string) (maxPages : Z) :
  isValidUrl startUrl = true ->
  launch w = None ->
  exists n st,
    normalizeUrl startUrl = Some n
    /\ while_run (Crawler.continue maxPages)
                 (Crawler.iteration w (getBaseDomain startUrl) n) (Crawler.initial n) st
    /\ Crawler.crawlWebsite w startUrl maxPages
       = (match shutdown w (Crawler.history st) with
          | Some e => Throw e
          | None => Return {| products := deduplicateProducts (Crawler.found st);
                              visitedUrls := Crawler.visited st;
                              error := None |}
          end,
          Crawler.history st)
    /\ (Crawler.pendingUrls st = []
        \/ (maxPages <= Z.of_nat (List.length (Crawler.visited st)))%Z)
    /\ (Z.of_nat (fetches (Crawler.history st)) <= Z.max 0 (maxPages - 1))%Z
    /\ In n (Crawler.visited st) /\ NoDup (Crawler.visited st)
    /\ (forall st0 currentUrl rest pageResult x,
          reachable (Crawler.continue maxPages)
                    (Crawler.iteration w (getBaseDomain startUrl) n) (Crawler.initial n) st0 ->
          Crawler.pendingUrls st0 = currentUrl :: rest ->
          passes_gates n currentUrl = true ->
          fetchPage w (Crawler.history st0) currentUrl = Return (Some pageResult) ->
          (In x (Crawler.visited (Crawler.iteration w (getBaseDomain startUrl) n st0))
           <-> In x (Crawler.visited st0)
               \/ exists link,
                   In link (SeqSpec.reported_links
                              (SeqSpec.pageAnalysis w (getBaseDomain startUrl)
                                                    currentUrl pageResult st0))
                   /\ resolve (baseUrl pageResult) link = Some x
                   /\ getBaseDomain x = getBaseDomain startUrl)).
Proof.
  intros V L. destruct (valid_normalizes startUrl V) as [n N].
  destruct (sequential_run w startUrl maxPages n V N L) as [st [E R]].
  exists n, st. split; [exact N|]. split; [exact R|]. split; [exact E|].
  assert (Re : reachable (Crawler.continue maxPages)
                 (Crawler.iteration w (getBaseDomain startUrl) n) (Crawler.initial n) st).
  { eapply while_run_reachable; [apply reach_start|exact R]. }
  pose proof (SeqInv.seq_Inv_reachable _ _ _ _ _ Re) as I.
  split; [|split; [|split; [|split]]].
  - apply while_run_exit in R. unfold Crawler.continue in R.
    apply andb_false_iff in R. destruct R as [R|R].
    + left. apply Nat.ltb_ge in R. destruct (Crawler.pendingUrls st); [reflexivity|].
      simpl in R. lia.
    + right. apply Z.ltb_ge in R. exact R.
  - destruct (SeqInv.fetches_bounded _ _ _ _ _ Re) as [F|F]; lia.
  - apply (SeqSpec.start_visited _ _ _ I).
  - apply (SeqSpec.visited_nodup _ _ _ I).
  - intros st0 currentUrl rest pageResult x R0 P G F.
    pose proof (SeqInv.seq_Inv_reachable _ _ _ _ _ R0) as I0.
    assert (K : normalized currentUrl).
    { apply (VisitedFacts.seq_visited_normalized w (getBaseDomain startUrl) n maxPages st0
               (ex_intro _ startUrl N) R0).
      apply (SeqSpec.pending_visited _ _ _ I0). rewrite P. left. reflexivity. }
    destruct (KeyFacts.normalized_valid _ K) as [Vc _].
    destruct (valid_normalizes currentUrl Vc) as [key Nk].
    apply (PageFacts.seq_page_visited w _ n currentUrl rest pageResult key st0 x P G F Nk).
Qed.

Lemma page_budget_witness :
  exists n st,
    normalizeUrl Scenario.start_url = Some n
    /\ while_run (Crawler.continue 2)
                 (Crawler.iteration Scenario.shop (getBaseDomain Scenario.start_url) n)
                 (Crawler.initial n) st
    /\ Crawler.crawlWebsite Scenario.shop Scenario.start_url 2
       = (Return {| products := deduplicateProducts (Crawler.found st);
                    visitedUrls := Crawler.visited st;
                    error := None |},
          Crawler.history st)
    /\ (Crawler.pendingUrls st = []
        \/ (2 <= Z.of_nat (List.length (Crawler.visited st)))%Z)
    /\ (Z.of_nat (fetches (Crawler.history st)) <= 1)%Z.
Proof.
  destruct (page_budget Scenario.shop Scenario.start_url 2)
    as (n & st & N & R & E & Q & F & _); [vm_compute; reflexivity..|].
  exists n, st. split; [exact N|]. split; [exact R|]. split; [exact E|].
  split; [exact Q|exact F].
Defined.



(** C5.  The products of a result carry pairwise different URLs;
    [deduplicateProducts] keeps, for each URL, the first record that has
    it; and during a run a product whose normalized URL is already among
    the accumulated ones is dropped without any other effect. *)
Theorem products_unique (w : World) (startUrl : string) (maxPages : Z)
        (r : CrawlResult) (tr : list Event) :
  Crawler.crawlWebsite w startUrl maxPages = (Return r, tr) ->
  NoDup (map url (products r))
  /\ (forall ps u, find (by_url u) (deduplicateProducts ps) = find (by_url u) ps)
  /\ (forall baseDomain n st cur pa p u,
        reachable (Crawler.continue maxPages) (Crawler.iteration w baseDomain n)
                  (Crawler.initial n) st ->
        product pa = Some p -> normalizeUrl cur = Some u ->
        In u (map url (Crawler.found st)) ->
        Crawler.keep_product cur pa st = Some st).
Proof.
  intros E. split; [|split].
  - destruct (sequential_cases _ _ _ _ _ E) as [(_ & -> & _)|(n & st & N & -> & _ & R)];
      [constructor|]. cbn [products].
    rewrite deduplicateProducts_fold. apply dedup_fold_NoDup. constructor.
  - intros ps u. rewrite deduplicateProducts_fold, dedup_fold_find. reflexivity.
  - intros baseDomain n st cur pa p u R P N H.
    pose proof (SeqInv.seq_Inv_reachable _ _ _ _ _ R) as I.
    rewrite (SeqSpec.found_seen _ _ _ I) in H. apply mem_In in H.
    unfold Crawler.keep_product, Set_has. rewrite P, N, H.
    destruct (String.eqb (pageType pa) "product"); reflexivity.
Qed.

Lemma products_unique_witness :
  NoDup (map url
           (products
              {| products :=
                   [with_url "https://shop.example.com/p/1" Scenario.widget;
                    with_url "https://shop.example.com/p/2" Scenario.widget;
                    with_url "https://shop.example.com/p/3" Scenario.widget];
                 visitedUrls :=
                   ["https://shop.example.com/"; "https://shop.example.com/p/1";
                    "https://shop.example.com/p/2"; "https://shop.example.com/p/3";
                    "https://shop.example.com/about"];
                 error := None |})).
Proof.
  refine (proj1 (products_unique Scenario.shop Scenario.start_url 10 _
                   [Fetch "https://shop.example.com/"; Analyze "https://shop.example.com/";
                    Fetch "https://shop.example.com/p/1"; Analyze "https://shop.example.com/p/1";
                    Fetch "https://shop.example.com/p/2"; Analyze "https://shop.example.com/p/2";
                    Fetch "https://shop.example.com/p/3"; Analyze "https://shop.example.com/p/3"]
                   _)).
  vm_compute. reflexivity.
Defined.



(** C10.  In the sequential crawler, a dequeued URL other than the
    normalized start URL for which [isLikelyProductOrListingUrl] answers
    [isLikely: false] is dropped: the iteration only removes it from the
    queue, so nothing is fetched or classified for it, although it is in
    the visited set that the budget counts.  The start URL is exempt: when
    it is not a resource URL it is fetched whatever the heuristic says. *)
Theorem unlikely_urls_skipped (w : World) (baseDomain start : string) (maxPages : Z)
        (st : Crawler.State) (currentUrl : string) (rest : list string) :
  reachable (Crawler.continue maxPages) (Crawler.iteration w baseDomain start)
            (Crawler.initial start) st ->
  Crawler.pendingUrls st = currentUrl :: rest ->
  (currentUrl <> start ->
   isLikely (isLikelyProductOrListingUrl currentUrl) = false ->
   Crawler.iteration w baseDomain start st = Crawler.set_pending rest st
   /\ Crawler.history (Crawler.iteration w baseDomain start st) = Crawler.history st
   /\ In currentUrl (Crawler.visited (Crawler.iteration w baseDomain start st)))
  /\ (currentUrl = start -> nonempty start = true -> isResourceUrl start = false ->
      exists evs,
        Crawler.history (Crawler.iteration w baseDomain start st)
        = Crawler.history st ++ Fetch start :: evs).
Proof.
  intros R P. split.
  - intros Hne L.
    assert (E : Crawler.iteration w baseDomain start st = Crawler.set_pending rest st).
    { unfold Crawler.iteration. rewrite P, L.
      assert (S : String.eqb start currentUrl = false)
        by (apply String.eqb_neq; intros H; apply Hne; symmetry; exact H).
      rewrite S. cbn [negb andb].
      destruct (negb (nonempty currentUrl)); [reflexivity|].
      destruct (isResourceUrl currentUrl); reflexivity. }
    rewrite E. split; [reflexivity|]. split; [reflexivity|]. cbn.
    pose proof (SeqInv.seq_Inv_reachable _ _ _ _ _ R) as I.
    apply (SeqSpec.pending_visited _ _ _ I). rewrite P. left. reflexivity.
  - intros -> N Rs. unfold Crawler.iteration. rewrite P, N, Rs, String.eqb_refl.
    cbn [negb andb]. rewrite andb_false_r. unfold Crawler.process.
    destruct (fetchPage w _ start) as [[pr|]|e]; try (exists []; reflexivity).
    match goal with |- context [Crawler.keep_product start ?pa ?s] =>
      destruct (Crawler.keep_product start pa s) as [st3|] eqn:K end.
    + apply SeqFacts.keep_product_spec in K. destruct K as (_ & _ & Kh & _).
      match goal with |- context [fold_left Crawler.enqueue ?l st3] =>
        destruct (SeqFacts.seq_enqueue_fold l st3) as [added (_ & _ & _ & _ & Hh & _)] end.
      rewrite Hh, Kh. cbn. rewrite <- app_assoc. eexists. reflexivity.
    + cbn. rewrite <- app_assoc. eexists. reflexivity.
Qed.

Lemma unlikely_urls_skipped_witness :
  Crawler.pendingUrls
    (Crawler.iteration Scenario.brochure "shop.example.com" "https://shop.example.com/"
       (Crawler.initial "https://shop.example.com/"))
  = ["https://shop.example.com/about"]
  /\ isLikely (isLikelyProductOrListingUrl "https://shop.example.com/about") = false
  /\ Crawler.history
       (Crawler.iteration Scenario.brochure "shop.example.com" "https://shop.example.com/"
          (Crawler.iteration Scenario.brochure "shop.example.com" "https://shop.example.com/"
             (Crawler.initial "https://shop.example.com/")))
     = Crawler.history
         (Crawler.iteration Scenario.brochure "shop.example.com" "https://shop.example.com/"
            (Crawler.initial "https://shop.example.com/")).
Proof.
  assert (R : reachable (Crawler.continue 10)
                (Crawler.iteration Scenario.brochure "shop.example.com" "https://shop.example.com/")
                (Crawler.initial "https://shop.example.com/")
                (Crawler.iteration Scenario.brochure "shop.example.com" "https://shop.example.com/"
                   (Crawler.initial "https://shop.example.com/"))).
  { apply reach_iter; [apply reach_start|reflexivity]. }
  assert (P : Crawler.pendingUrls
                (Crawler.iteration Scenario.brochure "shop.example.com" "https://shop.example.com/"
                   (Crawler.initial "https://shop.example.com/"))
              = ["https://shop.example.com/about"]) by (vm_compute; reflexivity).
  assert (L : isLikely (isLikelyProductOrListingUrl "https://shop.example.com/about") = false)
    by (vm_compute; reflexivity).
  split; [exact P|]. split; [exact L|].
  assert (D : "https://shop.example.com/about" <> "https://shop.example.com/") by discriminate.
  destruct (proj1 (unlikely_urls_skipped Scenario.brochure "shop.example.com"
                     "https://shop.example.com/" 10 _ "https://shop.example.com/about" []
                     R P) D L) as (_ & H & _).
  exact H.
Defined.

(** ** Priorities *)

Lemma start_fold_history (w : World) (l : list PendingUrl.t) :
  forall st tasks,
    BatchCrawler.history (fst (fold_left (BatchCrawler.start w) l (st, tasks)))
    = BatchCrawler.history st
      ++ map Fetch (filter (fun u => negb (isResourceUrl u)) (map PendingUrl.url l)).
Proof.
  induction l as [|p l IH]; intros st tasks; cbn [fold_left map filter].
  - rewrite app_nil_r. reflexivity.
  - unfold BatchCrawler.start at 2.
    destruct (isResourceUrl (PendingUrl.url p)); cbn [negb fst snd].
    + apply IH.
    + rewrite IH. cbn. rewrite <- app_assoc. reflexivity.
Qed.

Lemma priority_gt_trans (a b c : PendingUrl.t) :
  BatchCrawler.priority_gt a b = false -> BatchCrawler.priority_gt b c = false ->
  BatchCrawler.priority_gt a c = false.
Proof. unfold BatchCrawler.priority_gt. rewrite !Z.ltb_ge. lia. Qed.

Lemma priority_gt_asym (a b : PendingUrl.t) :
  BatchCrawler.priority_gt a b = true -> BatchCrawler.priority_gt b a = false.
Proof. unfold BatchCrawler.priority_gt. rewrite Z.ltb_ge, Z.ltb_lt. lia. Qed.

Import QueueFacts.

(** C9.  The seed is queued with priority 1.  [processNewUrls] gives
    priority 3 to the product links it keeps, 2 to pagination and to
    category links, 1 to the other relevant links, and returns nothing
    else.  The task of a page pushes exactly the entries that
    [processNewUrls] returned for it, in that order, except those whose
    URL an earlier entry of the same list has: every returned entry is
    visited afterwards, and a link reported in several fields is queued
    once, with the priority of the first of them.  Each iteration sorts
    the queue by descending priority, takes its first [BATCH_SIZE]
    entries, none of which has a lower priority than any entry left
    behind, and starts their navigations in that order; what it appends to
    the rest of the queue is what the tasks of the batch push as they
    continue. *)
Theorem priorities (w : World) (baseDomain : string) :
  (forall n, BatchCrawler.pendingUrls (BatchCrawler.initial n)
             = [{| PendingUrl.url := n; PendingUrl.priority := 1 |}])
  /\ (forall links baseUrl visitedUrls pa e,
         In e (BatchCrawler.processNewUrls links baseUrl baseDomain visitedUrls pa) <->
         (PendingUrl.priority e = 3%Z
          /\ kept_from (productLinks pa) baseUrl baseDomain visitedUrls e)
         \/ (PendingUrl.priority e = 2%Z
             /\ kept_from (paginationLinks pa) baseUrl baseDomain visitedUrls e)
         \/ (PendingUrl.priority e = 2%Z
             /\ kept_from (categoryLinks pa) baseUrl baseDomain visitedUrls e)
         \/ (PendingUrl.priority e = 1%Z
             /\ kept_from (otherRelevantLinks pa) baseUrl baseDomain visitedUrls e))
  /\ (forall st url pageResult,
         isValidUrl url = true ->
         let newUrls :=
           BatchCrawler.processNewUrls (links pageResult) (baseUrl pageResult) baseDomain
             (BatchCrawler.visited st) (analysis_in w st url pageResult) in
         let st' := BatchCrawler.finish w baseDomain (url, Return (Some pageResult)) st in
         BatchCrawler.pendingUrls st'
         = BatchCrawler.pendingUrls st ++ pushed (BatchCrawler.visited st) newUrls
         /\ BatchCrawler.visited st'
            = BatchCrawler.visited st
              ++ map PendingUrl.url (pushed (BatchCrawler.visited st) newUrls)
         /\ (forall e, In e (pushed (BatchCrawler.visited st) newUrls) -> In e newUrls)
         /\ (forall e, In e newUrls -> In (PendingUrl.url e) (BatchCrawler.visited st')))
  /\ (forall st,
         let sorted := sort_by BatchCrawler.priority_gt (BatchCrawler.pendingUrls st) in
         let batch := firstn BatchCrawler.BATCH_SIZE sorted in
         let rest := skipn BatchCrawler.BATCH_SIZE sorted in
         let tasks := tasks_of w (BatchCrawler.history st) (navigated batch) in
         let order :=
           schedule w baseDomain (List.length tasks) tasks
                    (issued (navigated batch) (BatchCrawler.set_pending rest st)) in
         Permutation (batch ++ rest) (BatchCrawler.pendingUrls st)
         /\ StronglySorted (fun a b => (PendingUrl.priority b <= PendingUrl.priority a)%Z) sorted
         /\ (forall a b, In a batch -> In b rest ->
                         (PendingUrl.priority b <= PendingUrl.priority a)%Z)
         /\ (forall ts, In ts order -> In (fst ts) tasks)
         /\ exists added evs,
             BatchCrawler.pendingUrls (BatchCrawler.iteration w baseDomain st) = rest ++ added
             /\ BatchCrawler.history (BatchCrawler.iteration w baseDomain st)
                = BatchCrawler.history st
                  ++ map Fetch (filter (fun u => negb (isResourceUrl u))
                                       (map PendingUrl.url batch))
                  ++ evs
             /\ fetches evs = 0
             /\ (forall e, In e added -> In e (flat_map (pushes w baseDomain) order))
             /\ ((forall e, In e (BatchCrawler.pendingUrls st) ->
                            isValidUrl (PendingUrl.url e) = true) ->
                 added = flat_map (pushes w baseDomain) order)).
Proof.
  split; [reflexivity|]. split; [|split].
  - intros links baseUrl visitedUrls pa e. rewrite BatchFacts.processNewUrls_eq.
    rewrite !in_app_iff, !BatchFacts.processUrl_In. unfold kept_from. tauto.
  - intros st url pageResult V newUrls st'.
    destruct (finish_pushes w baseDomain st url pageResult V) as [Hp Hv].
    fold st' in Hp, Hv. unfold pushed_by in Hp, Hv. fold newUrls in Hp, Hv.
    split; [exact Hp|]. split; [exact Hv|]. split; [intros e; apply pushed_In|].
    intros e He. rewrite Hv. apply pushed_visited. exact He.
  - intros st sorted batch rest tasks order.
    assert (S : StronglySorted
                  (fun a b => (PendingUrl.priority b <= PendingUrl.priority a)%Z) sorted).
    { pose proof (sort_by_sorted BatchCrawler.priority_gt priority_gt_trans priority_gt_asym
                    (BatchCrawler.pendingUrls st)) as S.
      fold sorted in S. clearbody sorted. clear -S.
      induction S as [|a l S IH F]; constructor; [exact IH|].
      eapply Forall_impl; [|exact F]. intros b H.
      unfold BatchCrawler.priority_gt in H. apply Z.ltb_ge in H. exact H. }
    assert (Pm : Permutation (batch ++ rest) (BatchCrawler.pendingUrls st)).
    { subst batch rest. rewrite firstn_skipn. apply sort_by_perm. }
    split; [exact Pm|]. split; [exact S|]. split; [|split].
    + intros a b Ha Hb. subst batch rest.
      rewrite <- (firstn_skipn BatchCrawler.BATCH_SIZE sorted) in S.
      apply (StronglySorted_app_cross _ _ _ S a b Ha Hb).
    + intros ts. apply schedule_tasks.
    + unfold BatchCrawler.iteration. fold sorted. fold batch. fold rest.
      assert (Hlen : List.length batch <= 5).
      { subst batch. rewrite length_firstn. unfold BatchCrawler.BATCH_SIZE. lia. }
      rewrite (chunk_concat_small batch Hlen), BatchTrace.start_tasks. cbn [fst snd app].
      change (BatchCrawler.history (BatchCrawler.set_pending rest st))
        with (BatchCrawler.history st).
      fold tasks.
      set (started := issued (navigated batch) (BatchCrawler.set_pending rest st)) in *.
      assert (U : forall t, In t tasks -> In (fst t) (navigated batch)).
      { intros t Ht. apply (in_map fst) in Ht. subst tasks.
        rewrite BatchTrace.tasks_of_urls in Ht. exact Ht. }
      destruct (settle_added w baseDomain (List.length tasks) tasks started)
        as (added & Gp & Gin & Gex).
      destruct (BatchFacts.settle_grows w baseDomain (navigated batch)
                  (List.length tasks) tasks started U)
        as (added' & prods & evs & _ & _ & _ & _ & _ & _ & _ & _ & Gh & Ge).
      exists added, evs. rewrite Gp, Gh. subst started.
      cbn [issued BatchCrawler.set_pending BatchCrawler.pendingUrls BatchCrawler.history].
      rewrite <- app_assoc. split; [reflexivity|]. split; [reflexivity|].
      split; [eapply BatchInv.fetches_analyses; exact Ge|]. split; [exact Gin|].
      intros V. apply Gex. intros t Ht. apply U in Ht. unfold navigated in Ht.
      apply filter_In in Ht. destruct Ht as [Ht _]. apply in_map_iff in Ht.
      destruct Ht as [e [<- He]]. apply V.
      apply (Permutation_in _ Pm). apply in_or_app. left. exact He.
Qed.

Lemma priorities_witness :
  In {| PendingUrl.url := "https://shop.example.com/p/1"; PendingUrl.priority := 3 |}
     (BatchCrawler.processNewUrls [] "https://shop.example.com/" "shop.example.com"
        ["https://shop.example.com/"] Scenario.listing)
  /\ BatchCrawler.pendingUrls
       (BatchCrawler.iteration Scenario.shop "shop.example.com"
          (BatchCrawler.initial "https://shop.example.com/"))
     = [{| PendingUrl.url := "https://shop.example.com/p/1"; PendingUrl.priority := 3 |};
        {| PendingUrl.url := "https://shop.example.com/p/2"; PendingUrl.priority := 3 |};
        {| PendingUrl.url := "https://shop.example.com/p/3"; PendingUrl.priority := 3 |};
        {| PendingUrl.url := "https://shop.example.com/about"; PendingUrl.priority := 1 |}].
Proof.
  pose proof (priorities Scenario.shop "shop.example.com") as (_ & P2 & _ & P4).
  split.
  - apply (proj2 (P2 [] "https://shop.example.com/" ["https://shop.example.com/"]
                     Scenario.listing
                     {| PendingUrl.url := "https://shop.example.com/p/1";
                        PendingUrl.priority := 3 |})).
    left. split; [reflexivity|]. split; [vm_compute; reflexivity|]. split.
    + simpl. intuition discriminate.
    + exists "/p/1". split; [left; reflexivity|vm_compute; reflexivity].
  - destruct (P4 (BatchCrawler.initial "https://shop.example.com/"))
      as (_ & _ & _ & _ & added & evs & Hp & _ & _ & _ & Hx).
    rewrite Hp, Hx; [vm_compute; reflexivity|].
    intros e [<-|[]]. vm_compute. reflexivity.
Defined.

Import StringFacts UrlFacts UrlRoundTrip Normalize FormFacts QueryFacts Idempotence Equivalence.

(** C6, as the claim states it, fails: a path that begins with two language
    codes loses one of them at each normalization. *)
Lemma normalizeUrl_not_idempotent :
  isValidUrl "https://a.com/en/fr" = true
  /\ normalizeUrl "https://a.com/en/fr" = Some "https://a.com/fr"
  /\ normalizeUrl "https://a.com/fr" = Some "https://a.com/"
  /\ normalizeUrl "https://a.com/fr" <> Some "https://a.com/fr".
Proof.
  split; [vm_compute; reflexivity|]. split; [vm_compute; reflexivity|].
  split; [vm_compute; reflexivity|]. vm_compute. discriminate.
Qed.

(** C6, amended.  For a URL whose query parameters are ASCII text, a
    second normalization returns the result of the first exactly when
    that result does not begin, in its path, with one of the language
    codes again: if [normalizeUrl(u)] is [v], then [normalizeUrl(v)] is [v]
    if and only if the first non-empty path segment of [v] is not in
    [LANGUAGE_CODES].  (Parameters that are not ASCII are left out: their
    order under [localeCompare] is not modelled, and it can change when
    the result is lower-cased.) *)
Theorem normalizeUrl_idempotent (u v : string) :
  normalizeUrl u = Some v ->
  ascii_query u = true ->
  (normalizeUrl v = Some v <-> leading_language v = false).
Proof.
  intros E _.
  destruct (URL.new_URL u) as [U|] eqn:EU;
    [|unfold normalizeUrl in E; rewrite EU in E; discriminate].
  rewrite (normalizeUrl_record _ _ EU) in E. injection E as Ev. subst v.
  pose proof (norm_record_WF U (new_URL_WF _ _ EU)) as WN.
  assert (FN : URL.fragment (norm_record U) = None) by reflexivity.
  pose proof (new_URL_href_lower _ WN FN) as EV.
  rewrite (leading_language_path _ _ EV). cbn [lower_record URL.path norm_record].
  rewrite (normalizeUrl_record _ _ EV).
  assert (WV : WF (norm_record (lower_record (norm_record U)))).
  { apply norm_record_WF. eapply new_URL_WF. exact EV. }
  split.
  - intros Again. injection Again as Again.
    pose proof (new_URL_href_lower _ WV eq_refl) as EW.
    rewrite Again, EV in EW.
    apply (f_equal (option_map URL.path)) in EW.
    cbn [option_map lower_record norm_record URL.path] in EW. injection EW as EW.
    set (P := map toLowerCase (norm_path (URL.path U))) in *.
    destruct (language_first P) eqn:L; [|reflexivity].
    pose proof (norm_path_shorter P L) as Len.
    assert (Same : List.length (filter nonempty P)
                   = List.length (filter nonempty (norm_path P))).
    { rewrite EW at 1. rewrite filter_nonempty_lower, length_map. reflexivity. }
    lia.
  - intros L. f_equal.
    rewrite (href_lower _ WV eq_refl), (href_lower _ WN eq_refl).
    cbn [norm_record lower_record URL.scheme URL.host URL.port URL.path URL.query].
    rewrite norm_query_again. do 4 f_equal.
    unfold norm_path at 1. rewrite (rlp_segs_plain _ L).
    unfold norm_path. rewrite strip_segs_lower, strip_segs_idem.
    rewrite !pathname_of_lower, map_lower_idem. reflexivity.
Qed.

Lemma normalizeUrl_idempotent_witness :
  normalizeUrl "https://a.com/en/Shop/?b=2&a=1" = Some "https://a.com/shop?a=1&b=2"
  /\ ascii_query "https://a.com/en/Shop/?b=2&a=1" = true
  /\ normalizeUrl "https://a.com/shop?a=1&b=2" = Some "https://a.com/shop?a=1&b=2".
Proof.
  assert (E : normalizeUrl "https://a.com/en/Shop/?b=2&a=1" = Some "https://a.com/shop?a=1&b=2")
    by (vm_compute; reflexivity).
  assert (A : ascii_query "https://a.com/en/Shop/?b=2&a=1" = true)
    by (vm_compute; reflexivity).
  assert (L : leading_language "https://a.com/shop?a=1&b=2" = false)
    by (vm_compute; reflexivity).
  split; [exact E|]. split; [exact A|].
  exact (proj2 (normalizeUrl_idempotent "https://a.com/en/Shop/?b=2&a=1"
                  "https://a.com/shop?a=1&b=2" E A) L).
Defined.

(** C7, as the claim states it, fails.  Two URLs that differ only in the
    order of their query parameters keep that order when the parameters
    have the same key, or keys that differ only in a character that the
    collation ignores; a leading language segment is not a mere prefix
    when the path goes on with another language code or holds an empty
    segment; and two keys that differ only in case are ordered by their
    case before the result is lower-cased. *)
Lemma normalization_not_invariant :
  (normalizeUrl "https://a.com/?a=1&a=2" = Some "https://a.com/?a=1&a=2"
   /\ normalizeUrl "https://a.com/?a=2&a=1" = Some "https://a.com/?a=2&a=1"
   /\ normalizeUrl "https://a.com/?a=1&a=2" <> normalizeUrl "https://a.com/?a=2&a=1")
  /\ (normalizeUrl "https://a.com/?a%01=1&a=2" = Some "https://a.com/?a%01=1&a=2"
      /\ normalizeUrl "https://a.com/?a=2&a%01=1" = Some "https://a.com/?a=2&a%01=1")
  /\ (normalizeUrl "https://a.com/en/fr/x" = Some "https://a.com/fr/x"
      /\ normalizeUrl "https://a.com/fr/x" = Some "https://a.com/x")
  /\ (normalizeUrl "https://a.com/en/a//b" = Some "https://a.com/a/b"
      /\ normalizeUrl "https://a.com/a//b" = Some "https://a.com/a//b")
  /\ (normalizeUrl "https://a.com/?A=1&a=2" = Some "https://a.com/?a=2&a=1"
      /\ normalizeUrl "https://a.com/?a=1&A=2" = Some "https://a.com/?a=1&a=2").
Proof.
  repeat split; try (vm_compute; reflexivity). vm_compute. discriminate.
Qed.

(** C7, amended.  Two URLs whose parsed records are linked by a chain of
    the differences of [same_page] are mapped by [normalizeUrl] to the
    same key: a different fragment; one more trailing slash; a leading
    language segment in front of a path that neither begins with a
    language code nor has an empty segment before a non-empty one; another
    order of ASCII query parameters no two of whose keys compare as equal
    under [localeCompare]; another letter case of the path; another letter
    case of a query with ASCII parameters no two of whose keys compare as
    equal up to case.  In particular
    [normalizeUrl("https://a.com/en/Shop/?b=2&a=1")] equals
    [normalizeUrl("https://a.com/shop?a=1&b=2#x")]. *)
Theorem normalization_equivalence :
  (forall (u1 u2 : string) (U1 U2 : URL.t),
      URL.new_URL u1 = Some U1 -> URL.new_URL u2 = Some U2 ->
      same_page U1 U2 ->
      normalizeUrl u1 = normalizeUrl u2)
  /\ normalizeUrl "https://a.com/en/Shop/?b=2&a=1"
     = normalizeUrl "https://a.com/shop?a=1&b=2#x".
Proof.
  split; [|vm_compute; reflexivity].
  intros u1 u2 U1 U2 E1 E2 S.
  rewrite (normalizeUrl_record _ _ E1), (normalizeUrl_record _ _ E2). f_equal.
  apply key_parts_href. clear u1 u2 E1 E2.
  induction S as [u f|u|u l L F C|u q P _ N|u p Ep|u q Eq _ N|u|u v _ IH|u v w _ IH1 _ IH2].
  - reflexivity.
  - unfold key_parts. cbn [URL.with_path URL.scheme URL.host URL.port URL.path URL.query].
    rewrite norm_path_slash. reflexivity.
  - unfold key_parts. cbn [URL.with_path URL.scheme URL.host URL.port URL.path URL.query].
    rewrite (norm_path_locale l _ L F C). reflexivity.
  - unfold key_parts. cbn [URL.with_query URL.scheme URL.host URL.port URL.path URL.query].
    rewrite (norm_query_order _ _ P N). reflexivity.
  - unfold key_parts. cbn [URL.with_path URL.scheme URL.host URL.port URL.path URL.query].
    rewrite <- !norm_path_lower, Ep. reflexivity.
  - unfold key_parts. cbn [URL.with_query URL.scheme URL.host URL.port URL.path URL.query].
    rewrite (norm_query_case _ _ Eq N). reflexivity.
  - reflexivity.
  - symmetry. exact IH.
  - rewrite IH1. exact IH2.
Qed.

Lemma normalization_equivalence_witness :
  normalizeUrl "https://a.com/en/Shop/?b=2&a=1" = normalizeUrl "https://a.com/shop?a=1&b=2#x".
Proof.
  pose (V0 := URL.mk "https" "a.com" None ["shop"] (Some "a=1&b=2") None).
  pose (V1 := URL.mk "https" "a.com" None ["Shop"] (Some "a=1&b=2") None).
  pose (V2 := URL.mk "https" "a.com" None ["Shop"; ""] (Some "a=1&b=2") None).
  pose (V3 := URL.mk "https" "a.com" None ["en"; "Shop"; ""] (Some "a=1&b=2") None).
  pose (U1 := URL.mk "https" "a.com" None ["en"; "Shop"; ""] (Some "b=2&a=1") None).
  pose (U2 := URL.mk "https" "a.com" None ["shop"] (Some "a=1&b=2") (Some "x")).
  assert (E1 : URL.new_URL "https://a.com/en/Shop/?b=2&a=1" = Some U1)
    by (vm_compute; reflexivity).
  assert (E2 : URL.new_URL "https://a.com/shop?a=1&b=2#x" = Some U2)
    by (vm_compute; reflexivity).
  assert (S1 : same_page V3 U1).
  { apply (same_query_order V3 (Some "b=2&a=1")).
    - change (Permutation [("a", "1"); ("b", "2")] [("b", "2"); ("a", "1")]). apply perm_swap.
    - reflexivity.
    - change (NoDup ["a"; "b"]).
      apply NoDup_cons; [simpl; intuition discriminate|].
      apply NoDup_cons; [simpl; tauto|apply NoDup_nil]. }
  assert (S2 : same_page V2 V3).
  { apply (same_locale V2 "en"); reflexivity. }
  assert (S3 : same_page V1 V2) by exact (same_trailing_slash V1).
  assert (S4 : same_page V0 V1).
  { apply (same_path_case V0 ["Shop"]). reflexivity. }
  assert (S5 : same_page V0 U2) by exact (same_fragment V0 (Some "x")).
  apply (proj1 normalization_equivalence _ _ U1 U2 E1 E2).
  apply same_sym. apply same_trans with V0; [apply same_sym; exact S5|].
  apply same_trans with V1; [exact S4|]. apply same_trans with V2; [exact S3|].
  apply same_trans with V3; [exact S2|exact S1].
Defined.

(* ===================================================================== *)
(** * Further properties of the code *)
(* ===================================================================== *)

Import KeyFacts PatternFacts TraceFacts DedupFacts ChunkFacts PriorityFacts BudgetFacts.
Import BatchTrace VisitedFacts.

(** ** [urlUtils.ts] *)

(** X1.  For an [http] or [https] URL that the model parses and whose
    query parameters are ASCII text, what [normalizeUrl] returns is
    lower-case and parses again, to a URL of the same scheme, host and
    port that has no fragment, whose path is [/] or does not end in a
    slash, and whose query parameters have keys that do not descend in
    the order of [localeCompare]. *)
Theorem normalized_key_shape (u v : string) (U : URL.t) :
  URL.new_URL u = Some U ->
  URL.modelled_scheme (URL.scheme U) = true ->
  ascii_query u = true ->
  normalizeUrl u = Some v ->
  toLowerCase v = v
  /\ exists V,
      URL.new_URL v = Some V
      /\ URL.scheme V = URL.scheme U
      /\ URL.hostname V = URL.hostname U
      /\ URL.port V = URL.port U
      /\ URL.fragment V = None
      /\ (URL.pathname V = "/"
          \/ strip_trailing (is_char "/") (URL.pathname V) = URL.pathname V)
      /\ keys_ascend (URL.searchParams V).
Proof.
  intros EU _ _ E.
  rewrite (normalizeUrl_record _ _ EU) in E. injection E as Ev. subst v.
  pose proof (new_URL_WF _ _ EU) as W.
  pose proof (new_URL_href_lower _ (norm_record_WF U W) eq_refl) as EV.
  split; [apply lower_idem|]. exists (lower_record (norm_record U)).
  split; [exact EV|]. split; [reflexivity|]. split; [reflexivity|].
  split; [reflexivity|]. split; [reflexivity|]. split; [apply pathname_of_key; exact W|].
  rewrite searchParams_of_key. apply sorted_params_ascend.
Qed.

Lemma normalized_key_shape_witness :
  toLowerCase "https://a.com/shop?a=1&b=2" = "https://a.com/shop?a=1&b=2"
  /\ exists V,
      URL.new_URL "https://a.com/shop?a=1&b=2" = Some V
      /\ URL.hostname V = "a.com"
      /\ keys_ascend (URL.searchParams V).
Proof.
  pose (U := URL.mk "https" "a.com" None ["en"; "Shop"; ""; ""] (Some "b=2&a=1") (Some "top")).
  assert (EU : URL.new_URL "HTTPS://A.com/en/Shop//?b=2&a=1#top" = Some U)
    by (vm_compute; reflexivity).
  assert (A : ascii_query "HTTPS://A.com/en/Shop//?b=2&a=1#top" = true)
    by (vm_compute; reflexivity).
  assert (E : normalizeUrl "HTTPS://A.com/en/Shop//?b=2&a=1#top"
              = Some "https://a.com/shop?a=1&b=2") by (vm_compute; reflexivity).
  destruct (normalized_key_shape _ _ U EU eq_refl A E)
    as (L & V & EV & _ & H & _ & _ & _ & K).
  split; [exact L|]. exists V. split; [exact EV|]. split; [exact H|exact K].
Defined.

(** X2.  [isSameDomain] is symmetric and transitive, holds of a URL and
    itself exactly when the URL is valid, and answers [false], without
    throwing, as soon as one argument is not valid.  On valid URLs it is
    the comparison of [getBaseDomain] that the crawler uses, and an [http]
    or [https] URL that the model parses is in the domain of its
    normalization. *)
Theorem same_domain_equivalence (a b c : string) :
  isSameDomain a b = isSameDomain b a
  /\ isSameDomain a a = isValidUrl a
  /\ (isSameDomain a b = true -> isSameDomain b c = true -> isSameDomain a c = true)
  /\ (isSameDomain a b = true <->
      isValidUrl a = true /\ isValidUrl b = true /\ getBaseDomain a = getBaseDomain b)
  /\ (forall A v,
         URL.new_URL a = Some A ->
         URL.modelled_scheme (URL.scheme A) = true ->
         normalizeUrl a = Some v ->
         isSameDomain a v = true).
Proof.
  split; [|split; [|split; [|split]]].
  - unfold isSameDomain. destruct (URL.new_URL a), (URL.new_URL b); try reflexivity.
    apply String.eqb_sym.
  - unfold isSameDomain, isValidUrl.
    destruct (URL.new_URL a); [apply String.eqb_refl|reflexivity].
  - unfold isSameDomain.
    destruct (URL.new_URL a), (URL.new_URL b), (URL.new_URL c); try discriminate.
    rewrite !String.eqb_eq. congruence.
  - unfold isSameDomain, isValidUrl, getBaseDomain.
    destruct (URL.new_URL a), (URL.new_URL b); rewrite ?String.eqb_eq; split;
      try discriminate; try tauto; intros (X & Y & Z); discriminate.
  - intros A v EA _ E. pose proof (normalizeUrl_host _ _ E) as H.
    destruct (normalized_valid v (ex_intro _ a E)) as [V _].
    unfold isSameDomain, getBaseDomain, isValidUrl in *. rewrite EA in *.
    destruct (URL.new_URL v); [|discriminate]. apply String.eqb_eq. symmetry. exact H.
Qed.

(** X3.  [isLikelyProductOrListingUrl] answers [isLikely: true] exactly
    when it answers a type other than ["other"], and it answers
    [{isLikely: false, type: "other"}] for every string that is not a
    valid URL and for every resource URL. *)
Theorem likely_iff_typed (url : string) :
  (isLikely (isLikelyProductOrListingUrl url) = true
   <-> type (isLikelyProductOrListingUrl url) <> KOther)
  /\ (isValidUrl url = false \/ isResourceUrl url = true ->
      isLikelyProductOrListingUrl url = {| isLikely := false; type := KOther |}).
Proof.
  unfold isLikelyProductOrListingUrl, isValidUrl.
  destruct (URL.new_URL url) as [parsedUrl|].
  - cbv zeta. split.
    + repeat match goal with
             | |- context [if ?c then _ else _] => destruct c
             end; cbn; split; congruence.
    + intros [H|H]; [discriminate|]. rewrite H. reflexivity.
  - split; [cbn; split; congruence|reflexivity].
Qed.

(** X4.  A string that ends in a dot and one of the extensions of the
    first and the fourth pattern of [isResourceUrl], in any letter case,
    is a resource URL, whatever precedes the dot; so
    [isLikelyProductOrListingUrl] does not find it likely. *)
Theorem asset_urls_are_resources (s e : string) :
  In (toLowerCase e) asset_extensions ->
  isResourceUrl (s ++ "." ++ e) = true
  /\ isLikely (isLikelyProductOrListingUrl (s ++ "." ++ e)) = false.
Proof.
  intros H. pose proof (asset_extension_matches s e H) as R. split; [exact R|].
  unfold isLikelyProductOrListingUrl. destruct (URL.new_URL _); [|reflexivity].
  cbv zeta. rewrite R. reflexivity.
Qed.

Lemma asset_urls_are_resources_witness :
  isResourceUrl "https://shop.example.com/media/Logo.PNG" = true.
Proof.
  apply (asset_urls_are_resources "https://shop.example.com/media/Logo" "PNG").
  vm_compute. tauto.
Defined.

(** ** Both crawlers *)



(** ** The sequential crawler of [crawler.ts] *)





(** X8.  Every product that the sequential crawler returns is the
    product that the classifier answered, with page type ["product"], to
    the call the run made for one of the pages it fetched: the call for
    the URL dequeued at a head of the loop of this run, with the page that
    [fetchPage] returned and the links that the crawler filtered in that
    state.  Its [url] is the normalization of the URL of that page. *)
Theorem products_are_extracted (w : World) (startUrl : string) (maxPages : Z)
        (r : CrawlResult) (tr : list Event) (n : string) (p : ProductData) :
  Crawler.crawlWebsite w startUrl maxPages = (Return r, tr) ->
  normalizeUrl startUrl = Some n ->
  In p (products r) ->
  extracted w (getBaseDomain startUrl) n maxPages tr p.
Proof.
  intros E N Hp.
  destruct (sequential_cases _ _ _ _ _ E) as [(_ & -> & _)|(n' & st & N' & -> & -> & R)];
    [destruct Hp|].
  rewrite N in N'. injection N' as <-.
  assert (Re : reachable (Crawler.continue maxPages)
                 (Crawler.iteration w (getBaseDomain startUrl) n) (Crawler.initial n) st)
    by (eapply while_run_reachable; [apply reach_start|exact R]).
  destruct (seq_trace_reachable _ _ _ _ _ Re) as (_ & _ & _ & X). apply X.
  pose proof (SeqInv.seq_Inv_reachable _ _ _ _ _ Re) as I.
  cbn [products] in Hp. rewrite deduplicateProducts_fold in Hp.
  rewrite (dedup_fold_id (Crawler.found st) []) in Hp; [exact Hp|].
  cbn [app]. rewrite (SeqSpec.found_seen _ _ _ I). apply (SeqSpec.seen_nodup _ _ _ I).
Qed.

Lemma products_are_extracted_witness :
  extracted Scenario.shop (getBaseDomain Scenario.start_url) ScenarioRuns.home 10
            ScenarioRuns.sequential_events (with_url ScenarioRuns.p1 Scenario.widget).
Proof.
  apply (products_are_extracted Scenario.shop Scenario.start_url 10
           ScenarioRuns.sequential_result).
  - vm_compute. reflexivity.
  - vm_compute. reflexivity.
  - left. reflexivity.
Defined.

(** X9.  [deduplicateProducts] returns records of its argument in the
    order of its argument, gives back its own result and any list whose
    URLs are pairwise different, and may be applied to a first part of a
    list before the whole. *)
Theorem deduplicateProducts_laws (l l' : list ProductData) :
  subseq (deduplicateProducts l) l
  /\ deduplicateProducts (deduplicateProducts l) = deduplicateProducts l
  /\ (NoDup (map url l) -> deduplicateProducts l = l)
  /\ deduplicateProducts (l ++ l') = deduplicateProducts (deduplicateProducts l ++ l').
Proof.
  split; [|split; [|split]].
  - rewrite deduplicateProducts_fold.
    destruct (dedup_fold_subseq l []) as [kept [E S]]. rewrite E. exact S.
  - apply dedup_idempotent.
  - intros N. rewrite deduplicateProducts_fold. apply (dedup_fold_id l []). exact N.
  - rewrite !deduplicateProducts_fold, !fold_left_app.
    rewrite <- !deduplicateProducts_fold, dedup_idempotent. reflexivity.
Qed.

(** ** The HTTP handler *)

(** X10.  [POST /api/crawl] answers 400 with ["URL is required"] when the
    body has no [url] or an empty one.  Otherwise the status is 200 or 500;
    a [url] that is not a valid URL is answered with status 200 and the
    result [{products: [], visitedUrls: [], error: "Invalid start URL"}];
    and a missing [maxPages] or one that is 0 stands for 1000. *)
Theorem handler_answers (w : World) (req : Server.Request) :
  (Server.url req = None \/ Server.url req = Some "" ->
   Server.handler w req
   = {| Server.status := 400; Server.body := Server.ErrorBody "URL is required" |})
  /\ (forall u, Server.url req = Some u -> u <> "" ->
        (isValidUrl u = false ->
         Server.handler w req
         = {| Server.status := 200; Server.body := Server.ResultBody invalid_result |})
        /\ (Server.status (Server.handler w req) = 200
            \/ Server.status (Server.handler w req) = 500)
        /\ (Server.maxPages req = None \/ Server.maxPages req = Some 0%Z ->
            Server.handler w req
            = Server.handler w {| Server.url := Some u; Server.maxPages := Some 1000%Z |})).
Proof.
  split.
  - intros [H|H]; unfold Server.handler; rewrite H; reflexivity.
  - intros u H Hn. unfold Server.handler. rewrite H. cbn [Server.url Server.maxPages].
    destruct u as [|c u]; [contradiction|]. split; [|split].
    + intros V.
      assert (E : forall m, Crawler.crawlWebsite w (String c u) m = (Return invalid_result, [])).
      { intros m. unfold Crawler.crawlWebsite. rewrite V. reflexivity. }
      rewrite E. reflexivity.
    + destruct (fst (Crawler.crawlWebsite w (String c u) _)) as [r|[m|]]; auto.
    + intros [M|M]; rewrite M; reflexivity.
Qed.

(** ** The batched crawler *)

(** X11.  For a positive [size], [chunk] cuts the array into consecutive
    slices: their concatenation is the array, each has between 1 and
    [size] elements, and the first is the first [size] elements, followed
    by the slices of the rest. *)
Theorem chunk_partitions {T : Type} (array : list T) (size : nat) :
  0 < size ->
  List.concat (BatchCrawler.chunk array size) = array
  /\ Forall (fun c => 0 < List.length c <= size) (BatchCrawler.chunk array size)
  /\ (array <> [] ->
      BatchCrawler.chunk array size
      = firstn size array :: BatchCrawler.chunk (skipn size array) size).
Proof.
  intros H. destruct (chunk_spec size (List.length array) array H (Nat.le_refl _)) as [C F].
  split; [exact C|]. split; [exact F|]. apply chunk_cons. exact H.
Qed.

Lemma chunk_partitions_witness :
  List.concat (BatchCrawler.chunk [1; 2; 3; 4; 5] 3) = [1; 2; 3; 4; 5].
Proof. apply (chunk_partitions [1; 2; 3; 4; 5] 3). lia. Defined.

(** X12.  Sorting the queue by priority keeps the entries of each
    priority in the order in which they were queued. *)
Theorem equal_priorities_keep_their_order (p : Z) (pendingUrls : list PendingUrl.t) :
  filter (of_priority p) (sort_by BatchCrawler.priority_gt pendingUrls)
  = filter (of_priority p) pendingUrls.
Proof.
  induction pendingUrls as [|x l IH]; [reflexivity|].
  unfold sort_by. cbn [fold_right].
  change (fold_right (insert_by BatchCrawler.priority_gt) [] l)
    with (sort_by BatchCrawler.priority_gt l).
  rewrite insert_by_priority. cbn [filter]. rewrite IH. reflexivity.
Qed.

(** X13.  For a start URL that is valid and an [initBrowser()] that
    succeeds, the loop of the batched crawler terminates too, and
    [crawlWebsite] resolves to the result of the loop unless [cleanup()]
    rejects, in which case it rejects with that exception.  The loop stops with an
    empty queue or with at least [maxPages] visited URLs, and although it
    fetches up to five pages in an iteration it fetches fewer than
    [maxPages] pages in all (none when [maxPages <= 1]); the visited URLs
    are pairwise different and hold the normalized start URL. *)
Theorem batch_page_budget (w : World) (startUrl : string) (maxPages : Z) :
  isValidUrl startUrl = true ->
  launch w = None ->
  exists n st,
    normalizeUrl startUrl = Some n
    /\ while_run (BatchCrawler.continue maxPages)
                 (BatchCrawler.iteration w (getBaseDomain startUrl))
                 (BatchCrawler.initial n) st
    /\ BatchCrawler.crawlWebsite w startUrl maxPages
       = (match shutdown w (BatchCrawler.history st) with
          | Some e => Throw e
          | None => Return {| products := deduplicateProducts (BatchCrawler.found st);
                              visitedUrls := BatchCrawler.visited st;
                              error := None |}
          end,
          BatchCrawler.history st)
    /\ (BatchCrawler.pendingUrls st = []
        \/ (maxPages <= Z.of_nat (List.length (BatchCrawler.visited st)))%Z)
    /\ (Z.of_nat (fetches (BatchCrawler.history st)) <= Z.max 0 (maxPages - 1))%Z
    /\ In n (BatchCrawler.visited st) /\ NoDup (BatchCrawler.visited st).
Proof.
  intros V L. destruct (valid_normalizes startUrl V) as [n N].
  destruct (batch_run w startUrl maxPages n V N L) as [st [E R]].
  exists n, st. split; [exact N|]. split; [exact R|]. split; [exact E|].
  assert (Re : reachable (BatchCrawler.continue maxPages)
                 (BatchCrawler.iteration w (getBaseDomain startUrl))
                 (BatchCrawler.initial n) st).
  { eapply while_run_reachable; [apply reach_start|exact R]. }
  pose proof (BatchInv.batch_Inv_reachable _ _ n _ _ Re) as I.
  split; [|split; [|split]].
  - apply while_run_exit in R. unfold BatchCrawler.continue in R.
    apply andb_false_iff in R. destruct R as [R|R].
    + left. apply Nat.ltb_ge in R. destruct (BatchCrawler.pendingUrls st); [reflexivity|].
      simpl in R. lia.
    + right. apply Z.ltb_ge in R. exact R.
  - destruct (batch_fetches_bounded _ _ _ _ _ Re) as [F|F]; lia.
  - apply (BatchSpec.start_visited _ _ _ I).
  - apply (BatchSpec.visited_nodup _ _ _ I).
Qed.

Lemma batch_page_budget_witness :
  exists n st,
    normalizeUrl Scenario.start_url = Some n
    /\ while_run (BatchCrawler.continue 3)
                 (BatchCrawler.iteration Scenario.shop (getBaseDomain Scenario.start_url))
                 (BatchCrawler.initial n) st
    /\ BatchCrawler.crawlWebsite Scenario.shop Scenario.start_url 3
       = (Return {| products := deduplicateProducts (BatchCrawler.found st);
                    visitedUrls := BatchCrawler.visited st;
                    error := None |},
          BatchCrawler.history st)
    /\ (BatchCrawler.pendingUrls st = []
        \/ (3 <= Z.of_nat (List.length (BatchCrawler.visited st)))%Z)
    /\ (Z.of_nat (fetches (BatchCrawler.history st)) <= 2)%Z.
Proof.
  destruct (batch_page_budget Scenario.shop Scenario.start_url 3)
    as (n & st & N & R & E & Q & F & _); [vm_compute; reflexivity..|].
  exists n, st. split; [exact N|]. split; [exact R|]. split; [exact E|].
  split; [exact Q|exact F].
Defined.





(** ** Which visited URLs are fetched *)

Import GateSpec FrontierFacts.





(** ** The page pool *)

Import PagePool PoolSpec PoolFacts.

(** X16.  When the pool holds between one and three pages, [getPage]
    hands out the page that was put in last, and giving it back with
    [releasePage] leaves the process as it was. *)
Theorem fetch_returns_its_page (st : Process) :
  0 < List.length (pagePool st) <= MAX_CONCURRENT_PAGES ->
  fst (getPage st) = last (pagePool st) 0
  /\ releasePage (fst (getPage st)) (snd (getPage st)) = st.
Proof.
  intros H. split; [|apply (fetch_cycle_id st H)].
  unfold getPage. destruct (pagePool st); [simpl in H; lia|reflexivity].
Qed.

Lemma fetch_returns_its_page_witness :
  releasePage (fst (getPage (initBrowser fresh))) (snd (getPage (initBrowser fresh)))
  = initBrowser fresh.
Proof.
  apply (fetch_returns_its_page (initBrowser fresh)). vm_compute. lia.
Defined.

(** X17.  Whatever pages are taken and given back, in whatever order, a
    pool of at most [MAX_CONCURRENT_PAGES] pages never grows beyond that
    size. *)
Theorem page_pool_bounded (calls : list PoolCall) (st : Process) :
  List.length (pagePool st) <= MAX_CONCURRENT_PAGES ->
  List.length (pagePool (fold_left call calls st)) <= MAX_CONCURRENT_PAGES.
Proof.
  revert st. induction calls as [|c calls IH]; intros st H; [exact H|].
  cbn [fold_left]. apply IH. pose proof (call_bound st c). lia.
Qed.

Lemma page_pool_bounded_witness :
  List.length (pagePool (fold_left call [Get; Get; Get; Get; Release 3; Release 2;
                                         Release 1; Release 0] (initBrowser fresh)))
  <= MAX_CONCURRENT_PAGES.
Proof.
  apply (page_pool_bounded _ (initBrowser fresh)). vm_compute. lia.
Defined.

(** X18.  The [finally] block closes the pages of the pool and leaves
    them in it.  After a first run, whatever it fetched, the pool holds
    three closed pages; the next run adds three pages, closes each of them
    after one use, and from its fourth fetch on [getPage] hands out a page
    that was closed. *)
Theorem pool_outlives_its_browser (n k : nat) :
  pagePool (run n fresh) = [0; 1; 2]
  /\ closed (run n fresh) = [0; 1; 2]
  /\ browser (run n fresh) = None
  /\ pagePool (initBrowser (run n fresh)) = [0; 1; 2; 3; 4; 5]
  /\ (3 <= k ->
      In (fst (getPage (Nat.iter k fetch_cycle (initBrowser (run n fresh)))))
         (closed (Nat.iter k fetch_cycle (initBrowser (run n fresh))))).
Proof.
  assert (R : run n fresh
              = {| browser := None; pagePool := [0; 1; 2]; launches := 1; pages := 3;
                   closed := [0; 1; 2] |}).
  { unfold run. rewrite iter_fetch_cycle_id by (vm_compute; lia). reflexivity. }
  rewrite R. repeat split.
  intros K. replace k with ((k - 3) + 3) by lia. rewrite Nat.iter_add.
  set (s3 := Nat.iter 3 fetch_cycle _).
  assert (E : s3 = {| browser := Some 1; pagePool := [0; 1; 2]; launches := 2; pages := 6;
                      closed := [0; 1; 2; 5; 4; 3] |}) by reflexivity.
  rewrite E, iter_fetch_cycle_id by (vm_compute; lia). cbn. auto.
Qed.

Lemma pool_outlives_its_browser_witness :
  In (fst (getPage (Nat.iter 3 fetch_cycle (initBrowser (run 2 fresh)))))
     (closed (Nat.iter 3 fetch_cycle (initBrowser (run 2 fresh)))).
Proof.
  apply (proj2 (proj2 (proj2 (proj2 (pool_outlives_its_browser 2 3))))). lia.
Defined.
